(** * mcp-audio-tweaker: the operation compiler, the variation generator,
      the job runner and the batch scheduler

    A shallow embedding of [BaseAudioProcessor] and [AdvancedAudioProcessor]
    (services/base-audio-processor.ts, services/advanced-audio-processor.ts),
    of the helpers of utils/ffmpeg.ts they call, and of the records of
    types/index.ts.

    JavaScript numbers are IEEE 754 binary64 values, so they are embedded as
    Rocq's primitive [float]s: [+], [-], [*], [/] and the comparisons are the
    very operations the program runs.  The handful of runtime functions the
    program uses on top of them live in [Module JS]. *)

From Stdlib Require Import String Ascii List ZArith Floats Bool Lia.
From Stdlib Require Import DecimalString.
Import ListNotations.

Local Open Scope list_scope.
Local Open Scope string_scope.

(** Decimal literals such as [0.3] denote the nearest binary64 value, as
    they do in the source. *)
Set Warnings "-inexact-float".

(* ===================================================================== *)
(** * The JavaScript runtime, as far as the program uses it *)
(* ===================================================================== *)

Module JS.

(** [ToBoolean] on a number: [+0], [-0] and [NaN] are falsy. *)
Definition truthy (x : float) : bool :=
  negb (is_zero x || is_nan x).

(** [ToBoolean] on a string: only the empty string is falsy. *)
Definition truthy_str (s : string) : bool :=
  match s with EmptyString => false | _ => true end.

(** [x || d] where [x] is an optional number ([undefined] is falsy). *)
Definition or_default (x : option float) (d : float) : float :=
  match x with
  | Some v => if truthy v then v else d
  | None => d
  end.

(** [if (x) { ... x ... }] where [x] is an optional number: the value the
    branch runs with, if it runs. *)
Definition truthy_value (x : option float) : option float :=
  match x with
  | Some v => if truthy v then Some v else None
  | None => None
  end.

(** [x || d] on an optional string. *)
Definition str_or (x : option string) (d : string) : string :=
  match x with
  | Some s => if truthy_str s then s else d
  | None => d
  end.

(** [if (x) { ... x ... }] on an optional string. *)
Definition truthy_string (x : option string) : option string :=
  match x with
  | Some s => if truthy_str s then Some s else None
  | None => None
  end.

(** [if (b)] where [b] is an optional boolean. *)
Definition is_true (b : option bool) : bool :=
  match b with Some true => true | _ => false end.

(** The float that is nearest to the integer [z] (exact below 2^53). *)
Definition of_Z (z : Z) : float :=
  SF2Prim (binary_normalize prec emax z 0 false).

(** The integer a float denotes, when it denotes one. *)
Definition to_integer (x : float) : option Z :=
  match Prim2SF x with
  | S754_zero _ => Some 0%Z
  | S754_finite s m e =>
      if (0 <=? e)%Z then Some (cond_Zopp s (Zpos m * 2 ^ e))
      else if (Zpos m mod 2 ^ (- e) =? 0)%Z
           then Some (cond_Zopp s (Zpos m / 2 ^ (- e)))
           else None
  | _ => None
  end.

(** [Math.floor]. *)
Definition Math_floor (x : float) : float :=
  match Prim2SF x with
  | S754_finite s m e =>
      if (0 <=? e)%Z then x
      else
        let q := (cond_Zopp s (Zpos m) / 2 ^ (- e))%Z in
        if (q =? 0)%Z then zero else of_Z q
  | _ => x
  end.

(** [n % d]: the remainder of the truncating division, with the sign of
    the dividend; it is always exact. *)
Definition rem (n d : float) : float :=
  match Prim2SF n, Prim2SF d with
  | S754_nan, _ | _, S754_nan => nan
  | S754_infinity _, _ => nan
  | _, S754_zero _ => nan
  | _, S754_infinity _ => n
  | S754_zero _, _ => n
  | S754_finite sn mn en, S754_finite _ md ed =>
      let e := Z.min en ed in
      let r := ((Zpos mn * 2 ^ (en - e)) mod (Zpos md * 2 ^ (ed - e)))%Z in
      if (r =? 0)%Z then (if sn then neg_zero else zero)
      else SF2Prim (binary_normalize prec emax (cond_Zopp sn r) e false)
  end.

Definition Math_abs (x : float) : float := abs x.

(** [Math.min] and [Math.max] of two numbers: [NaN] is contagious and
    [-0] is smaller than [+0]. *)
Definition Math_min (a b : float) : float :=
  if is_nan a || is_nan b then nan
  else if (a <? b)%float then a
  else if (b <? a)%float then b
  else if get_sign a then a else b.

Definition Math_max (a b : float) : float :=
  if is_nan a || is_nan b then nan
  else if (a <? b)%float then b
  else if (b <? a)%float then a
  else if get_sign a then b else a.

(** Decimal digits of an integer, as [String(i)] prints it. *)
Definition string_of_Z (z : Z) : string :=
  NilZero.string_of_int (Z.to_int z).

Definition string_of_nat (n : nat) : string :=
  string_of_Z (Z.of_nat n).

Section NumberToString.

(** [Number::toString] prints an integer below 2^53 with its digits.  It
    prints every other finite number (one that is not an integer, or one
    of 2^53 and more) with the shortest digits that read back as the same
    number; that printer is the runtime's, and the development is
    parametric in it. *)
Variable show_fraction : float -> string.

(** [`${x}`] for a number [x]. *)
Definition to_string (x : float) : string :=
  match Prim2SF x with
  | S754_nan => "NaN"
  | S754_infinity false => "Infinity"
  | S754_infinity true => "-Infinity"
  | S754_zero _ => "0"
  | S754_finite _ _ _ =>
      match to_integer x with
      | Some z =>
          if (Z.abs z <? 2 ^ 53)%Z then string_of_Z z
          else show_fraction x
      | None => show_fraction x
      end
  end.

End NumberToString.

End JS.

(** [Array.prototype.join]. *)
Fixpoint join (sep : string) (l : list string) : string :=
  match l with
  | [] => ""
  | [s] => s
  | s :: rest => s ++ sep ++ join sep rest
  end.

(* ===================================================================== *)
(** * types/index.ts *)
(* ===================================================================== *)

Record VolumeOperation := {
  adjust : option float;
  normalize : option bool;
  targetLUFS : option float
}.

Record FormatOperation := {
  sampleRate : option float;
  bitrate : option float;
  channels : option float;
  codec : option string
}.

Record Trim := { trim_start : float; trim_end : float }.

Record Loop := { enabled : bool; loop_count : float }.

Record EffectsOperation := {
  fadeIn : option float;
  fadeOut : option float;
  trim : option Trim;
  loop : option Loop
}.

Record PitchOperation := {
  semitones : float;
  cents : option float;
  preserveFormants : option bool
}.

Record TempoOperation := {
  factor : float;
  preservePitch : option bool
}.

Record HarmonicsOperation := {
  octaveUp : option float;
  octaveDown : option float;
  fifthUp : option float;
  thirdUp : option float
}.

Record SpectralOperation := {
  bassBoost : option float;
  trebleBoost : option float;
  midCut : option float;
  warmth : option float;
  brightness : option float
}.

Record Compressor := {
  comp_threshold : float;
  comp_ratio : float;
  comp_attack : float;
  comp_release : float;
  comp_knee : option float
}.

Record Gate := {
  gate_threshold : float;
  gate_ratio : float;
  gate_attack : option float;
  gate_release : option float
}.

Record Limiter := {
  lim_threshold : float;
  lim_release : option float
}.

Record DynamicsOperation := {
  compressor : option Compressor;
  gate : option Gate;
  limiter : option Limiter
}.

Record SpatialOperation := {
  stereoWidth : option float;
  panPosition : option float;
  reverbSend : option float;
  delayTime : option float;
  delayFeedback : option float
}.

Record EnvelopeOperation := {
  env_attack : float;
  env_decay : float;
  env_sustain : float;
  env_release : float
}.

Record Tremolo := { trem_rate : float; trem_depth : float }.
Record Vibrato := { vib_rate : float; vib_depth : float }.
Record Chorus := { chorus_rate : float; chorus_depth : float; chorus_delay : float }.

Record ModulationOperation := {
  tremolo : option Tremolo;
  vibrato : option Vibrato;
  chorus : option Chorus
}.

(** [count] bounds a [for (let i = 0; i < count; i++)] loop and is an
    integer in every caller (1 to 20), so it is an integer here. *)
Record VariationOperation := {
  count : Z;
  pitchRange : option float;
  volumeRange : option float;
  timingRange : option float;
  spectralRange : option float;
  seed : option float
}.

Inductive Blend := mix | multiply | add | subtract.

Record Layer := {
  blend : Blend;
  layer_delay : option float;
  layer_pitch : option float;
  layer_volume : option float;
  layer_pan : option float
}.

Record LayeringOperation := { layers : list Layer }.

Record AdvancedEffectsOperation := {
  pitch : option PitchOperation;
  tempo : option TempoOperation;
  harmonics : option HarmonicsOperation;
  spectral : option SpectralOperation;
  dynamics : option DynamicsOperation;
  spatial : option SpatialOperation;
  envelope : option EnvelopeOperation;
  modulation : option ModulationOperation;
  variations : option VariationOperation;
  layering : option LayeringOperation
}.

Record AudioOperations := {
  volume : option VolumeOperation;
  format : option FormatOperation;
  effects : option EffectsOperation;
  advanced : option AdvancedEffectsOperation
}.

Record ProcessingInput := {
  in_file : option string;
  in_directory : option string;
  in_pattern : option string
}.

Record ProcessingOutput := {
  out_file : option string;
  out_directory : option string;
  out_suffix : option string;
  out_format : option string
}.

(** [processingTime] is a difference of two [Date.now()] readings, which are
    integers (milliseconds) far below 2^53: an integer here. *)
Record ProcessingResult := {
  success : bool;
  inputFile : string;
  outputFile : string;
  processingTime : Z;
  operations : AudioOperations;
  error : option string
}.

Record BatchProcessingResult := {
  totalFiles : nat;
  successfulFiles : nat;
  failedFiles : nat;
  results : list ProcessingResult;
  totalProcessingTime : Z
}.

(* ===================================================================== *)
(** * The engine command, as the compiler sees it *)
(* ===================================================================== *)

(** The [command] object is fluent-ffmpeg's; the compiler only calls setters
    on it.  It is embedded as the log of those calls.  [audioFilters] takes
    either one string or an array; an array argument is a JavaScript object,
    so the log keeps which array was passed (its reference) together with
    the contents it had when the call was made. *)

Definition ArrayRef := nat.

Inductive FilterArg :=
| OneFilter (s : string)
| FilterArray (r : ArrayRef) (at_call : list string).

Inductive Call :=
| audioFilters (a : FilterArg)
| audioFrequency (hz : float)
| audioChannels (n : float)
| audioCodec (c : string)
| audioBitrate (b : string)
| seekInput (t : float)
| duration (t : float).

(** The state a compilation runs in: the calls made so far, oldest first,
    and the string arrays allocated so far (the i-th array has reference i). *)
Record CmdState := {
  calls : list Call;
  arrays : list (list string)
}.

Definition fresh_command : CmdState := {| calls := []; arrays := [] |}.

Definition Cmd (A : Type) : Type := CmdState -> A * CmdState.

Definition cret {A} (a : A) : Cmd A := fun st => (a, st).

Definition cbind {A B} (m : Cmd A) (k : A -> Cmd B) : Cmd B :=
  fun st => let (a, st') := m st in k a st'.

Declare Scope cmd_scope.
Delimit Scope cmd_scope with cmd.
Notation "x <- m ;; k" := (cbind m (fun x => k))
  (at level 61, m at next level, right associativity) : cmd_scope.
Notation "m ;; k" := (cbind m (fun _ => k))
  (at level 61, right associativity) : cmd_scope.

Local Open Scope cmd_scope.

(** [command.f(...)]. *)
Definition call (c : Call) : Cmd unit :=
  fun st => (tt, {| calls := (calls st ++ [c])%list; arrays := arrays st |}).

(** [const filters: string[] = []]. *)
Definition new_array : Cmd ArrayRef :=
  fun st => (length (arrays st),
             {| calls := calls st; arrays := (arrays st ++ [[]])%list |}).

Definition read_array (r : ArrayRef) (st : CmdState) : list string :=
  nth r (arrays st) [].

Fixpoint update_nth {A} (n : nat) (f : A -> A) (l : list A) : list A :=
  match l, n with
  | [], _ => []
  | x :: rest, O => f x :: rest
  | x :: rest, S n' => x :: update_nth n' f rest
  end.

(** [filters.push(...items)]. *)
Definition push (r : ArrayRef) (items : list string) : Cmd unit :=
  fun st => (tt, {| calls := calls st;
                    arrays := update_nth r (fun a => (a ++ items)%list) (arrays st) |}).

(** [filters.length]. *)
Definition array_length (r : ArrayRef) : Cmd nat :=
  fun st => (length (read_array r st), st).

(** [command.audioFilters(filters)] with the array [filters]. *)
Definition call_audioFilters_array (r : ArrayRef) : Cmd unit :=
  fun st => call (audioFilters (FilterArray r (read_array r st))) st.

(** [if (c) { body }]. *)
Definition when (c : bool) (body : Cmd unit) : Cmd unit :=
  if c then body else cret tt.

(** [if (o !== undefined) { body(o) }], and [if (o) { body(o) }] for an
    object [o]. *)
Definition when_some {A} (o : option A) (body : A -> Cmd unit) : Cmd unit :=
  match o with Some a => body a | None => cret tt end.

(** What the command holds after compilation.  fluent-ffmpeg copies the
    strings of an [audioFilters] call into the command while the call runs,
    so the command's filter list is made of the contents the arguments had
    at call time. *)
Definition filters_of_call (c : Call) : list string :=
  match c with
  | audioFilters (OneFilter s) => [s]
  | audioFilters (FilterArray _ at_call) => at_call
  | _ => []
  end.

Definition command_filters (st : CmdState) : list string :=
  flat_map filters_of_call (calls st).

(** What a recorder that keeps its arguments by reference (a mock function)
    shows after compilation: the arrays as they are at the end. *)
Definition filters_of_call_by_reference (st : CmdState) (c : Call) : list string :=
  match c with
  | audioFilters (OneFilter s) => [s]
  | audioFilters (FilterArray r _) => read_array r st
  | _ => []
  end.

Definition recorded_filters (st : CmdState) : list string :=
  flat_map (filters_of_call_by_reference st) (calls st).

(* ===================================================================== *)
(** * BaseAudioProcessor: the operation compiler *)
(* ===================================================================== *)

Section Compiler.

Variable show_fraction : float -> string.

(** [`${x}`] for a number [x]. *)
Definition show : float -> string := JS.to_string show_fraction.

(** [mapCodecToFFmpeg]: [codecMap[codec] || codec]. *)
Definition mapCodecToFFmpeg (codec : string) : string :=
  if String.eqb codec "pcm" then "pcm_s16le"
  else if String.eqb codec "mp3" then "libmp3lame"
  else if String.eqb codec "aac" then "aac"
  else if String.eqb codec "vorbis" then "libvorbis"
  else if String.eqb codec "flac" then "flac"
  else codec.

Definition loop_directive (n : float) : string :=
  "aloop=loop=" ++ show n ++ ":size=samples".

Definition fade_in_directive (d : float) : string :=
  "afade=t=in:ss=0:d=" ++ show d.

Definition fade_out_directive (st : float) : string :=
  "afade=t=out:st=" ++ show st ++ ":d=1".

Definition loudnorm_directive (target : float) : string :=
  "loudnorm=I=" ++ show target ++ ":LRA=7:tp=-2".

Definition apply_volume (v : VolumeOperation) : Cmd unit :=
  when_some (adjust v) (fun a =>
    call (audioFilters (OneFilter ("volume=" ++ show a ++ "dB")))) ;;
  when (JS.is_true (normalize v)) (
    let targetLUFS := JS.or_default (targetLUFS v) (-23)%float in
    call (audioFilters (OneFilter (loudnorm_directive targetLUFS)))).

Definition apply_format (f : FormatOperation) : Cmd unit :=
  when_some (sampleRate f) (fun hz =>
    when (JS.truthy hz) (call (audioFrequency hz))) ;;
  when_some (channels f) (fun n =>
    when (JS.truthy n) (call (audioChannels n))) ;;
  when_some (codec f) (fun c =>
    when (JS.truthy_str c) (call (audioCodec (mapCodecToFFmpeg c)))) ;;
  when_some (bitrate f) (fun b =>
    when (JS.truthy b) (call (audioBitrate (show b ++ "k")))).

(** The [effects] block; it returns the reference of its local array
    [filters]. *)
Definition apply_effects (e : EffectsOperation) : Cmd ArrayRef :=
  filters <- new_array ;;
  when_some (fadeIn e) (fun d => push filters [fade_in_directive d]) ;;
  when_some (fadeOut e) (fun t => push filters [fade_out_directive t]) ;;
  when_some (trim e) (fun t =>
    call (seekInput (trim_start t)) ;;
    when (trim_start t <? trim_end t)%float (
      let d := (trim_end t - trim_start t)%float in
      call (duration d))) ;;
  n <- array_length filters ;;
  when (0 <? n)%nat (call_audioFilters_array filters) ;;
  (* [loop?.enabled && loop.count > 1] *)
  when_some (loop e) (fun l =>
    when (enabled l && (1 <? loop_count l)%float) (
      push filters [loop_directive (loop_count l - 1)%float])) ;;
  cret filters.

(** [BaseAudioProcessor.applyOperationsToCommand] *)
Definition base_applyOperationsToCommand (operations : AudioOperations) : Cmd unit :=
  when_some (volume operations) apply_volume ;;
  when_some (format operations) apply_format ;;
  when_some (effects operations) (fun e => _ <- apply_effects e ;; cret tt).

(** The command a compiler builds, starting from a new one. *)
Definition compiled (compiler : AudioOperations -> Cmd unit)
    (operations : AudioOperations) : CmdState :=
  snd (compiler operations fresh_command).

(* =================================================================== *)
(** ** AdvancedAudioProcessor: the advanced filters *)
(* =================================================================== *)

(** [Math.pow] is the runtime's (the language leaves its rounding to the
    implementation); the compiler is parametric in it. *)
Variable Math_pow : float -> float -> float.

(** [buildPitchFilter] computes these two before it prints them. *)
Definition totalCents (p : PitchOperation) : float :=
  (semitones p * 100 + JS.or_default (cents p) 0)%float.

Definition pitch_ratio (p : PitchOperation) : float :=
  Math_pow 2%float (totalCents p / 1200)%float.

Definition rate_resample_pair (ratio : float) : string :=
  "asetrate=44100*" ++ show ratio ++ ",aresample=44100".

Definition tempo_directive (f : float) : string :=
  "atempo=" ++ show f.

Definition buildPitchFilter (p : PitchOperation) : string :=
  let ratio := pitch_ratio p in
  if JS.is_true (preserveFormants p)
  then rate_resample_pair ratio ++ "," ++ tempo_directive (1 / ratio)%float
  else rate_resample_pair ratio.

Definition buildTempoFilter (t : TempoOperation) : string :=
  if JS.is_true (preservePitch t)
  then tempo_directive (factor t)
  else rate_resample_pair (factor t).

Definition mid_band_directive (gain : float) : string :=
  "equalizer=f=1000:width=500:g=" ++ show gain.

(** The [eqBands] array of [buildSpectralFilter], before it is joined. *)
Definition eqBands (s : SpectralOperation) : list string :=
  List.concat [
  match bassBoost s with
  | Some b => ["bass=g=" ++ show b]
  | None => []
  end;
  match trebleBoost s with
  | Some t => ["treble=g=" ++ show t]
  | None => []
  end;
  match midCut s with
  | Some m => [mid_band_directive (- JS.Math_abs m)%float]
  | None => []
  end;
  match warmth s with
  | Some w =>
      let warmthGain := (w * 3)%float in
      ["equalizer=f=200:width=100:g=" ++ show warmthGain]
  | None => []
  end;
  match brightness s with
  | Some b =>
      let brightnessGain := (b * 4)%float in
      ["equalizer=f=8000:width=2000:g=" ++ show brightnessGain]
  | None => []
  end ].

Definition buildSpectralFilter (s : SpectralOperation) : string :=
  join "," (eqBands s).

(** [${x ? `:name=${x}` : ''}] for an optional number [x]. *)
Definition optional_param (name : string) (x : option float) : string :=
  match x with
  | Some v => if JS.truthy v then ":" ++ name ++ "=" ++ show v else ""
  | None => ""
  end.

Definition buildDynamicsFilters (d : DynamicsOperation) : list string :=
  List.concat [
  match compressor d with
  | Some comp =>
      ["acompressor=threshold=" ++ show (comp_threshold comp) ++
       "dB:ratio=" ++ show (comp_ratio comp) ++
       ":attack=" ++ show (comp_attack comp) ++
       ":release=" ++ show (comp_release comp) ++
       optional_param "knee" (comp_knee comp)]
  | None => []
  end;
  match gate d with
  | Some g =>
      ["agate=threshold=" ++ show (gate_threshold g) ++
       "dB:ratio=" ++ show (gate_ratio g) ++
       optional_param "attack" (gate_attack g) ++
       optional_param "release" (gate_release g)]
  | None => []
  end;
  match limiter d with
  | Some l =>
      ["alimiter=limit=" ++ show (lim_threshold l) ++ "dB" ++
       optional_param "release" (lim_release l)]
  | None => []
  end ].

(** The [pan=stereo|...] directive both the spatial and the layering
    compilers print for a pan position. *)
Definition pan_directive (p : float) : string :=
  "pan=stereo|c0=" ++
    show (1 - JS.Math_abs (JS.Math_min 0 p))%float ++ "*c0+" ++
    show (JS.Math_max 0 (- p))%float ++ "*c1|c1=" ++
    show (1 - JS.Math_abs (JS.Math_max 0 p))%float ++ "*c1+" ++
    show (JS.Math_max 0 p)%float ++ "*c0".

Definition buildSpatialFilters (s : SpatialOperation) : list string :=
  List.concat [
  match stereoWidth s with
  | Some w => ["extrastereo=m=" ++ show w]
  | None => []
  end;
  match panPosition s with
  | Some p => [pan_directive p]
  | None => []
  end;
  match delayTime s with
  | Some t =>
      let delaySeconds := (t / 1000)%float in
      let feedback := JS.or_default (delayFeedback s) 0.3%float in
      ("adelay=" ++ show t ++ "|" ++ show t) ::
      (if (0 <? feedback)%float
       then ["afeedback=feedback=" ++ show feedback]
       else [])
  | None => []
  end;
  match reverbSend s with
  | Some r =>
      ["aecho=0.8:0.9:" ++ show (JS.Math_floor (r * 1000)%float) ++
       ":" ++ show r]
  | None => []
  end ].

Definition buildModulationFilters (m : ModulationOperation) : list string :=
  List.concat [
  match tremolo m with
  | Some trem =>
      ["tremolo=f=" ++ show (trem_rate trem) ++ ":d=" ++ show (trem_depth trem)]
  | None => []
  end;
  match vibrato m with
  | Some vib =>
      ["vibrato=f=" ++ show (vib_rate vib) ++ ":d=" ++ show (vib_depth vib)]
  | None => []
  end;
  match chorus m with
  | Some ch =>
      let delayMs := chorus_delay ch in
      ["chorus=0.7:0.9:" ++ show delayMs ++ ":0.25:" ++
       show (chorus_rate ch) ++ ":" ++ show (chorus_depth ch) ++ ":t"]
  | None => []
  end ].

(** The pushes of [applyAdvancedOperations] onto its array [filters]. *)
Definition push_advanced_filters (filters : ArrayRef)
    (a : AdvancedEffectsOperation) : Cmd unit :=
  when_some (pitch a) (fun p => push filters [buildPitchFilter p]) ;;
  when_some (tempo a) (fun t => push filters [buildTempoFilter t]) ;;
  when_some (spectral a) (fun s =>
    let spectralFilter := buildSpectralFilter s in
    when (JS.truthy_str spectralFilter) (push filters [spectralFilter])) ;;
  when_some (dynamics a) (fun d => push filters (buildDynamicsFilters d)) ;;
  when_some (spatial a) (fun s => push filters (buildSpatialFilters s)) ;;
  when_some (modulation a) (fun m => push filters (buildModulationFilters m)).

(** [applyAdvancedOperations] *)
Definition applyAdvancedOperations (a : AdvancedEffectsOperation) : Cmd unit :=
  filters <- new_array ;;
  push_advanced_filters filters a ;;
  n <- array_length filters ;;
  when (0 <? n)%nat (call_audioFilters_array filters).

(** [AdvancedAudioProcessor.applyOperationsToCommand] *)
Definition advanced_applyOperationsToCommand (operations : AudioOperations) : Cmd unit :=
  base_applyOperationsToCommand operations ;;
  when_some (advanced operations) applyAdvancedOperations.

(** [AudioProcessor.applyOperationsToCommand]: the base compiler (and a
    warning on the console when [advanced] is present). *)
Definition standard_applyOperationsToCommand (operations : AudioOperations) : Cmd unit :=
  base_applyOperationsToCommand operations.

(* =================================================================== *)
(** ** The layering compiler *)
(* =================================================================== *)

(** [`[name${i}]`] *)
Definition label (name : string) (i : nat) : string :=
  "[" ++ name ++ JS.string_of_nat i ++ "]".

(** One more stage of a layer's chain: the directive, the label of its
    output, and the same label again as the input of what follows. *)
Definition stage (directive name : string) (i : nat) : string :=
  directive ++ label name i ++ ";" ++ label name i.

(** The [layerFilter] string the loop body builds for layer [i]. *)
Definition layerFilter (i : nat) (layer : Layer) : string :=
  "[" ++ JS.string_of_nat i ++ ":a]" ++
  match JS.truthy_value (layer_delay layer) with
  | Some d => stage ("adelay=" ++ show d) "delayed" i
  | None => ""
  end ++
  match JS.truthy_value (layer_pitch layer) with
  | Some p =>
      let ratio := Math_pow 2%float (p / 12)%float in
      stage (rate_resample_pair ratio) "pitched" i
  | None => ""
  end ++
  match layer_volume layer with
  | Some v => stage ("volume=" ++ show v) "vol" i
  | None => ""
  end ++
  match layer_pan layer with
  | Some p => stage (pan_directive p) "pan" i
  | None => ""
  end.

(** What one round of [layers.forEach((layer, i) => ...)] appends to
    [filterGraph]. *)
Definition layer_section (inputs : nat) (i : nat) (layer : Layer) : string :=
  if (i <? inputs)%nat
  then layerFilter i layer ++ label "processed" i ++ ";"
  else "".

(** The rounds of [forEach] from index [i] on, in order. *)
Fixpoint layer_sections (inputs : nat) (i : nat) (ls : list Layer) : list string :=
  match ls with
  | [] => []
  | layer :: rest =>
      layer_section inputs i layer :: layer_sections inputs (S i) rest
  end.

(** [layers.map((_, i) => `[processed${i}]`)] *)
Definition mix_labels (ls : list Layer) : list string :=
  map (label "processed") (seq 0 (length ls)).

Definition mixInputs (ls : list Layer) : string :=
  join "" (mix_labels ls).

(** The mix-down directive, with its input labels in front. *)
Definition mix_down (ls : list Layer) : string :=
  mixInputs ls ++ "amix=inputs=" ++ JS.string_of_nat (length ls) ++
  ":duration=longest:dropout_transition=2[final]".

(** [buildLayeringFilter] *)
Definition buildLayeringFilter (inputFiles : list string)
    (layering : LayeringOperation) : string :=
  let ls := layers layering in
  let filterGraph := String.concat "" (layer_sections (length inputFiles) 0 ls) in
  filterGraph ++ mix_down ls.

End Compiler.

(* ===================================================================== *)
(** * The variation generator *)
(* ===================================================================== *)

(** [createSeededRandom]: the closure holds [state]; one call of the closure
    is [rng_next], which returns the draw and the new state. *)
Definition rng_next (state : float) : float * float :=
  let state' := JS.rem (state * 1664525 + 1013904223)%float 0x100000000%float in
  ((state' / 0x100000000)%float, state').

Definition no_advanced : AdvancedEffectsOperation :=
  {| pitch := None; tempo := None; harmonics := None; spectral := None;
     dynamics := None; spatial := None; envelope := None; modulation := None;
     variations := None; layering := None |}.

(** [generateRandomVariation]; it returns the variation and the state the
    generator is left in. *)
Definition generateRandomVariation (v : VariationOperation) (state : float)
  : AdvancedEffectsOperation * float :=
  let '(pitch', s1) :=
    match JS.truthy_value (pitchRange v) with
    | Some range =>
        let '(r, s) := rng_next state in
        let pitchShift := ((r - 0.5) * 2 * range)%float in
        (Some {| semitones := pitchShift; cents := None;
                 preserveFormants := None |}, s)
    | None => (None, state)
    end in
  let '(spectral', s2) :=
    match JS.truthy_value (spectralRange v) with
    | Some range =>
        let '(r1, s) := rng_next s1 in
        let bassShift := ((r1 - 0.5) * 2 * range)%float in
        let '(r2, s') := rng_next s in
        let trebleShift := ((r2 - 0.5) * 2 * range)%float in
        (Some {| bassBoost := Some bassShift; trebleBoost := Some trebleShift;
                 midCut := None; warmth := None; brightness := None |}, s')
    | None => (None, s1)
    end in
  let '(tempo', s3) :=
    match JS.truthy_value (timingRange v) with
    | Some _ =>
        let '(r, s) := rng_next s2 in
        let tempoShift := (1 + (r - 0.5) * 0.2)%float in
        (Some {| factor := tempoShift; preservePitch := Some true |}, s)
    | None => (None, s2)
    end in
  ({| pitch := pitch'; tempo := tempo'; harmonics := None; spectral := spectral';
      dynamics := None; spatial := None; envelope := None; modulation := None;
      variations := None; layering := None |}, s3).

(** A property of an object spread: the later object's property wins when it
    has one. *)
Definition spread {A} (base over : option A) : option A :=
  match over with Some x => Some x | None => base end.

(** [{ ...baseOperations?.advanced, ...variation }] *)
Definition spread_advanced (base : option AdvancedEffectsOperation)
    (v : AdvancedEffectsOperation) : AdvancedEffectsOperation :=
  let b := match base with Some b => b | None => no_advanced end in
  {| pitch := spread (pitch b) (pitch v);
     tempo := spread (tempo b) (tempo v);
     harmonics := spread (harmonics b) (harmonics v);
     spectral := spread (spectral b) (spectral v);
     dynamics := spread (dynamics b) (dynamics v);
     spatial := spread (spatial b) (spatial v);
     envelope := spread (envelope b) (envelope v);
     modulation := spread (modulation b) (modulation v);
     variations := spread (variations b) (variations v);
     layering := spread (layering b) (layering v) |}.

(** [{ ...baseOperations, advanced: { ... } }] *)
Definition variationOps (baseOperations : option AudioOperations)
    (v : AdvancedEffectsOperation) : AudioOperations :=
  match baseOperations with
  | Some b =>
      {| volume := volume b; format := format b; effects := effects b;
         advanced := Some (spread_advanced (advanced b) v) |}
  | None =>
      {| volume := None; format := None; effects := None;
         advanced := Some (spread_advanced None v) |}
  end.

(** [Math.floor(Math.random() * 1000000)], given what [Math.random()]
    returned. *)
Definition random_seed (random : float) : float :=
  JS.Math_floor (random * 1000000)%float.

(** The perturbations of the [n] rounds of the loop of [generateVariations]
    that start with the generator in [state]. *)
Fixpoint perturbations (v : VariationOperation) (n : nat) (state : float)
  : list AdvancedEffectsOperation :=
  match n with
  | O => []
  | S n' =>
      let '(variation, state') := generateRandomVariation v state in
      variation :: perturbations v n' state'
  end.

(* ===================================================================== *)
(** * Effects: the host, exceptions and the world *)
(* ===================================================================== *)

(** What a [throw] carries: an [Error] object (an [FFmpegError] is one) or
    some other value. *)
Record JsError := {
  is_FFmpegError : bool;
  message : string;
  code : option string
}.

Inductive Thrown :=
| ThrownError (e : JsError)
| ThrownValue.

(** [new FFmpegError(msg)] *)
Definition FFmpegError (msg : string) : Thrown :=
  ThrownError {| is_FFmpegError := true; message := msg; code := None |}.

(** [`${(error as Error).message}`] *)
Definition message_of (t : Thrown) : string :=
  match t with
  | ThrownError e => message e
  | ThrownValue => "undefined"
  end.

(** [(error as any).code === c] *)
Definition has_code (t : Thrown) (c : string) : bool :=
  match t with
  | ThrownError e =>
      match code e with Some c' => String.eqb c' c | None => false end
  | ThrownValue => false
  end.

Inductive Outcome (A : Type) :=
| Returned (a : A)
| Threw (t : Thrown).

Arguments Returned {A} a.
Arguments Threw {A} t.

(** An effectful computation (an [async] function awaited to its end): it
    runs in a world and leaves a world. *)
Definition IO (World A : Type) : Type := World -> Outcome A * World.

Section IOMonad.

Context {World : Type}.

Definition ret {A} (a : A) : IO World A := fun w => (Returned a, w).

Definition throw {A} (t : Thrown) : IO World A := fun w => (Threw t, w).

Definition bind {A B} (m : IO World A) (k : A -> IO World B) : IO World B :=
  fun w =>
    match m w with
    | (Returned a, w') => k a w'
    | (Threw t, w') => (Threw t, w')
    end.

(** [try { body } catch (error) { handler }] *)
Definition try_catch {A} (body : IO World A) (handler : Thrown -> IO World A)
  : IO World A :=
  fun w =>
    match body w with
    | (Returned a, w') => (Returned a, w')
    | (Threw t, w') => handler t w'
    end.

End IOMonad.

Declare Scope io_scope.
Delimit Scope io_scope with io.
Notation "x <- m ;; k" := (bind m (fun x => k))
  (at level 61, m at next level, right associativity) : io_scope.
Notation "m ;; k" := (bind m (fun _ => k))
  (at level 61, right associativity) : io_scope.

(** The collaborators of the processors: the clock, the ambient random
    source, the file system, glob, the engine, and Node's [path]. *)
Record Host (World : Type) := {
  Date_now : World -> Z;
  Math_random : World -> float * World;
  (** [fs.stat(p)], then [.isFile()] on what it returns *)
  fs_stat_isFile : string -> IO World bool;
  (** [fs.access(p)], [fs.access(p, R_OK)], [fs.access(p, W_OK)] *)
  fs_access : string -> IO World unit;
  fs_access_R_OK : string -> IO World unit;
  fs_access_W_OK : string -> IO World unit;
  (** [fs.mkdir(p, { recursive: true })] *)
  fs_mkdir_recursive : string -> IO World unit;
  (** [glob(pattern, { ignore, absolute })] *)
  glob : string -> IO World (list string);
  (** Running the engine on a command for an input and an output: it ends
      ([None]) or it reports an error ([Some message]). *)
  engine_run : string -> CmdState -> string -> World -> option string * World;
  path_dirname : string -> string;
  path_join : string -> string -> string;
  path_extname : string -> string;
  path_basename : string -> string;
  path_basename_ext : string -> string -> string;
  path_relative : string -> string -> string;
  path_parse_name : string -> string
}.

Arguments Date_now {World} h w.
Arguments Math_random {World} h w.
Arguments fs_stat_isFile {World} h p w.
Arguments fs_access {World} h p w.
Arguments fs_access_R_OK {World} h p w.
Arguments fs_access_W_OK {World} h p w.
Arguments fs_mkdir_recursive {World} h p w.
Arguments glob {World} h pattern w.
Arguments engine_run {World} h input command output w.
Arguments path_dirname {World} h p.
Arguments path_join {World} h a b.
Arguments path_extname {World} h p.
Arguments path_basename {World} h p.
Arguments path_basename_ext {World} h p ext.
Arguments path_relative {World} h from to.
Arguments path_parse_name {World} h p.

(* ===================================================================== *)
(** * utils/ffmpeg.ts *)
(* ===================================================================== *)

Section Utils.

Context {World : Type} (host : Host World).

Local Open Scope io_scope.

(** [Date.now()] *)
Definition now : IO World Z := fun w => (Returned (Date_now host w), w).

(** [Math.random()] *)
Definition random : IO World float :=
  fun w => let (r, w') := Math_random host w in (Returned r, w').

(** [validateInputFile] *)
Definition validateInputFile (filePath : string) : IO World unit :=
  try_catch (
    isFile <- fs_stat_isFile host filePath ;;
    (if negb isFile
     then throw (FFmpegError ("Path is not a file: " ++ filePath))
     else ret tt) ;;
    fs_access_R_OK host filePath)
  (fun error =>
    match error with
    | ThrownError {| is_FFmpegError := true |} => throw error
    | _ =>
        throw (FFmpegError ("Cannot access input file: " ++ filePath ++
                            " - " ++ message_of error))
    end).

(** [ensureOutputDirectory] *)
Definition ensureOutputDirectory (filePath : string) : IO World unit :=
  try_catch (
    let outputDir := path_dirname host filePath in
    fs_mkdir_recursive host outputDir ;;
    fs_access_W_OK host outputDir)
  (fun error =>
    throw (FFmpegError ("Cannot create or access output directory: " ++
                        path_dirname host filePath ++ " - " ++
                        message_of error))).

(** [handleExistingOutput] *)
Definition handleExistingOutput (outputPath : string) (overwrite : bool)
  : IO World unit :=
  try_catch (
    fs_access host outputPath ;;
    if negb overwrite
    then throw (FFmpegError ("Output file already exists: " ++ outputPath ++
                             ". Use overwrite option to replace."))
    else ret tt)
  (fun error =>
    if has_code error "ENOENT" then ret tt else throw error).

(** [executeFFmpegCommand]: the promise resolves on the engine's [end]
    event and rejects on its [error] event. *)
Definition executeFFmpegCommand (input : string) (command : CmdState)
    (outputPath : string) : IO World unit :=
  fun w =>
    match engine_run host input command outputPath w with
    | (None, w') => (Returned tt, w')
    | (Some err, w') =>
        (Threw (FFmpegError ("FFmpeg processing failed: " ++ err)), w')
    end.

(** [generateOutputFilename(inputPath, undefined, suffix, newExtension)] *)
Definition generateOutputFilename (inputPath : string)
    (suffix newExtension : option string) : string :=
  let inputDir := path_dirname host inputPath in
  let inputName := path_basename_ext host inputPath (path_extname host inputPath) in
  let inputExt := path_extname host inputPath in
  let suffix' := match suffix with Some s => s | None => "_processed" end in
  let extension :=
    match JS.truthy_string newExtension with
    | Some e => "." ++ e
    | None => inputExt
    end in
  path_join host inputDir (inputName ++ suffix' ++ extension).

End Utils.

(* ===================================================================== *)
(** * The job runner and the batch scheduler *)
(* ===================================================================== *)

Section Processor.

Context {World : Type} (host : Host World).

(** [this.applyOperationsToCommand]: the method the processor at hand
    dispatches to (base, standard or advanced). *)
Variable applyOperationsToCommand : AudioOperations -> Cmd unit.

Local Open Scope io_scope.

(** [error instanceof Error ? error.message : 'Unknown error'] *)
Definition error_text (error : Thrown) : string :=
  match error with
  | ThrownError e => message e
  | ThrownValue => "Unknown error"
  end.

(** [BaseAudioProcessor.processAudioFile] *)
Definition processAudioFile (inputFile outputFile : string)
    (operations : AudioOperations) (overwrite : bool)
  : IO World ProcessingResult :=
  startTime <- now host ;;
  try_catch (
    validateInputFile host inputFile ;;
    ensureOutputDirectory host outputFile ;;
    handleExistingOutput host outputFile overwrite ;;
    let command := compiled applyOperationsToCommand operations in
    executeFFmpegCommand host inputFile command outputFile ;;
    t <- now host ;;
    let processingTime := (t - startTime)%Z in
    ret {| success := true;
           inputFile := inputFile;
           outputFile := outputFile;
           processingTime := processingTime;
           operations := operations;
           error := None |})
  (fun error =>
    t <- now host ;;
    let processingTime := (t - startTime)%Z in
    ret {| success := false;
           inputFile := inputFile;
           outputFile := outputFile;
           processingTime := processingTime;
           operations := operations;
           error := Some (error_text error) |}).

(** [findInputFiles] *)
Definition findInputFiles (input : ProcessingInput) : IO World (list string) :=
  match JS.truthy_string (in_file input) with
  | Some f => ret [f]
  | None =>
      match JS.truthy_string (in_directory input) with
      | Some d =>
          let pattern :=
            JS.str_or (in_pattern input) "*.{mp3,wav,ogg,flac,m4a,aac}" in
          let searchPattern := path_join host d pattern in
          glob host searchPattern
      | None => throw (FFmpegError "No valid input specification provided")
      end
  end.

(** [generateBatchOutputPath] *)
Definition generateBatchOutputPath (inputFile : string)
    (input : ProcessingInput) (output : ProcessingOutput) : string :=
  match JS.truthy_string (out_file output) with
  | Some f => f
  | None =>
      match JS.truthy_string (out_directory output) with
      | Some dir =>
          let relativePath :=
            match JS.truthy_string (in_directory input) with
            | Some d => path_relative host d inputFile
            | None => path_basename host inputFile
            end in
          let suffix := JS.str_or (out_suffix output) "_processed" in
          let extension :=
            match JS.truthy_string (out_format output) with
            | Some f => "." ++ f
            | None => path_extname host inputFile
            end in
          let nameWithoutExt :=
            path_basename_ext host relativePath (path_extname host relativePath) in
          path_join host dir (nameWithoutExt ++ suffix ++ extension)
      | None =>
          generateOutputFilename host inputFile (out_suffix output)
            (out_format output)
      end
  end.

(** The task [batchProcessAudio] hands to the queue for one file.  It first
    compiles the operations into a command of its own, which it then drops,
    and runs the job. *)
Definition batch_task (input : ProcessingInput) (output : ProcessingOutput)
    (operations : AudioOperations) (overwrite : bool) (inputFile : string)
  : IO World ProcessingResult :=
  let outputFile := generateBatchOutputPath inputFile input output in
  let command := compiled applyOperationsToCommand operations in
  processAudioFile inputFile outputFile operations overwrite.

(** ** The queue and [Promise.all]

    [queue.add] gives one promise per task, in submission order, and
    [Promise.all] fills the slot of a promise when its task settles, in
    whatever order the tasks finish.  The order of completion is not the
    program's to choose: it is given by [choices], which names, round after
    round, which of the tasks still pending finishes next (its position
    among them; a missing choice means the oldest).  Tasks run to their
    end one at a time. *)

Fixpoint take_nth {A} (k : nat) (l : list A) : option (A * list A) :=
  match l, k with
  | [], _ => None
  | x :: rest, O => Some (x, rest)
  | x :: rest, S k' =>
      match take_nth k' rest with
      | Some (y, rest') => Some (y, x :: rest')
      | None => None
      end
  end.

Fixpoint settle {A} (rounds : nat) (pending : list (nat * IO World A))
    (choices : list nat) (slots : list (option A))
  : IO World (list (option A)) :=
  match rounds with
  | O => ret slots
  | S rounds' =>
      let k := (hd 0%nat choices mod length pending)%nat in
      match take_nth k pending with
      | Some ((i, task), pending') =>
          a <- task ;;
          settle rounds' pending' (tl choices)
                 (update_nth i (fun _ => Some a) slots)
      | None => ret slots
      end
  end.

Fixpoint number_from {A} (i : nat) (l : list A) : list (nat * A) :=
  match l with
  | [] => []
  | x :: rest => (i, x) :: number_from (S i) rest
  end.

(** The values of the settled slots, in slot order. *)
Fixpoint settled {A} (slots : list (option A)) : list A :=
  match slots with
  | [] => []
  | Some a :: rest => a :: settled rest
  | None :: rest => settled rest
  end.

(** [await Promise.all(tasks.map(t => this.queue.add(t)))] *)
Definition Promise_all_queued {A} (tasks : list (IO World A))
    (choices : list nat) : IO World (list A) :=
  slots <- settle (length tasks) (number_from 0 tasks) choices
                  (repeat None (length tasks)) ;;
  ret (settled slots).

(** [BaseAudioProcessor.batchProcessAudio] *)
Definition batchProcessAudio (input : ProcessingInput)
    (output : ProcessingOutput) (operations : AudioOperations)
    (overwrite : bool) (choices : list nat)
  : IO World BatchProcessingResult :=
  startTime <- now host ;;
  try_catch (
    inputFiles <- findInputFiles input ;;
    (if (length inputFiles =? 0)%nat
     then throw (FFmpegError "No audio files found matching the criteria")
     else ret tt) ;;
    let processingPromises :=
      map (batch_task input output operations overwrite) inputFiles in
    allResults <- Promise_all_queued processingPromises choices ;;
    (* [allResults.filter(r => !!r)]: a result record is an object, and
       every object is truthy *)
    let results := allResults in
    t <- now host ;;
    let totalProcessingTime := (t - startTime)%Z in
    let successfulFiles := length (filter success results) in
    let failedFiles := (length results - successfulFiles)%nat in
    ret {| totalFiles := length results;
           successfulFiles := successfulFiles;
           failedFiles := failedFiles;
           results := results;
           totalProcessingTime := totalProcessingTime |})
  (fun error =>
    throw (FFmpegError ("Batch processing failed: " ++ message_of error))).

(** ** AdvancedAudioProcessor.generateVariations *)

(** The loop [for (let i = i0; i < i0 + n; i++)] of [generateVariations],
    with the generator in [state]. *)
Fixpoint variations_loop (inputFile outputDirectory : string)
    (v : VariationOperation) (baseOperations : option AudioOperations)
    (overwrite : bool) (n : nat) (i : nat) (state : float)
  : IO World (list ProcessingResult) :=
  match n with
  | O => ret []
  | S n' =>
      let '(variation, state') := generateRandomVariation v state in
      let ops := variationOps baseOperations variation in
      let outputFile :=
        path_join host outputDirectory
          (path_parse_name host inputFile ++ "_var" ++
           JS.string_of_nat (i + 1) ++ path_extname host inputFile) in
      result <- processAudioFile inputFile outputFile ops overwrite ;;
      rest <- variations_loop inputFile outputDirectory v baseOperations
                              overwrite n' (S i) state' ;;
      ret (result :: rest)
  end.

(** [variations.seed || Math.floor(Math.random() * 1000000)] *)
Definition choose_seed (v : VariationOperation) : IO World float :=
  match JS.truthy_value (seed v) with
  | Some s => ret s
  | None => r <- random host ;; ret (random_seed r)
  end.

Definition generateVariations (inputFile outputDirectory : string)
    (v : VariationOperation) (baseOperations : option AudioOperations)
    (overwrite : bool) : IO World (list ProcessingResult) :=
  try_catch (
    validateInputFile host inputFile ;;
    ensureOutputDirectory host outputDirectory ;;
    seed <- choose_seed v ;;
    variations_loop inputFile outputDirectory v baseOperations overwrite
                    (Z.to_nat (count v)) 0 seed)
  (fun error =>
    throw (FFmpegError ("Variation generation failed: " ++ message_of error))).

End Processor.

(* ===================================================================== *)
(** * Vocabulary of the statements *)
(* ===================================================================== *)

(** A computation that only pushes onto the array allocated last: it appends
    [items] to it and leaves the rest alone. *)
Definition appends (r : ArrayRef) (m : Cmd unit) (items : list string) : Prop :=
  forall cs arrs a,
    r = length arrs ->
    m {| calls := cs; arrays := (arrs ++ [a])%list |} =
    (tt, {| calls := cs; arrays := (arrs ++ [(a ++ items)%list])%list |}).

(** A computation that only calls setters on the command: whatever the state
    it starts in, it appends the calls [cs] and leaves the arrays alone. *)
Definition emits (m : Cmd unit) (cs : list Call) : Prop :=
  forall st, m st = (tt, {| calls := (calls st ++ cs)%list; arrays := arrays st |}).

(** The directive of the engine's loop filter. *)
Definition is_loop_directive (s : string) : bool := prefix "aloop=" s.

(** The directive of a fade-out. *)
Definition is_fade_out_directive (s : string) : bool := prefix "afade=t=out" s.

(** The directive of a fade-in. *)
Definition is_fade_in_directive (s : string) : bool := prefix "afade=t=in" s.

(** The directive of the loudness normalizer. *)
Definition is_loudnorm_directive (s : string) : bool := prefix "loudnorm=" s.

(** [sub] occurs somewhere in [s]. *)
Fixpoint occurs (sub s : string) : bool :=
  prefix sub s ||
  match s with
  | EmptyString => false
  | String _ rest => occurs sub rest
  end.

Section CompilerVocabulary.

Variable show_fraction : float -> string.

(** The calls [apply_volume] makes. *)
Definition volume_calls (v : VolumeOperation) : list Call :=
  (match adjust v with
   | Some a => [audioFilters (OneFilter ("volume=" ++ show show_fraction a ++ "dB"))]
   | None => []
   end ++
   if JS.is_true (normalize v)
   then [audioFilters (OneFilter
           (loudnorm_directive show_fraction
              (JS.or_default (targetLUFS v) (-23)%float)))]
   else [])%list.

(** The filters of the [volume] block. *)
Definition volume_filters (v : VolumeOperation) : list string :=
  flat_map filters_of_call (volume_calls v).

(** The calls [apply_format] makes. *)
Definition format_calls (f : FormatOperation) : list Call :=
  (match JS.truthy_value (sampleRate f) with
   | Some hz => [audioFrequency hz]
   | None => []
   end ++
   match JS.truthy_value (channels f) with
   | Some n => [audioChannels n]
   | None => []
   end ++
   match JS.truthy_string (codec f) with
   | Some c => [audioCodec (mapCodecToFFmpeg c)]
   | None => []
   end ++
   match JS.truthy_value (bitrate f) with
   | Some b => [audioBitrate (show show_fraction b ++ "k")]
   | None => []
   end)%list.

(** What the [filters] array of the [effects] block holds when it is
    handed to the command: the fades. *)
Definition fades (e : EffectsOperation) : list string :=
  (match fadeIn e with
   | Some d => [fade_in_directive show_fraction d]
   | None => []
   end ++
   match fadeOut e with
   | Some t => [fade_out_directive show_fraction t]
   | None => []
   end)%list.

(** Where a filter of the base compiler comes from: the gain, the loudness
    normalization, the fade-in or the fade-out of the operations. *)
Inductive base_filter (ops : AudioOperations) : string -> Prop :=
| from_adjust (v : VolumeOperation) (a : float) :
    volume ops = Some v -> adjust v = Some a ->
    base_filter ops ("volume=" ++ show show_fraction a ++ "dB")
| from_normalize (v : VolumeOperation) :
    volume ops = Some v -> normalize v = Some true ->
    base_filter ops
      (loudnorm_directive show_fraction (JS.or_default (targetLUFS v) (-23)%float))
| from_fadeIn (e : EffectsOperation) (d : float) :
    effects ops = Some e -> fadeIn e = Some d ->
    base_filter ops (fade_in_directive show_fraction d)
| from_fadeOut (e : EffectsOperation) (t : float) :
    effects ops = Some e -> fadeOut e = Some t ->
    base_filter ops (fade_out_directive show_fraction t).

(** The calls the [trim] block makes. *)
Definition trim_calls (e : EffectsOperation) : list Call :=
  match trim e with
  | Some t =>
      seekInput (trim_start t) ::
      (if (trim_start t <? trim_end t)%float
       then [duration (trim_end t - trim_start t)%float]
       else [])
  | None => []
  end.

(** What the [effects] block pushes onto [filters] after the hand-over. *)
Definition loop_items (e : EffectsOperation) : list string :=
  match loop e with
  | Some l =>
      if enabled l && (1 <? loop_count l)%float
      then [loop_directive show_fraction (loop_count l - 1)%float]
      else []
  | None => []
  end.

(** The call that hands the array [r], holding [items], to the command;
    it is only made for a non-empty array. *)
Definition hand_over (r : ArrayRef) (items : list string) : list Call :=
  match items with
  | [] => []
  | _ => [audioFilters (FilterArray r items)]
  end.

(** The calls of the whole [effects] block, whose array is [r]. *)
Definition effects_calls (r : ArrayRef) (e : EffectsOperation) : list Call :=
  (trim_calls e ++ hand_over r (fades e))%list.

Definition opt_calls {A} (f : A -> list Call) (o : option A) : list Call :=
  match o with Some a => f a | None => [] end.

Variable Math_pow : float -> float -> float.

(** The chain of directives [buildPitchFilter] prints, one per element. *)
Definition pitch_directives (p : PitchOperation) : list string :=
  let ratio := pitch_ratio Math_pow p in
  ("asetrate=44100*" ++ show show_fraction ratio) ::
  "aresample=44100" ::
  (if JS.is_true (preserveFormants p)
   then [tempo_directive show_fraction (1 / ratio)%float]
   else []).

Definition is_tempo_directive (s : string) : bool := prefix "atempo=" s.

(** The mid-band equalizer directive. *)
Definition is_mid_band_directive (s : string) : bool :=
  prefix "equalizer=f=1000:" s.

(** What [applyAdvancedOperations] has pushed onto its array [filters] when
    it hands it to the command. *)
Definition advanced_filters (a : AdvancedEffectsOperation) : list string :=
  (match pitch a with
   | Some p => [buildPitchFilter show_fraction Math_pow p]
   | None => []
   end ++
   match tempo a with
   | Some t => [buildTempoFilter show_fraction t]
   | None => []
   end ++
   match spectral a with
   | Some s =>
       if JS.truthy_str (buildSpectralFilter show_fraction s)
       then [buildSpectralFilter show_fraction s]
       else []
   | None => []
   end ++
   match dynamics a with
   | Some d => buildDynamicsFilters show_fraction d
   | None => []
   end ++
   match spatial a with
   | Some s => buildSpatialFilters show_fraction s
   | None => []
   end ++
   match modulation a with
   | Some m => buildModulationFilters show_fraction m
   | None => []
   end)%list.

(** The indices of the layers whose round of the loop of
    [buildLayeringFilter] appends a section, that is, whose output
    [[processed i]] the graph produces. *)
Definition produced (inputFiles : list string) (l : LayeringOperation) : list nat :=
  filter (fun i => (i <? length inputFiles)%nat) (seq 0 (length (layers l))).

(** The indices of the streams the mix-down directive takes as inputs. *)
Definition mixed (l : LayeringOperation) : list nat :=
  seq 0 (length (layers l)).

End CompilerVocabulary.

(** [{ ...s, midCut: m }] *)
Definition with_midCut (s : SpectralOperation) (m : float) : SpectralOperation :=
  {| bassBoost := bassBoost s; trebleBoost := trebleBoost s; midCut := Some m;
     warmth := warmth s; brightness := brightness s |}.

(** [{ semitones, cents, preserveFormants }] *)
Definition a_pitch (st : float) (c : option float) (pf : option bool) : PitchOperation :=
  {| semitones := st; cents := c; preserveFormants := pf |}.

Section QueueVocabulary.

Context {World A : Type}.

(** [good i a]: [a] is a fit value for the promise submitted [i]-th. *)
Variable good : nat -> A -> Prop.

(** A task that settles its promise with a fit value, whenever it runs. *)
Definition fulfils (i : nat) (task : IO World A) : Prop :=
  forall w, exists a w', task w = (Returned a, w') /\ good i a.

(** The slots filled so far are fit, and the empty ones wait for a task
    that is still pending. *)
Definition slots_wait_for (pending : list (nat * IO World A))
    (slots : list (option A)) : Prop :=
  forall j,
    match nth_error slots j with
    | Some (Some a) => good j a
    | Some None => In j (map fst pending)
    | None => True
    end.

End QueueVocabulary.

(** A [Math.pow] for the examples, right on the exponents 0 and 1, where
    the power needs no rounding, and [NaN] on every other exponent. *)
Definition pow_exact_cases (base exponent : float) : float :=
  if (exponent =? 0)%float then 1%float
  else if (exponent =? 1)%float then base
  else nan.

(** The pitch shift some operations carry, and a result's operations. *)
Definition pitch_shift_of_ops (ops : AudioOperations) : option float :=
  match advanced ops with
  | Some a => match pitch a with Some p => Some (semitones p) | None => None end
  | None => None
  end.

Definition pitch_shift_of (r : ProcessingResult) : option float :=
  pitch_shift_of_ops (operations r).

(** A printer for examples, which never meets a fraction. *)
Definition no_fraction (x : float) : string := "?".

Section RunnerVocabulary.

Context {World : Type} (host : Host World).
Variable applyOperationsToCommand : AudioOperations -> Cmd unit.

Local Open Scope io_scope.

(** The steps of a job up to its terminal state: validate the input,
    prepare the output, compile, execute. *)
Definition job_steps (inputFile outputFile : string)
    (operations : AudioOperations) (overwrite : bool) : IO World unit :=
  validateInputFile host inputFile ;;
  ensureOutputDirectory host outputFile ;;
  handleExistingOutput host outputFile overwrite ;;
  executeFFmpegCommand host inputFile
    (compiled applyOperationsToCommand operations) outputFile.

End RunnerVocabulary.

(** ** A small host to run the model on examples

    The world is a clock, the values [Math.random()] is going to return, and
    the files that exist.  Every access takes a millisecond, the engine takes
    ten and always ends well, glob finds every file there is, and paths are
    split at the last slash and the last dot. *)
Module Sample.

Record World := {
  clock : Z;
  randoms : list float;
  files : list string
}.

Definition tick (d : Z) (w : World) : World :=
  {| clock := clock w + d; randoms := randoms w; files := files w |}.

Definition exists_ (p : string) (w : World) : bool :=
  existsb (String.eqb p) (files w).

Definition ENOENT (p : string) : Thrown :=
  ThrownError {| is_FFmpegError := false;
                 message := "ENOENT: no such file or directory, " ++ p;
                 code := Some "ENOENT" |}.

Definition access (p : string) : IO World unit :=
  fun w => if exists_ p w then (Returned tt, tick 1 w)
           else (Threw (ENOENT p), tick 1 w).

Definition stat_isFile (p : string) : IO World bool :=
  fun w => if exists_ p w then (Returned true, tick 1 w)
           else (Threw (ENOENT p), tick 1 w).

Definition directory_ok (p : string) : IO World unit :=
  fun w => (Returned tt, tick 1 w).

Definition next_random (w : World) : float * World :=
  match randoms w with
  | [] => (0.5%float, w)
  | r :: rest => (r, {| clock := clock w; randoms := rest; files := files w |})
  end.

Definition run (input : string) (command : CmdState) (output : string)
    (w : World) : option string * World :=
  (None, {| clock := clock w + 10; randoms := randoms w;
            files := output :: files w |}).

(** The part of [s] before and after the last occurrence of [c]. *)
Fixpoint split_last (c : ascii) (s : string) : option (string * string) :=
  match s with
  | EmptyString => None
  | String a rest =>
      match split_last c rest with
      | Some (before, after) => Some (String a before, after)
      | None => if Ascii.eqb a c then Some (EmptyString, rest) else None
      end
  end.

Definition dirname (p : string) : string :=
  match split_last "/" p with Some (d, _) => d | None => "." end.

Definition basename (p : string) : string :=
  match split_last "/" p with Some (_, b) => b | None => p end.

Definition extname (p : string) : string :=
  match split_last "." (basename p) with
  | Some (_, e) => "." ++ e
  | None => ""
  end.

Definition name (p : string) : string :=
  match split_last "." (basename p) with
  | Some (n, _) => n
  | None => basename p
  end.

Definition host : Host World := {|
  Date_now := clock;
  Math_random := next_random;
  fs_stat_isFile := stat_isFile;
  fs_access := access;
  fs_access_R_OK := access;
  fs_access_W_OK := directory_ok;
  fs_mkdir_recursive := directory_ok;
  glob := fun _ w => (Returned (files w), tick 1 w);
  engine_run := run;
  path_dirname := dirname;
  path_join := fun a b => a ++ "/" ++ b;
  path_extname := extname;
  path_basename := basename;
  path_basename_ext := fun p _ => name p;
  path_relative := fun _ p => basename p;
  path_parse_name := name
|}.

(** [{ bassBoost: 4, midCut: -2, warmth: 0.4 }], of the preset
    deep-mechanical *)
Definition deep_mechanical_spectral : SpectralOperation :=
  {| bassBoost := Some 4%float; trebleBoost := None; midCut := Some (-2)%float;
     warmth := Some 0.4%float; brightness := None |}.

(** [{ blend }], a layer with no processing of its own *)
Definition plain_layer (b : Blend) : Layer :=
  {| blend := b; layer_delay := None; layer_pitch := None;
     layer_volume := None; layer_pan := None |}.

(** One input file and two layers:
    [layerSounds(['a.wav'], out, { layers: [{ blend: 'mix' }, { blend: 'add' }] })] *)
Definition one_input : list string := ["a.wav"].

Definition two_layers : LayeringOperation :=
  {| layers := [plain_layer mix; plain_layer add] |}.

(** A world with no file at all, and one with two audio files; the batch
    reads the directory [in] and writes to the directory [out]. *)
Definition empty_world : World :=
  {| clock := 0; randoms := []; files := [] |}.

Definition two_files : World :=
  {| clock := 0; randoms := []; files := ["in/a.wav"; "in/b.wav"] |}.

Definition from_in : ProcessingInput :=
  {| in_file := None; in_directory := Some "in"; in_pattern := None |}.

Definition to_out : ProcessingOutput :=
  {| out_file := None; out_directory := Some "out"; out_suffix := None;
     out_format := None |}.

(** What the tool [generate_variations] builds from
    [{ count: 2, seed: 0 }]:
    [{ count: 2, pitchRange: 2, volumeRange: 3, spectralRange: 2, seed: 0 }] *)
Definition seed_zero : VariationOperation :=
  {| count := 2; pitchRange := Some 2%float; volumeRange := Some 3%float;
     timingRange := None; spectralRange := Some 2%float;
     seed := Some 0%float |}.

(** Two worlds that differ in what [Math.random()] returns next only. *)
Definition random_quarter : World :=
  {| clock := 0; randoms := [0.25%float]; files := ["in/a.wav"] |}.

Definition random_half : World :=
  {| clock := 0; randoms := [0.5%float]; files := ["in/a.wav"] |}.

Definition empty_ops : AudioOperations :=
  {| volume := None; format := None; effects := None; advanced := None |}.

(** [{ volume: { normalize: true, targetLUFS: 0 } }] *)
Definition volume_to_zero : VolumeOperation :=
  {| adjust := None; normalize := Some true; targetLUFS := Some 0%float |}.

Definition normalize_to_zero : AudioOperations :=
  {| volume := Some volume_to_zero; format := None; effects := None;
     advanced := None |}.

(** The operations of two more integration tests:
    [{ volume: { adjust: -3, normalize: true, targetLUFS: -20 } }] and
    [{ format: { sampleRate: 44100, bitrate: 192, channels: 2, codec: 'mp3' } }] *)
Definition volume_of_the_test : AudioOperations :=
  {| volume := Some {| adjust := Some (-3)%float; normalize := Some true;
                       targetLUFS := Some (-20)%float |};
     format := None; effects := None; advanced := None |}.

Definition format_of_the_test : AudioOperations :=
  {| volume := None;
     format := Some {| sampleRate := Some 44100%float; bitrate := Some 192%float;
                       channels := Some 2%float; codec := Some "mp3" |};
     effects := None; advanced := None |}.

(** [{ effects: { loop: { enabled: true, count: 3 } } }] *)
Definition loop_only : AudioOperations :=
  {| volume := None; format := None;
     effects := Some {| fadeIn := None; fadeOut := None; trim := None;
                        loop := Some {| enabled := true; loop_count := 3 |} |};
     advanced := None |}.

(** The operations of the integration test of the effects:
    [{ effects: { fadeIn: 1, fadeOut: 2, trim: { start: 5, end: 15 },
                  loop: { enabled: true, count: 3 } } }] *)
Definition effects_of_the_test : AudioOperations :=
  {| volume := None; format := None;
     effects := Some {| fadeIn := Some 1%float; fadeOut := Some 2%float;
                        trim := Some {| trim_start := 5; trim_end := 15 |};
                        loop := Some {| enabled := true; loop_count := 3 |} |};
     advanced := None |}.

End Sample.

(* ===================================================================== *)
(** * AdvancedAudioProcessor: layering and harmonics *)
(* ===================================================================== *)

(** The command [layerSounds] builds: [ffmpeg()] with one [input] per file
    and the graph given to [complexFilter]. *)
Record LayerCommand := {
  layer_inputs : list string;
  layer_graph : string
}.

(** [{ advanced: { layering } }] *)
Definition layering_ops (layering : LayeringOperation) : AudioOperations :=
  {| volume := None; format := None; effects := None;
     advanced :=
       Some {| pitch := None; tempo := None; harmonics := None;
               spectral := None; dynamics := None; spatial := None;
               envelope := None; modulation := None; variations := None;
               layering := Some layering |} |}.

(** One row of the table [harmonicIntervals]. *)
Record Interval := {
  interval_name : string;
  interval_semitones : float;
  interval_mix : option float
}.

Definition harmonicIntervals (h : HarmonicsOperation) : list Interval :=
  [{| interval_name := "octave_up"; interval_semitones := 12;
      interval_mix := octaveUp h |};
   {| interval_name := "octave_down"; interval_semitones := -12;
      interval_mix := octaveDown h |};
   {| interval_name := "fifth_up"; interval_semitones := 7;
      interval_mix := fifthUp h |};
   {| interval_name := "third_up"; interval_semitones := 4;
      interval_mix := thirdUp h |}].

(** [interval.mix && interval.mix > 0]: the mix the body of the loop runs
    with, if it runs. *)
Definition positive_mix (m : option float) : option float :=
  match m with
  | Some x => if JS.truthy x && (0 <? x)%float then Some x else None
  | None => None
  end.

(** The operations [createHarmonicVariations] builds for an interval of
    [st] semitones mixed at [m]. *)
Definition harmonic_ops (st m : float) : AudioOperations :=
  {| volume := None; format := None; effects := None;
     advanced :=
       Some {| pitch := Some {| semitones := st; cents := None;
                                preserveFormants := None |};
               tempo := None; harmonics := None; spectral := None;
               dynamics := None; spatial := None; envelope := None;
               modulation := None; variations := None;
               layering :=
                 Some {| layers :=
                   [{| blend := mix; layer_delay := None; layer_pitch := None;
                       layer_volume := Some (1 - m)%float; layer_pan := None |};
                    {| blend := add; layer_delay := None;
                       layer_pitch := Some st;
                       layer_volume := Some m; layer_pan := None |}] |} |} |}.

Section AdvancedProcessor.

Context {World : Type} (host : Host World).

Variable show_fraction : float -> string.
Variable Math_pow : float -> float -> float.

(** Running the engine on a layering command for an output: it ends
    ([None]) or it reports an error ([Some message]). *)
Variable engine_run_layers : LayerCommand -> string -> World -> option string * World.

Local Open Scope io_scope.

(** [executeFFmpegCommand] on the command of [layerSounds]. *)
Definition executeLayerCommand (command : LayerCommand) (outputPath : string)
  : IO World unit :=
  fun w =>
    match engine_run_layers command outputPath w with
    | (None, w') => (Returned tt, w')
    | (Some err, w') =>
        (Threw (FFmpegError ("FFmpeg processing failed: " ++ err)), w')
    end.

(** [for (const file of inputFiles) { await validateInputFile(file); }] *)
Fixpoint validate_each (inputFiles : list string) : IO World unit :=
  match inputFiles with
  | [] => ret tt
  | file :: rest => validateInputFile host file ;; validate_each rest
  end.

(** [AdvancedAudioProcessor.layerSounds] *)
Definition layerSounds (inputFiles : list string) (outputFile : string)
    (layering : LayeringOperation) (overwrite : bool)
  : IO World ProcessingResult :=
  startTime <- now host ;;
  try_catch (
    (if (length inputFiles =? 0)%nat
     then throw (FFmpegError "No input files provided for layering")
     else ret tt) ;;
    validate_each inputFiles ;;
    ensureOutputDirectory host outputFile ;;
    handleExistingOutput host outputFile overwrite ;;
    let filterGraph := buildLayeringFilter show_fraction Math_pow inputFiles layering in
    let command := {| layer_inputs := inputFiles; layer_graph := filterGraph |} in
    executeLayerCommand command outputFile ;;
    t <- now host ;;
    ret {| success := true;
           inputFile := join ", " inputFiles;
           outputFile := outputFile;
           processingTime := (t - startTime)%Z;
           operations := layering_ops layering;
           error := None |})
  (fun error =>
    t <- now host ;;
    ret {| success := false;
           inputFile := join ", " inputFiles;
           outputFile := outputFile;
           processingTime := (t - startTime)%Z;
           operations := layering_ops layering;
           error := Some (error_text error) |}).

(** The processor's own compiler. *)
Definition advanced_compiler : AudioOperations -> Cmd unit :=
  advanced_applyOperationsToCommand show_fraction Math_pow.

(** The loop of [createHarmonicVariations] over the rows of the table. *)
Fixpoint harmonics_loop (inputFile outputDirectory : string) (overwrite : bool)
    (intervals : list Interval) : IO World (list ProcessingResult) :=
  match intervals with
  | [] => ret []
  | interval :: rest =>
      match positive_mix (interval_mix interval) with
      | Some m =>
          let baseName := path_parse_name host inputFile in
          let outputFile :=
            path_join host outputDirectory
              (baseName ++ "_" ++ interval_name interval ++
               path_extname host inputFile) in
          let operations := harmonic_ops (interval_semitones interval) m in
          result <- processAudioFile host advanced_compiler inputFile outputFile
                                     operations overwrite ;;
          results <- harmonics_loop inputFile outputDirectory overwrite rest ;;
          ret (result :: results)
      | None => harmonics_loop inputFile outputDirectory overwrite rest
      end
  end.

(** [AdvancedAudioProcessor.createHarmonicVariations] *)
Definition createHarmonicVariations (inputFile outputDirectory : string)
    (harmonics : HarmonicsOperation) (overwrite : bool)
  : IO World (list ProcessingResult) :=
  harmonics_loop inputFile outputDirectory overwrite (harmonicIntervals harmonics).

End AdvancedProcessor.

(* ===================================================================== *)
(** * More vocabulary and examples *)
(* ===================================================================== *)

(** What is thrown is an [FFmpegError]. *)
Definition thrown_FFmpegError (t : Thrown) : Prop :=
  match t with
  | ThrownError e => is_FFmpegError e = true
  | ThrownValue => False
  end.

(** The kinds of calls: a filter call, a format setting. *)
Definition is_filter_call (c : Call) : Prop :=
  match c with audioFilters _ => True | _ => False end.

Definition is_format_call (c : Call) : Prop :=
  match c with
  | audioFrequency _ | audioChannels _ | audioCodec _ | audioBitrate _ => True
  | _ => False
  end.

(** The directive of the delay feedback. *)
Definition is_feedback_directive (s : string) : bool := prefix "afeedback=" s.

(** No field of the spectral operation is present. *)
Definition no_band (s : SpectralOperation) : Prop :=
  bassBoost s = None /\ trebleBoost s = None /\ midCut s = None /\
  warmth s = None /\ brightness s = None.

(** [{ ...a, harmonics, envelope, variations, layering }] *)
Definition with_uncompiled_fields (a : AdvancedEffectsOperation)
    (h : option HarmonicsOperation) (e : option EnvelopeOperation)
    (v : option VariationOperation) (l : option LayeringOperation)
  : AdvancedEffectsOperation :=
  {| pitch := pitch a; tempo := tempo a; harmonics := h; spectral := spectral a;
     dynamics := dynamics a; spatial := spatial a; envelope := e;
     modulation := modulation a; variations := v; layering := l |}.

(** [{ ...ops, advanced }] and [{ ...ops, format }] *)
Definition with_advanced (ops : AudioOperations)
    (a : option AdvancedEffectsOperation) : AudioOperations :=
  {| volume := volume ops; format := format ops; effects := effects ops;
     advanced := a |}.

Definition with_format (ops : AudioOperations) (f : option FormatOperation)
  : AudioOperations :=
  {| volume := volume ops; format := f; effects := effects ops;
     advanced := advanced ops |}.

(** [{ ...v, volumeRange, timingRange }] *)
Definition with_ranges (v : VariationOperation)
    (volumeRange' timingRange' : option float) : VariationOperation :=
  {| count := count v; pitchRange := pitchRange v; volumeRange := volumeRange';
     timingRange := timingRange'; spectralRange := spectralRange v;
     seed := seed v |}.

(** [{ ...v, seed }] *)
Definition with_seed (v : VariationOperation) (s : option float)
  : VariationOperation :=
  {| count := count v; pitchRange := pitchRange v; volumeRange := volumeRange v;
     timingRange := timingRange v; spectralRange := spectralRange v;
     seed := s |}.

(** The name of the [n]-th variation of a file. *)
Definition variation_path {World : Type} (host : Host World)
    (inputFile outputDirectory : string) (n : nat) : string :=
  path_join host outputDirectory
    (path_parse_name host inputFile ++ "_var" ++ JS.string_of_nat n ++
     path_extname host inputFile).

(** The name of the output of a harmonic interval of a file. *)
Definition harmonic_path {World : Type} (host : Host World)
    (inputFile outputDirectory : string) (interval : Interval) : string :=
  path_join host outputDirectory
    (path_parse_name host inputFile ++ "_" ++ interval_name interval ++
     path_extname host inputFile).

(** The rows of the table whose mix is above zero, with that mix. *)
Fixpoint audible (intervals : list Interval) : list (Interval * float) :=
  match intervals with
  | [] => []
  | interval :: rest =>
      match positive_mix (interval_mix interval) with
      | Some m => (interval, m) :: audible rest
      | None => audible rest
      end
  end.

Module MoreSamples.

(** The layering engine of the examples: it takes ten milliseconds and ends
    well. *)
Definition run_layers (command : LayerCommand) (output : string)
    (w : Sample.World) : option string * Sample.World :=
  (None, {| Sample.clock := Sample.clock w + 10; Sample.randoms := Sample.randoms w;
            Sample.files := output :: Sample.files w |}).

(** A world where the output of the job already exists. *)
Definition output_exists : Sample.World :=
  {| Sample.clock := 0; Sample.randoms := [];
     Sample.files := ["in/a.wav"; "out/a.wav"] |}.

(** A world with one audio file. *)
Definition one_file : Sample.World :=
  {| Sample.clock := 0; Sample.randoms := []; Sample.files := ["in/a.wav"] |}.

(** [{ octaveUp: 0.5, octaveDown: 0, thirdUp: 0.25 }] *)
Definition some_harmonics : HarmonicsOperation :=
  {| octaveUp := Some 0.5%float; octaveDown := Some 0%float; fifthUp := None;
     thirdUp := Some 0.25%float |}.

(** [{ delayTime: 150, delayFeedback: 0 }] *)
Definition delay_without_feedback : SpatialOperation :=
  {| stereoWidth := None; panPosition := None; reverbSend := None;
     delayTime := Some 150%float; delayFeedback := Some 0%float |}.

(** [{ trim: { start: 5, end: 15 } }] *)
Definition trimmed : AudioOperations :=
  {| volume := None; format := None;
     effects := Some {| fadeIn := None; fadeOut := None;
                        trim := Some {| trim_start := 5; trim_end := 15 |};
                        loop := None |};
     advanced := None |}.

(** [{ count: 3, pitchRange: 2, seed: 42 }] *)
Definition three_variations : VariationOperation :=
  {| count := 3; pitchRange := Some 2%float; volumeRange := None;
     timingRange := None; spectralRange := None; seed := Some 42%float |}.

(** A host whose engine always reports an error. *)
Definition failing_host : Host Sample.World := {|
  Date_now := Sample.clock;
  Math_random := Sample.next_random;
  fs_stat_isFile := Sample.stat_isFile;
  fs_access := Sample.access;
  fs_access_R_OK := Sample.access;
  fs_access_W_OK := Sample.directory_ok;
  fs_mkdir_recursive := Sample.directory_ok;
  glob := fun _ w => (Returned (Sample.files w), Sample.tick 1 w);
  engine_run := fun _ _ _ w => (Some "Invalid data found", Sample.tick 10 w);
  path_dirname := Sample.dirname;
  path_join := fun a b => a ++ "/" ++ b;
  path_extname := Sample.extname;
  path_basename := Sample.basename;
  path_basename_ext := fun p _ => Sample.name p;
  path_relative := fun _ p => Sample.basename p;
  path_parse_name := Sample.name
|}.

(** [{ file: 'in/a.wav', directory: 'in' }] *)
Definition just_a : ProcessingInput :=
  {| in_file := Some "in/a.wav"; in_directory := Some "in";
     in_pattern := None |}.

(** The world [w] when its clock shows [t]. *)
Definition at_time (t : Z) (w : Sample.World) : Sample.World :=
  {| Sample.clock := t; Sample.randoms := Sample.randoms w;
     Sample.files := Sample.files w |}.

End MoreSamples.

(* ===================================================================== *)
(** * The command log: how compilations compose *)
(* ===================================================================== *)

Lemma append_assoc (a b c : string) : (a ++ b) ++ c = a ++ (b ++ c).
Proof. induction a; simpl; congruence. Qed.

(** Breaks [H : In s l], for a list [l] built from singletons, into the
    cases of its elements. *)
Ltac element_of H :=
  repeat match type of H with
  | In _ (_ ++ _)%list => apply in_app_or in H; destruct H as [H | H]
  | In _ (List.concat _) => cbn [List.concat] in H
  | In _ (match ?o with Some _ => _ | None => _ end) => destruct o; cbn [In] in H
  | In _ (if ?b then _ else _) => destruct b; cbn [In] in H
  | In _ [] => destruct H
  | In _ (_ :: _) => destruct H as [<- | H]
  | _ \/ _ => destruct H as [<- | H]
  | False => destruct H
  end.

Lemma emits_ret : emits (cret tt) [].
Proof.
  intros [cs arrs]. unfold cret. simpl. now rewrite app_nil_r.
Qed.

Lemma emits_call (c : Call) : emits (call c) [c].
Proof. intros st. reflexivity. Qed.

Lemma emits_seq (m1 m2 : Cmd unit) (cs1 cs2 : list Call) :
  emits m1 cs1 -> emits m2 cs2 ->
  emits (cbind m1 (fun _ => m2)) (cs1 ++ cs2).
Proof.
  intros H1 H2 st. unfold cbind. rewrite H1, H2. simpl.
  now rewrite app_assoc.
Qed.

Lemma emits_when (c : bool) (m : Cmd unit) (cs : list Call) :
  emits m cs -> emits (when c m) (if c then cs else []).
Proof.
  intros H. destruct c; simpl; [exact H | exact emits_ret].
Qed.

Lemma nth_last {A} (l : list A) (x d : A) : nth (length l) (l ++ [x]) d = x.
Proof. induction l; simpl; auto. Qed.

Lemma update_nth_last {A} (f : A -> A) (l : list A) (x : A) :
  update_nth (length l) f (l ++ [x]) = (l ++ [f x])%list.
Proof. induction l; simpl; congruence. Qed.

Lemma push_last (cs : list Call) (arrs : list (list string)) (a items : list string) :
  push (length arrs) items {| calls := cs; arrays := (arrs ++ [a])%list |}
  = (tt, {| calls := cs; arrays := (arrs ++ [a ++ items])%list |}).
Proof. unfold push. simpl. now rewrite update_nth_last. Qed.

Lemma read_last (cs : list Call) (arrs : list (list string)) (a : list string) :
  read_array (length arrs) {| calls := cs; arrays := (arrs ++ [a])%list |} = a.
Proof. unfold read_array. simpl. apply nth_last. Qed.

Lemma appends_ret (r : ArrayRef) : appends r (cret tt) [].
Proof. intros cs arrs a _. unfold cret. now rewrite app_nil_r. Qed.

Lemma appends_push (r : ArrayRef) (items : list string) :
  appends r (push r items) items.
Proof. intros cs arrs a ->. apply push_last. Qed.

Lemma appends_seq (r : ArrayRef) (m1 m2 : Cmd unit) (i1 i2 : list string) :
  appends r m1 i1 -> appends r m2 i2 ->
  appends r (cbind m1 (fun _ => m2)) (i1 ++ i2).
Proof.
  intros H1 H2 cs arrs a Hr. unfold cbind.
  rewrite (H1 _ _ _ Hr), (H2 _ _ _ Hr). now rewrite app_assoc.
Qed.

Section CompilerFacts.

Variable show_fraction : float -> string.

Lemma apply_volume_emits (v : VolumeOperation) :
  emits (apply_volume show_fraction v) (volume_calls show_fraction v).
Proof.
  unfold apply_volume, volume_calls.
  apply emits_seq.
  - destruct (adjust v); [apply emits_call | apply emits_ret].
  - apply emits_when, emits_call.
Qed.

Lemma apply_format_emits (f : FormatOperation) :
  emits (apply_format show_fraction f) (format_calls show_fraction f).
Proof.
  unfold apply_format, format_calls, JS.truthy_value, JS.truthy_string.
  repeat apply emits_seq.
  - destruct (sampleRate f) as [hz|]; simpl; [|apply emits_ret].
    destruct (JS.truthy hz); simpl; [apply emits_call | apply emits_ret].
  - destruct (channels f) as [n|]; simpl; [|apply emits_ret].
    destruct (JS.truthy n); simpl; [apply emits_call | apply emits_ret].
  - destruct (codec f) as [c|]; simpl; [|apply emits_ret].
    destruct (JS.truthy_str c); simpl; [apply emits_call | apply emits_ret].
  - destruct (bitrate f) as [b|]; simpl; [|apply emits_ret].
    destruct (JS.truthy b); simpl; [apply emits_call | apply emits_ret].
Qed.

(** The [effects] block in one step: it allocates its array, hands the
    fades to the command if there are any, and only then pushes the loop
    directive onto the array. *)
Lemma apply_effects_run (e : EffectsOperation) (st : CmdState) :
  apply_effects show_fraction e st =
  (length (arrays st),
   {| calls := (calls st ++ effects_calls show_fraction (length (arrays st)) e)%list;
      arrays := (arrays st ++ [fades show_fraction e ++ loop_items show_fraction e])%list |}).
Proof.
  destruct st as [cs arrs].
  unfold apply_effects, effects_calls, fades, trim_calls, loop_items,
    new_array, array_length, call_audioFilters_array, cbind.
  cbn [calls arrays].
  destruct e as [[d|] [t|] [[a b]|] [[en n]|]]; cbn -[push read_array String.append];
    repeat (rewrite ?push_last, ?read_last; cbn -[push read_array String.append]);
    repeat match goal with
    | |- context [(?x <? ?y)%float] => destruct (x <? y)%float
    | |- context [if ?b then _ else _] => destruct b
    end;
    cbn -[push read_array String.append];
    repeat (rewrite ?push_last, ?read_last; cbn -[push read_array String.append]);
    rewrite <- ?app_assoc, ?app_nil_r; cbn -[String.append]; try reflexivity.
Qed.

(** The base compiler in one step. *)
Lemma base_run (ops : AudioOperations) (st : CmdState) :
  base_applyOperationsToCommand show_fraction ops st =
  (tt,
   {| calls :=
        (calls st ++
         opt_calls (volume_calls show_fraction) (volume ops) ++
         opt_calls (format_calls show_fraction) (format ops) ++
         opt_calls (effects_calls show_fraction (length (arrays st))) (effects ops))%list;
      arrays :=
        (arrays st ++
         match effects ops with
         | Some e => [fades show_fraction e ++ loop_items show_fraction e]
         | None => []
         end)%list |}).
Proof.
  unfold base_applyOperationsToCommand, cbind.
  assert (Hv : emits (when_some (volume ops) (apply_volume show_fraction))
                     (opt_calls (volume_calls show_fraction) (volume ops))).
  { destruct (volume ops); simpl; [apply apply_volume_emits | apply emits_ret]. }
  assert (Hf : emits (when_some (format ops) (apply_format show_fraction))
                     (opt_calls (format_calls show_fraction) (format ops))).
  { destruct (format ops); simpl; [apply apply_format_emits | apply emits_ret]. }
  rewrite Hv, Hf. cbn [calls arrays].
  destruct (effects ops) as [e|]; simpl.
  - unfold cbind. rewrite apply_effects_run. cbn [calls arrays cret].
    now rewrite <- !app_assoc.
  - unfold cret. now rewrite !app_nil_r, <- app_assoc.
Qed.

Lemma base_compiled (ops : AudioOperations) :
  compiled (base_applyOperationsToCommand show_fraction) ops =
  {| calls :=
       (opt_calls (volume_calls show_fraction) (volume ops) ++
        opt_calls (format_calls show_fraction) (format ops) ++
        opt_calls (effects_calls show_fraction 0) (effects ops))%list;
     arrays :=
       match effects ops with
       | Some e => [(fades show_fraction e ++ loop_items show_fraction e)%list]
       | None => []
       end |}.
Proof. unfold compiled. now rewrite base_run. Qed.

Lemma format_calls_no_filter (f : FormatOperation) :
  flat_map filters_of_call (format_calls show_fraction f) = [].
Proof.
  unfold format_calls.
  destruct (JS.truthy_value (sampleRate f)), (JS.truthy_value (channels f)),
    (JS.truthy_string (codec f)), (JS.truthy_value (bitrate f)); reflexivity.
Qed.

Lemma trim_calls_no_filter (e : EffectsOperation) :
  flat_map filters_of_call (trim_calls e) = [].
Proof.
  unfold trim_calls. destruct (trim e) as [t|]; [|reflexivity].
  simpl. now destruct (trim_start t <? trim_end t)%float.
Qed.

Lemma hand_over_filters (r : ArrayRef) (items : list string) :
  flat_map filters_of_call (hand_over r items) = items.
Proof. destruct items; simpl; [reflexivity | now rewrite app_nil_r]. Qed.

(** The filter list the base compiler leaves in the command: the volume
    filters, then the fades. *)
Lemma base_command_filters (ops : AudioOperations) :
  command_filters (compiled (base_applyOperationsToCommand show_fraction) ops) =
  (match volume ops with Some v => volume_filters show_fraction v | None => [] end ++
   match effects ops with Some e => fades show_fraction e | None => [] end)%list.
Proof.
  rewrite base_compiled. unfold command_filters. cbn [calls].
  rewrite !flat_map_app.
  destruct (volume ops) as [v|], (format ops) as [f|], (effects ops) as [e|];
    cbn [opt_calls]; unfold effects_calls;
    rewrite ?flat_map_app, ?format_calls_no_filter, ?trim_calls_no_filter,
      ?hand_over_filters; simpl; rewrite ?app_nil_r; reflexivity.
Qed.

Lemma is_true_iff (b : option bool) : JS.is_true b = true <-> b = Some true.
Proof. destruct b as [[|]|]; simpl; split; congruence. Qed.

(** The filters the base compiler leaves in the command are those of the
    gain, the normalization and the two fades, and no other. *)
Lemma base_command_filter_iff (ops : AudioOperations) (s : string) :
  In s (command_filters (compiled (base_applyOperationsToCommand show_fraction) ops))
  <-> base_filter show_fraction ops s.
Proof.
  rewrite base_command_filters. unfold volume_filters, volume_calls, fades.
  split.
  - intros H. apply in_app_or in H. destruct H as [H | H].
    + destruct (volume ops) as [v|] eqn:Hv; [|contradiction].
      rewrite flat_map_app in H. apply in_app_or in H. destruct H as [H | H].
      * destruct (adjust v) as [a|] eqn:Ha; simpl in H; [|contradiction].
        destruct H as [<- | []]. now apply from_adjust with v.
      * destruct (JS.is_true (normalize v)) eqn:Hn; simpl in H; [|contradiction].
        destruct H as [<- | []]. apply from_normalize; [assumption |].
        now apply is_true_iff.
    + destruct (effects ops) as [e|] eqn:He; [|contradiction].
      apply in_app_or in H. destruct H as [H | H].
      * destruct (fadeIn e) as [d|] eqn:Hd; simpl in H; [|contradiction].
        destruct H as [<- | []]. now apply from_fadeIn with e.
      * destruct (fadeOut e) as [t|] eqn:Ht; simpl in H; [|contradiction].
        destruct H as [<- | []]. now apply from_fadeOut with e.
  - intros [v a Hv Ha | v Hv Hn | e d He Hd | e t He Ht].
    + rewrite Hv, Ha. apply in_or_app. left. now left.
    + rewrite Hv. apply is_true_iff in Hn. rewrite Hn.
      apply in_or_app. left. rewrite flat_map_app. apply in_or_app. right.
      now left.
    + rewrite He, Hd. apply in_or_app. right. now left.
    + rewrite He, Ht. apply in_or_app. right. apply in_or_app. right. now left.
Qed.

(** Whatever the operations, the filter list the base compiler leaves in
    the command holds no loop directive. *)
Lemma no_loop_directive_in_command (ops : AudioOperations) (s : string) :
  In s (command_filters (compiled (base_applyOperationsToCommand show_fraction) ops)) ->
  is_loop_directive s = false.
Proof.
  intros H. apply base_command_filter_iff in H. destruct H; reflexivity.
Qed.

Section Advanced.

Variable Math_pow : float -> float -> float.

Lemma push_advanced_filters_appends (r : ArrayRef) (a : AdvancedEffectsOperation) :
  appends r (push_advanced_filters show_fraction Math_pow r a)
            (advanced_filters show_fraction Math_pow a).
Proof.
  unfold push_advanced_filters, advanced_filters.
  repeat apply appends_seq.
  - destruct (pitch a); [apply appends_push | apply appends_ret].
  - destruct (tempo a); [apply appends_push | apply appends_ret].
  - destruct (spectral a) as [s|]; simpl; [|apply appends_ret].
    destruct (JS.truthy_str _); [apply appends_push | apply appends_ret].
  - destruct (dynamics a); [apply appends_push | apply appends_ret].
  - destruct (spatial a); [apply appends_push | apply appends_ret].
  - destruct (modulation a); [apply appends_push | apply appends_ret].
Qed.

(** [applyAdvancedOperations] in one step: it allocates its array, fills
    it, and hands it to the command if it is not empty. *)
Lemma applyAdvancedOperations_run (a : AdvancedEffectsOperation) (st : CmdState) :
  applyAdvancedOperations show_fraction Math_pow a st =
  (tt,
   {| calls := (calls st ++ hand_over (length (arrays st))
                              (advanced_filters show_fraction Math_pow a))%list;
      arrays := (arrays st ++ [advanced_filters show_fraction Math_pow a])%list |}).
Proof.
  destruct st as [cs arrs].
  unfold applyAdvancedOperations, cbind, new_array. cbn [calls arrays].
  rewrite (push_advanced_filters_appends _ a cs arrs [] eq_refl).
  cbn [app]. unfold array_length, call_audioFilters_array.
  rewrite read_last.
  destruct (advanced_filters show_fraction Math_pow a) as [|x items].
  - simpl. unfold cret. now rewrite app_nil_r.
  - simpl. unfold call. simpl. now rewrite read_last.
Qed.

(** The filter list the advanced compiler leaves in the command: the
    base filters, then the advanced ones. *)
Lemma advanced_command_filters (ops : AudioOperations) :
  command_filters
    (compiled (advanced_applyOperationsToCommand show_fraction Math_pow) ops) =
  (command_filters (compiled (base_applyOperationsToCommand show_fraction) ops) ++
   match advanced ops with
   | Some a => advanced_filters show_fraction Math_pow a
   | None => []
   end)%list.
Proof.
  unfold compiled at 1. unfold advanced_applyOperationsToCommand, cbind.
  rewrite base_run. rewrite base_compiled.
  destruct (advanced ops) as [a|]; simpl.
  - rewrite applyAdvancedOperations_run. unfold command_filters.
    cbn [calls arrays snd]. rewrite flat_map_app, hand_over_filters.
    reflexivity.
  - unfold command_filters. cbn [calls snd]. now rewrite app_nil_r.
Qed.

Lemma spectral_filter_not_loop (s : SpectralOperation) :
  is_loop_directive (buildSpectralFilter show_fraction s) = false.
Proof.
  unfold buildSpectralFilter, eqBands.
  destruct (bassBoost s), (trebleBoost s), (midCut s), (warmth s), (brightness s);
    reflexivity.
Qed.

(** Nor does the advanced compiler add one. *)
Lemma no_loop_directive_in_advanced_command (ops : AudioOperations) (s : string) :
  In s (command_filters
          (compiled (advanced_applyOperationsToCommand show_fraction Math_pow) ops)) ->
  is_loop_directive s = false.
Proof.
  rewrite advanced_command_filters. intros H.
  apply in_app_or in H. destruct H as [H | H];
    [now apply no_loop_directive_in_command in H |].
  destruct (advanced ops) as [a|]; [|destruct H].
  unfold advanced_filters, buildDynamicsFilters, buildSpatialFilters,
    buildModulationFilters in H.
  element_of H; try reflexivity; try apply spectral_filter_not_loop.
  - unfold buildPitchFilter. destruct (JS.is_true _); reflexivity.
  - unfold buildTempoFilter. destruct (JS.is_true _); reflexivity.
Qed.

End Advanced.

(** What the compiler does with a loop request: the directive, with
    [count - 1] repeats, is pushed onto the local array exactly when the
    loop is enabled and its count is above one. *)
Lemma loop_directive_on_local_array (ops : AudioOperations)
    (e : EffectsOperation) (l : Loop) :
  effects ops = Some e -> loop e = Some l ->
  let st := compiled (base_applyOperationsToCommand show_fraction) ops in
  read_array 0 st =
  (fades show_fraction e ++
   if enabled l && (1 <? loop_count l)%float
   then [loop_directive show_fraction (loop_count l - 1)%float]
   else [])%list.
Proof.
  intros He Hl. cbv zeta. rewrite base_compiled, He.
  unfold read_array, loop_items. simpl. now rewrite Hl.
Qed.

End CompilerFacts.

(* ===================================================================== *)
(** * The base compiler: loop, fades, loudness *)
(* ===================================================================== *)

(** On the operations of the integration tests of the volume and of the
    format, the compiler makes the calls the tests expect. *)
Lemma calls_the_tests_expect (show_fraction : float -> string) :
  calls (compiled (base_applyOperationsToCommand show_fraction)
                  Sample.volume_of_the_test) =
    [audioFilters (OneFilter "volume=-3dB");
     audioFilters (OneFilter "loudnorm=I=-20:LRA=7:tp=-2")] /\
  calls (compiled (base_applyOperationsToCommand show_fraction)
                  Sample.format_of_the_test) =
    [audioFrequency 44100; audioChannels 2; audioCodec "libmp3lame";
     audioBitrate "192k"].
Proof. split; reflexivity. Qed.

(** C2 (the code departs from the claim).  For
    [{ effects: { loop: { enabled: true, count: 3 } } }] the loop is
    requested and the directive with repeat parameter 2 is built and pushed
    onto the local array [filters], but the command is never called: its
    filter list is empty, whether the command copies its arguments or keeps
    them by reference.  The same holds with the advanced compiler. *)
Theorem C2_loop_directive_not_in_command
    (show_fraction : float -> string) (Math_pow : float -> float -> float) :
  let st := compiled (base_applyOperationsToCommand show_fraction) Sample.loop_only in
  let st' := compiled (advanced_applyOperationsToCommand show_fraction Math_pow)
                      Sample.loop_only in
  calls st = [] /\
  command_filters st = [] /\
  recorded_filters st = [] /\
  arrays st = [["aloop=loop=2:size=samples"]] /\
  st' = st.
Proof. cbv zeta. repeat split; reflexivity. Qed.

(** With the fades of the integration test in front, the command is handed
    the array before the loop directive is pushed: a command that copies its
    arguments holds the two fades only, and only an observer of the array
    itself sees the third element the test expects. *)
Lemma loop_after_hand_over (show_fraction : float -> string) :
  let st := compiled (base_applyOperationsToCommand show_fraction)
                     Sample.effects_of_the_test in
  command_filters st = ["afade=t=in:ss=0:d=1"; "afade=t=out:st=2:d=1"] /\
  recorded_filters st =
    ["afade=t=in:ss=0:d=1"; "afade=t=out:st=2:d=1"; "aloop=loop=2:size=samples"].
Proof. cbv zeta. split; reflexivity. Qed.

Section BaseCompilerClaims.

Variable show_fraction : float -> string.

Abbreviation show := (show show_fraction).
Abbreviation base := (base_applyOperationsToCommand show_fraction).

(** C8.  With [effects] present, the filter list of the compiled command
    holds, for a requested fade-in [d], the directive
    [afade=t=in:ss=0:d=<d>] (start 0, duration the requested value) and,
    for a requested fade-out [t], the directive [afade=t=out:st=<t>:d=1]
    (start the requested value, length the constant 1); and these are the
    only fade directives in it. *)
Theorem C8_fade_directives (ops : AudioOperations) (e : EffectsOperation) :
  effects ops = Some e ->
  let filters := command_filters (compiled base ops) in
  (forall d, fadeIn e = Some d ->
     In ("afade=t=in:ss=0:d=" ++ show d) filters) /\
  (forall s, In s filters -> is_fade_in_directive s = true ->
     exists d, fadeIn e = Some d /\ s = "afade=t=in:ss=0:d=" ++ show d) /\
  (forall t, fadeOut e = Some t ->
     In ("afade=t=out:st=" ++ show t ++ ":d=1") filters) /\
  (forall s, In s filters -> is_fade_out_directive s = true ->
     exists t, fadeOut e = Some t /\ s = "afade=t=out:st=" ++ show t ++ ":d=1").
Proof.
  intros He. cbv zeta. repeat split.
  - intros d Hd. apply base_command_filter_iff. now apply from_fadeIn with e.
  - intros s Hs Hin. apply base_command_filter_iff in Hs.
    destruct Hs as [| | e' d He' Hd |]; try discriminate.
    exists d. split; [congruence | reflexivity].
  - intros t Ht. apply base_command_filter_iff. now apply from_fadeOut with e.
  - intros s Hs Hout. apply base_command_filter_iff in Hs.
    destruct Hs as [| | | e' t He' Ht]; try discriminate.
    exists t. split; [congruence | reflexivity].
Qed.

(** The fallback of [targetLUFS || -23] never yields zero. *)
Lemma or_default_not_zero (x : option float) :
  is_zero (JS.or_default x (-23)%float) = false.
Proof.
  unfold JS.or_default, JS.truthy. destruct x as [v|]; [|reflexivity].
  destruct (is_zero v) eqn:Hz; simpl; [reflexivity |].
  destruct (is_nan v); simpl; [reflexivity | exact Hz].
Qed.

(** C9.  With [volume.normalize] true, the filter list of the compiled
    command holds exactly one loudness directive,
    [loudnorm=I=<target>:LRA=7:tp=-2], whose target is [targetLUFS || -23].
    When [targetLUFS] is absent or zero the directive is
    [loudnorm=I=-23:LRA=7:tp=-2]; when it is a number other than zero the
    directive is [loudnorm=I=<targetLUFS>:LRA=7:tp=-2], with that number
    unchanged; and the target is never zero. *)
Theorem C9_normalization_target (ops : AudioOperations) (v : VolumeOperation) :
  volume ops = Some v -> normalize v = Some true ->
  let filters := command_filters (compiled base ops) in
  let target := JS.or_default (targetLUFS v) (-23)%float in
  In ("loudnorm=I=" ++ show target ++ ":LRA=7:tp=-2") filters /\
  (forall s, In s filters -> is_loudnorm_directive s = true ->
     s = "loudnorm=I=" ++ show target ++ ":LRA=7:tp=-2") /\
  (targetLUFS v = None ->
     target = (-23)%float /\ In "loudnorm=I=-23:LRA=7:tp=-2" filters) /\
  (forall x, targetLUFS v = Some x -> is_zero x = true ->
     target = (-23)%float /\ In "loudnorm=I=-23:LRA=7:tp=-2" filters) /\
  (forall x, targetLUFS v = Some x -> is_zero x = false -> is_nan x = false ->
     target = x /\ In ("loudnorm=I=" ++ show x ++ ":LRA=7:tp=-2") filters) /\
  is_zero target = false /\
  "loudnorm=I=" ++ show (-23)%float ++ ":LRA=7:tp=-2" =
  "loudnorm=I=-23:LRA=7:tp=-2".
Proof.
  intros Hv Hn. cbv zeta.
  assert (Hin : In ("loudnorm=I=" ++
                    show (JS.or_default (targetLUFS v) (-23)%float) ++
                    ":LRA=7:tp=-2")
                   (command_filters (compiled base ops))).
  { apply base_command_filter_iff. now apply from_normalize. }
  split; [exact Hin |]. split; [|split; [|split; [|split; [|split]]]].
  - intros s Hs Hl. apply base_command_filter_iff in Hs.
    destruct Hs as [| v' Hv' _ | |]; try discriminate.
    assert (v' = v) by congruence. subst v'. reflexivity.
  - intros Hnone. rewrite Hnone in Hin |- *. split; [reflexivity | exact Hin].
  - intros x Hx Hz. rewrite Hx in Hin |- *.
    unfold JS.or_default, JS.truthy in Hin |- *. rewrite Hz in Hin |- *.
    split; [reflexivity | exact Hin].
  - intros x Hx Hz Hnan. rewrite Hx in Hin |- *.
    unfold JS.or_default, JS.truthy in Hin |- *.
    rewrite Hz, Hnan in Hin |- *. split; [reflexivity | exact Hin].
  - apply or_default_not_zero.
  - reflexivity.
Qed.

End BaseCompilerClaims.

(** C8 at [{ effects: { fadeIn: 1, fadeOut: 2, ... } }]. *)
Lemma C8_fade_directives_witness :
  effects Sample.effects_of_the_test =
    Some {| fadeIn := Some 1%float; fadeOut := Some 2%float;
            trim := Some {| trim_start := 5; trim_end := 15 |};
            loop := Some {| enabled := true; loop_count := 3 |} |} /\
  In "afade=t=out:st=2:d=1"
     (command_filters
        (compiled (base_applyOperationsToCommand no_fraction)
                  Sample.effects_of_the_test)).
Proof.
  split; [reflexivity |].
  exact (proj1 (proj2 (proj2
           (C8_fade_directives no_fraction Sample.effects_of_the_test _ eq_refl)))
         2%float eq_refl).
Defined.

(** C9 at [{ volume: { normalize: true, targetLUFS: 0 } }]: the directive
    asks for -23; and at [{ adjust: -3, normalize: true, targetLUFS: -20 }]:
    the directive asks for -20. *)
Lemma C9_normalization_target_witness :
  volume Sample.normalize_to_zero = Some Sample.volume_to_zero /\
  normalize Sample.volume_to_zero = Some true /\
  In "loudnorm=I=-23:LRA=7:tp=-2"
     (command_filters (compiled (base_applyOperationsToCommand no_fraction)
                                Sample.normalize_to_zero)) /\
  In "loudnorm=I=-20:LRA=7:tp=-2"
     (command_filters (compiled (base_applyOperationsToCommand no_fraction)
                                Sample.volume_of_the_test)).
Proof.
  split; [reflexivity | split; [reflexivity |]]. split.
  - exact (proj1 (C9_normalization_target no_fraction Sample.normalize_to_zero
                    Sample.volume_to_zero eq_refl eq_refl)).
  - exact (proj2 (proj1 (proj2 (proj2 (proj2 (proj2
             (C9_normalization_target no_fraction Sample.volume_of_the_test
                _ eq_refl eq_refl)))))
             (-20)%float eq_refl eq_refl eq_refl)).
Defined.

(* ===================================================================== *)
(** * The advanced compiler: pitch and mid cut *)
(* ===================================================================== *)

(** ** Two facts of binary64 arithmetic *)

Lemma Prim2SF_nan_is_nan (x : float) : Prim2SF x = S754_nan -> is_nan x = true.
Proof.
  unfold Prim2SF. destruct (is_nan x); [reflexivity |].
  destruct (is_zero x); [discriminate |].
  destruct (is_infinity x); [discriminate |].
  destruct (Z.frexp x) as [r exp].
  destruct (shr_fexp _ _ _ _ _) as [shr e'].
  destruct (shr_m shr); discriminate.
Qed.

Lemma abs_opp (x : float) : abs (- x) = abs x.
Proof.
  apply Prim2SF_inj. rewrite !abs_spec, opp_spec.
  now destruct (Prim2SF x).
Qed.

Lemma opp_abs_nonpositive (x : float) :
  is_nan x = false -> (- abs x <=? 0)%float = true.
Proof.
  intros Hnan. rewrite leb_spec, opp_spec, abs_spec.
  destruct (Prim2SF x) eqn:Hx; try reflexivity.
  apply Prim2SF_nan_is_nan in Hx. congruence.
Qed.

Section AdvancedCompilerClaims.

Variable show_fraction : float -> string.
Variable Math_pow : float -> float -> float.

Abbreviation show := (show show_fraction).
Abbreviation advanced_compiler :=
  (advanced_applyOperationsToCommand show_fraction Math_pow).

(** With a mid cut, the combined spectral expression is not empty, so it
    is pushed. *)
Lemma spectral_filter_not_empty (s : SpectralOperation) (m : float) :
  midCut s = Some m ->
  JS.truthy_str (buildSpectralFilter show_fraction s) = true.
Proof.
  intros Hm. unfold buildSpectralFilter, eqBands. rewrite Hm.
  destruct (bassBoost s), (trebleBoost s), (warmth s), (brightness s);
    reflexivity.
Qed.

Lemma in_advanced_filters_spectral (a : AdvancedEffectsOperation)
    (s : SpectralOperation) (m : float) :
  spectral a = Some s -> midCut s = Some m ->
  In (buildSpectralFilter show_fraction s)
     (advanced_filters show_fraction Math_pow a).
Proof.
  intros Hs Hm. unfold advanced_filters. rewrite Hs.
  rewrite (spectral_filter_not_empty s m Hm).
  apply in_or_app. right. apply in_or_app. right.
  apply in_or_app. left. now left.
Qed.

Lemma append_empty (a : string) : a ++ "" = a.
Proof. induction a; simpl; congruence. Qed.

(** A joined list, around one of its elements: what comes before it ends in
    the separator, what comes after it starts with the separator. *)
Lemma join_around (sep d : string) (l1 l2 : list string) :
  join sep (l1 ++ d :: l2)%list =
  (match l1 with [] => "" | _ => join sep l1 ++ sep end) ++ d ++
  (match l2 with [] => "" | _ => sep ++ join sep l2 end).
Proof.
  assert (Hcons : forall x l, l <> [] ->
            join sep (x :: l) = x ++ sep ++ join sep l).
  { intros x [|y l] Hl; [contradiction | reflexivity]. }
  induction l1 as [|x l1 IH].
  - destruct l2; [symmetry; apply append_empty | reflexivity].
  - cbn [app]. rewrite Hcons by (destruct l1; discriminate). rewrite IH.
    destruct l1 as [|z l1].
    + cbn [join]. now rewrite !append_assoc.
    + rewrite (Hcons x (z :: l1)) by discriminate.
      now rewrite !append_assoc.
Qed.

(** C10.  With [midCut] present, the spectral expression the compiler
    emits is the bands joined by commas, among them the mid-band directive
    [equalizer=f=1000:width=500:g=<gain>] with [gain = -|midCut|]: it stands
    in the expression between the bass and treble bands before it and the
    warmth and brightness bands after it, and it is the only mid-band
    directive; the gain is at most zero for every number; a mid cut of the
    opposite sign compiles to the same directive and the same expression;
    and the expression, with the directive in it, reaches the command. *)
Theorem C10_mid_cut_gain (s : SpectralOperation) (m : float) :
  midCut s = Some m ->
  let gain := (- JS.Math_abs m)%float in
  let directive := "equalizer=f=1000:width=500:g=" ++ show gain in
  let before :=
    (match bassBoost s with
     | Some b => [("bass=g=" ++ show b)%string]
     | None => []
     end ++
     match trebleBoost s with
     | Some t => [("treble=g=" ++ show t)%string]
     | None => []
     end)%list in
  let after :=
    (match warmth s with
     | Some w => [("equalizer=f=200:width=100:g=" ++ show (w * 3)%float)%string]
     | None => []
     end ++
     match brightness s with
     | Some b => [("equalizer=f=8000:width=2000:g=" ++ show (b * 4)%float)%string]
     | None => []
     end)%list in
  In directive (eqBands show_fraction s) /\
  (forall d, In d (eqBands show_fraction s) ->
     is_mid_band_directive d = true -> d = directive) /\
  buildSpectralFilter show_fraction s =
    String.concat "," (before ++ directive :: after)%list /\
  (exists front back,
     buildSpectralFilter show_fraction s = front ++ directive ++ back /\
     (front = "" \/ exists f, front = f ++ ",") /\
     (back = "" \/ exists b, back = "," ++ b)) /\
  (is_nan m = false -> (gain <=? 0)%float = true) /\
  "equalizer=f=1000:width=500:g=" ++ show (- JS.Math_abs (- m))%float =
    directive /\
  buildSpectralFilter show_fraction (with_midCut s (- m)) =
    buildSpectralFilter show_fraction s /\
  (forall ops a, advanced ops = Some a -> spectral a = Some s ->
     In (buildSpectralFilter show_fraction s)
        (command_filters (compiled advanced_compiler ops)) /\
     exists filter front back,
       In filter (command_filters (compiled advanced_compiler ops)) /\
       filter = front ++ directive ++ back).
Proof.
  intros Hm. cbv zeta. unfold JS.Math_abs.
  assert (Hbands : eqBands show_fraction s =
    ((match bassBoost s with
      | Some b => [("bass=g=" ++ show b)%string]
      | None => []
      end ++
      match trebleBoost s with
      | Some t => [("treble=g=" ++ show t)%string]
      | None => []
      end) ++
     ("equalizer=f=1000:width=500:g=" ++ show (- abs m)%float)%string ::
     (match warmth s with
      | Some w => [("equalizer=f=200:width=100:g=" ++ show (w * 3)%float)%string]
      | None => []
      end ++
      match brightness s with
      | Some b => [("equalizer=f=8000:width=2000:g=" ++ show (b * 4)%float)%string]
      | None => []
      end))%list).
  { unfold eqBands. rewrite Hm.
    destruct (bassBoost s), (trebleBoost s), (warmth s), (brightness s);
      reflexivity. }
  assert (Hjoin : forall l, join "," l = String.concat "," l).
  { induction l as [|x [|y l] IH]; [reflexivity | reflexivity |].
    change (join "," (x :: y :: l)) with (x ++ "," ++ join "," (y :: l)).
    now rewrite IH. }
  assert (Hparts : exists front back,
     buildSpectralFilter show_fraction s =
       front ++ ("equalizer=f=1000:width=500:g=" ++ show (- abs m)%float) ++ back /\
     (front = "" \/ exists f, front = f ++ ",") /\
     (back = "" \/ exists b, back = "," ++ b)).
  { unfold buildSpectralFilter. rewrite Hbands, join_around.
    eexists. eexists. split; [reflexivity |]. split.
    - match goal with
      | |- match ?l with [] => _ | _ :: _ => _ end = _ \/ _ => destruct l
      end; [now left | right; eexists; reflexivity].
    - match goal with
      | |- match ?l with [] => _ | _ :: _ => _ end = _ \/ _ => destruct l
      end; [now left | right; eexists; reflexivity]. }
  split; [|split; [|split; [|split; [|split; [|split; [|split]]]]]].
  - rewrite Hbands. apply in_or_app. right. now left.
  - intros d Hd Hmid. unfold eqBands in Hd. rewrite Hm in Hd.
    element_of Hd; try discriminate. reflexivity.
  - unfold buildSpectralFilter. now rewrite Hbands, Hjoin.
  - exact Hparts.
  - apply opp_abs_nonpositive.
  - now rewrite abs_opp.
  - unfold buildSpectralFilter, eqBands, with_midCut. cbn [bassBoost trebleBoost midCut warmth brightness].
    rewrite Hm. unfold JS.Math_abs. now rewrite abs_opp.
  - intros ops a Ha Hs.
    assert (Hin : In (buildSpectralFilter show_fraction s)
                     (command_filters (compiled advanced_compiler ops))).
    { rewrite advanced_command_filters, Ha.
      apply in_or_app. right. eapply in_advanced_filters_spectral; eauto. }
    split; [exact Hin |].
    destruct Hparts as (front & back & Heq & _).
    exists (buildSpectralFilter show_fraction s), front, back. now split.
Qed.

Lemma in_advanced_filters_pitch (a : AdvancedEffectsOperation) (p : PitchOperation) :
  pitch a = Some p ->
  In (buildPitchFilter show_fraction Math_pow p)
     (advanced_filters show_fraction Math_pow a).
Proof.
  intros Hp. unfold advanced_filters. rewrite Hp.
  apply in_or_app. left. now left.
Qed.

(** C7.  The pitch compiler computes [totalCents = semitones*100 + cents]
    (with 0 for absent cents) and [ratio = 2^(totalCents/1200)], and prints
    the chain [asetrate=44100*<ratio>], [aresample=44100], followed by
    [atempo=<1/ratio>] when [preserveFormants] is true and by nothing, so
    by no tempo directive, when it is not; the chain reaches the command.
    With a [Math.pow] that gives 2^1 = 2 and 2^0 = 1, twelve semitones
    give the ratio 2 and zero semitones the ratio 1. *)
Theorem C7_pitch_compilation (p : PitchOperation) :
  Math_pow 2%float 1%float = 2%float ->
  Math_pow 2%float 0%float = 1%float ->
  let ratio := pitch_ratio Math_pow p in
  (cents p = None -> totalCents p = (semitones p * 100 + 0)%float) /\
  (forall c, cents p = Some c -> JS.truthy c = true ->
     totalCents p = (semitones p * 100 + c)%float) /\
  ratio = Math_pow 2%float (totalCents p / 1200)%float /\
  buildPitchFilter show_fraction Math_pow p =
    join "," (pitch_directives show_fraction Math_pow p) /\
  (preserveFormants p = Some true ->
     pitch_directives show_fraction Math_pow p =
     ["asetrate=44100*" ++ show ratio; "aresample=44100";
      "atempo=" ++ show (1 / ratio)%float]) /\
  (preserveFormants p <> Some true ->
     pitch_directives show_fraction Math_pow p =
     ["asetrate=44100*" ++ show ratio; "aresample=44100"] /\
     forall d, In d (pitch_directives show_fraction Math_pow p) ->
               is_tempo_directive d = false) /\
  (forall ops a, advanced ops = Some a -> pitch a = Some p ->
     In (buildPitchFilter show_fraction Math_pow p)
        (command_filters (compiled advanced_compiler ops))) /\
  (forall c pf, c = None \/ c = Some 0%float ->
     pitch_ratio Math_pow (a_pitch 12 c pf) = 2%float /\
     pitch_ratio Math_pow (a_pitch 0 c pf) = 1%float).
Proof.
  intros Hpow1 Hpow0. cbv zeta. repeat split.
  - intros Hc. unfold totalCents. now rewrite Hc.
  - intros c Hc Ht. unfold totalCents, JS.or_default. now rewrite Hc, Ht.
  - unfold buildPitchFilter, pitch_directives, rate_resample_pair.
    destruct (JS.is_true (preserveFormants p)); cbn [join app];
      rewrite ?append_assoc; reflexivity.
  - intros Hpf. unfold pitch_directives. rewrite Hpf. reflexivity.
  - unfold pitch_directives.
    destruct (preserveFormants p) as [[|]|]; [congruence | reflexivity | reflexivity].
  - intros d Hd. unfold pitch_directives in Hd.
    destruct (preserveFormants p) as [[|]|]; [congruence | |];
      simpl in Hd; destruct Hd as [<- | [<- | []]]; reflexivity.
  - intros ops a Ha Hp. rewrite advanced_command_filters, Ha.
    apply in_or_app. right. now apply in_advanced_filters_pitch.
  - destruct H as [-> | ->]; unfold pitch_ratio, totalCents, a_pitch; simpl;
      exact Hpow1.
  - destruct H as [-> | ->]; unfold pitch_ratio, totalCents, a_pitch; simpl;
      exact Hpow0.
Qed.

End AdvancedCompilerClaims.

(** C10 at the spectral block of the preset deep-mechanical, whose mid cut
    is -2: the gain is -2, as it is for +2, and the expression is
    [bass=g=4,equalizer=f=1000:width=500:g=-2,equalizer=f=200:width=100:
    g=1.2000000000000002] (the one fraction met, 0.4 * 3, is printed as the
    runtime prints it). *)
Lemma C10_mid_cut_gain_witness :
  midCut Sample.deep_mechanical_spectral = Some (-2)%float /\
  In "equalizer=f=1000:width=500:g=-2"
     (eqBands (fun _ => "1.2000000000000002") Sample.deep_mechanical_spectral) /\
  buildSpectralFilter (fun _ => "1.2000000000000002")
    Sample.deep_mechanical_spectral =
    "bass=g=4,equalizer=f=1000:width=500:g=-2,equalizer=f=200:width=100:g=1.2000000000000002" /\
  buildSpectralFilter (fun _ => "1.2000000000000002")
    (with_midCut Sample.deep_mechanical_spectral 2) =
  buildSpectralFilter (fun _ => "1.2000000000000002")
    Sample.deep_mechanical_spectral.
Proof.
  split; [reflexivity |].
  pose proof (C10_mid_cut_gain (fun _ => "1.2000000000000002") pow_exact_cases
                Sample.deep_mechanical_spectral (-2)%float eq_refl) as H.
  split; [exact (proj1 H) |].
  split; [exact (proj1 (proj2 (proj2 H))) |].
  exact (proj1 (proj2 (proj2 (proj2 (proj2 (proj2 (proj2 H))))))).
Defined.

(** C7 at [{ semitones: 12, cents: 0 }], with a [Math.pow] that is exact at
    the exponents 0 and 1: the ratio is 2 and the chain has no tempo
    directive. *)
Lemma C7_pitch_compilation_witness :
  pow_exact_cases 2%float 1%float = 2%float /\
  pow_exact_cases 2%float 0%float = 1%float /\
  pitch_ratio pow_exact_cases (a_pitch 12 (Some 0%float) None) = 2%float /\
  buildPitchFilter no_fraction pow_exact_cases (a_pitch 12 (Some 0%float) None) =
    "asetrate=44100*2,aresample=44100".
Proof.
  split; [reflexivity | split; [reflexivity |]].
  pose proof (C7_pitch_compilation no_fraction pow_exact_cases
                (a_pitch 12 (Some 0%float) None) eq_refl eq_refl) as H.
  cbv zeta in H.
  split.
  - exact (proj1 (proj2 (proj2 (proj2 (proj2 (proj2 (proj2 (proj2 H))))))
                    (Some 0%float) None (or_intror eq_refl))).
  - exact (proj1 (proj2 (proj2 (proj2 H)))).
Defined.

(* ===================================================================== *)
(** * The layering compiler *)
(* ===================================================================== *)

Section LayeringFacts.

Variable show_fraction : float -> string.
Variable Math_pow : float -> float -> float.

Abbreviation sections := (layer_sections show_fraction Math_pow).

Lemma layer_sections_length (inputs i : nat) (ls : list Layer) :
  length (sections inputs i ls) = length ls.
Proof. revert i. induction ls; simpl; auto. Qed.

(** Round [k] of the loop works on layer [k] with index [i + k]. *)
Lemma layer_sections_nth (inputs i k : nat) (ls : list Layer) (layer : Layer) :
  nth_error ls k = Some layer ->
  nth_error (sections inputs i ls) k =
  Some (layer_section show_fraction Math_pow inputs (i + k) layer).
Proof.
  revert i k. induction ls as [|l ls IH]; intros i [|k] H; simpl in *;
    try discriminate.
  - injection H as ->. now rewrite Nat.add_0_r.
  - rewrite (IH (S i) k H). now rewrite Nat.add_succ_r.
Qed.

(** The rounds for the layers beyond the input count append nothing: no
    stream [[processed i]] is produced for them. *)
Lemma nothing_produced_beyond_inputs (inputFiles : list string)
    (l : LayeringOperation) (i : nat) (layer : Layer) :
  nth_error (layers l) i = Some layer ->
  length inputFiles <= i ->
  nth_error (sections (length inputFiles) 0 (layers l)) i = Some "" /\
  ~ In i (produced inputFiles l).
Proof.
  intros Hl Hi. split.
  - rewrite (layer_sections_nth _ 0 i _ layer Hl). simpl.
    unfold layer_section.
    destruct (Nat.ltb_spec i (length inputFiles)); [lia | reflexivity].
  - unfold produced. rewrite filter_In. intros [_ H].
    apply Nat.ltb_lt in H. lia.
Qed.

(** The mix-down directive takes one stream per layer, whatever the
    number of inputs. *)
Lemma mix_down_takes_every_layer (l : LayeringOperation) (i : nat) :
  i < length (layers l) ->
  In i (mixed l) /\
  In (label "processed" i) (mix_labels (layers l)).
Proof.
  intros Hi. unfold mixed, mix_labels.
  assert (In i (seq 0 (length (layers l)))) by (apply in_seq; lia).
  split; [assumption | now apply in_map].
Qed.

(** So, with more layers than inputs, the mix-down directive names a
    stream that no round has produced. *)
Lemma mix_down_names_unproduced_stream (inputFiles : list string)
    (l : LayeringOperation) :
  length inputFiles < length (layers l) ->
  exists i, In (label "processed" i) (mix_labels (layers l)) /\
            In i (mixed l) /\ ~ In i (produced inputFiles l).
Proof.
  intros H. exists (length inputFiles).
  destruct (mix_down_takes_every_layer l _ H) as [Hm Hl].
  destruct (nth_error (layers l) (length inputFiles)) as [layer|] eqn:Hn.
  - destruct (nothing_produced_beyond_inputs inputFiles l _ layer Hn (le_n _)).
    auto.
  - apply nth_error_None in Hn. lia.
Qed.

End LayeringFacts.

(** C3 (the code departs from the claim).  With one input and two layers the
    loop produces [[processed0]] only, and the second round appends nothing;
    yet the mix-down directive takes [[processed0][processed1]] and announces
    two inputs: it names the stream [[processed1]], which occurs nowhere
    before it in the graph. *)
Theorem C3_mix_down_names_unproduced_stream
    (show_fraction : float -> string) (Math_pow : float -> float -> float) :
  let ls := layers Sample.two_layers in
  let rounds := layer_sections show_fraction Math_pow
                  (length Sample.one_input) 0 ls in
  buildLayeringFilter show_fraction Math_pow Sample.one_input Sample.two_layers =
    "[0:a][processed0];[processed0][processed1]amix=inputs=2:duration=longest:dropout_transition=2[final]" /\
  rounds = ["[0:a][processed0];"; ""] /\
  mix_down ls =
    "[processed0][processed1]amix=inputs=2:duration=longest:dropout_transition=2[final]" /\
  produced Sample.one_input Sample.two_layers = [0] /\
  mixed Sample.two_layers = [0; 1] /\
  occurs "[processed1]" (mix_down ls) = true /\
  occurs "[processed1]" (String.concat "" rounds) = false.
Proof. cbv zeta. repeat split; reflexivity. Qed.

(* ===================================================================== *)
(** * The job runner *)
(* ===================================================================== *)

Section JobRunnerFacts.

Context {World : Type} (host : Host World).
Variable applyOperationsToCommand : AudioOperations -> Cmd unit.

Abbreviation run_job := (processAudioFile host applyOperationsToCommand).
Abbreviation steps := (job_steps host applyOperationsToCommand).

(** The runner in terms of the outcome of its steps. *)
Lemma processAudioFile_run (input output : string)
    (ops : AudioOperations) (overwrite : bool) (w : World) :
  run_job input output ops overwrite w =
  match steps input output ops overwrite w with
  | (Returned _, w') =>
      (Returned {| success := true; inputFile := input;
                   outputFile := output;
                   processingTime := Date_now host w' - Date_now host w;
                   operations := ops; error := None |}, w')
  | (Threw t, w') =>
      (Returned {| success := false; inputFile := input;
                   outputFile := output;
                   processingTime := Date_now host w' - Date_now host w;
                   operations := ops;
                   error := Some (error_text t) |}, w')
  end.
Proof.
  unfold processAudioFile, job_steps, bind, try_catch, now, ret.
  destruct (validateInputFile host input w) as [[[]|t1] w1];
    [|reflexivity].
  destruct (ensureOutputDirectory host output w1) as [[[]|t2] w2];
    [|reflexivity].
  destruct (handleExistingOutput host output overwrite w2) as [[[]|t3] w3];
    [|reflexivity].
  destruct (executeFFmpegCommand host input _ output w3) as [[[]|t4] w4];
    reflexivity.
Qed.

(** C4.  Whatever the input, the host and the world, the job runner
    returns one result and throws nothing.  The result echoes the paths and
    the operations, its time is the clock at the end minus the clock at
    the start, and it tells how the steps went: [success] is true with no
    error when they all passed, false with the text of the error when one
    of them threw. *)
Theorem C4_job_runner_always_returns (input output : string)
    (ops : AudioOperations) (overwrite : bool) (w : World) :
  exists r w',
    run_job input output ops overwrite w = (Returned r, w') /\
    operations r = ops /\
    inputFile r = input /\
    outputFile r = output /\
    processingTime r = (Date_now host w' - Date_now host w)%Z /\
    match steps input output ops overwrite w with
    | (Returned _, w1) => w' = w1 /\ success r = true /\ error r = None
    | (Threw t, w1) =>
        w' = w1 /\ success r = false /\ error r = Some (error_text t)
    end.
Proof.
  rewrite processAudioFile_run.
  destruct (steps input output ops overwrite w) as [[[]|t] w1];
    eexists; eexists; (split; [reflexivity |]); simpl; auto 10.
Qed.

(** What the batch and the variation loop use of it. *)
Lemma processAudioFile_returns (input output : string)
    (ops : AudioOperations) (overwrite : bool) (w : World) :
  exists r w',
    run_job input output ops overwrite w = (Returned r, w') /\
    operations r = ops /\
    inputFile r = input.
Proof.
  rewrite processAudioFile_run.
  destruct (steps input output ops overwrite w) as [[[]|t] w1];
    eexists; eexists; (split; [reflexivity |]); simpl; auto.
Qed.

End JobRunnerFacts.

(* ===================================================================== *)
(** * The queue and Promise.all *)
(* ===================================================================== *)

Lemma update_nth_length {A} (f : A -> A) (n : nat) (l : list A) :
  length (update_nth n f l) = length l.
Proof. revert n. induction l; intros [|n]; simpl; auto. Qed.

Lemma update_nth_same {A} (f : A -> A) (n : nat) (l : list A) :
  nth_error (update_nth n f l) n = option_map f (nth_error l n).
Proof. revert n. induction l; intros [|n]; simpl; auto. Qed.

Lemma update_nth_other {A} (f : A -> A) (n m : nat) (l : list A) :
  n <> m -> nth_error (update_nth n f l) m = nth_error l m.
Proof.
  revert n m. induction l; intros [|n] [|m] H; simpl; auto; try congruence.
Qed.

Lemma take_nth_some {A} (k : nat) (l : list A) :
  k < length l ->
  exists x rest, take_nth k l = Some (x, rest) /\
                 length l = S (length rest) /\
                 In x l /\
                 (forall y, In y l -> y = x \/ In y rest) /\
                 (forall y, In y rest -> In y l).
Proof.
  revert k. induction l as [|a l IH]; intros k Hk; simpl in Hk; [lia |].
  destruct k as [|k]; simpl.
  - exists a, l. repeat split; auto. intros y [<- | Hy]; auto.
  - destruct (IH k ltac:(lia)) as (x & rest & -> & Hlen & Hin & Hrest & Hback).
    exists x, (a :: rest). simpl. repeat split; auto.
    + intros y [<- | Hy]; auto. destruct (Hrest y Hy); auto.
    + intros y [<- | Hy]; auto.
Qed.

Lemma number_from_spec {A} (i : nat) (l : list A) (j : nat) (x : A) :
  In (j, x) (number_from i l) -> i <= j /\ nth_error l (j - i) = Some x.
Proof.
  revert i. induction l as [|a l IH]; intros i H; simpl in H; [contradiction |].
  destruct H as [H | H].
  - injection H as <- <-. rewrite Nat.sub_diag. split; [lia | reflexivity].
  - destruct (IH _ H) as [Hle Hn]. split; [lia |].
    replace (j - i) with (S (j - S i)) by lia. exact Hn.
Qed.

Lemma number_from_length {A} (i : nat) (l : list A) :
  length (number_from i l) = length l.
Proof. revert i. induction l; simpl; auto. Qed.

Lemma number_from_fst {A} (i : nat) (l : list A) :
  map fst (number_from i l) = seq i (length l).
Proof. revert i. induction l; simpl; intros; f_equal; auto. Qed.

Lemma settled_all {A} (l : list A) : settled (map Some l) = l.
Proof. induction l; simpl; congruence. Qed.

Section QueueFacts.

Context {World A : Type}.

Variable good : nat -> A -> Prop.

(** Whatever the order of completion, once the pending tasks have all run
    every slot holds the value of its own task. *)
Lemma settle_fills_every_slot (rounds : nat) :
  forall (pending : list (nat * IO World A)) (choices : list nat)
         (slots : list (option A)) (w : World),
    rounds = length pending ->
    (forall i task, In (i, task) pending -> fulfils good i task) ->
    slots_wait_for good pending slots ->
    exists slots' w',
      settle rounds pending choices slots w = (Returned slots', w') /\
      length slots' = length slots /\
      slots_wait_for (World := World) good [] slots'.
Proof.
  induction rounds as [|rounds IH]; intros pending choices slots w Hlen Hok Hinv.
  - destruct pending; [|discriminate]. exists slots, w. simpl. auto.
  - assert (Hk : (hd 0 choices mod length pending) < length pending).
    { apply Nat.mod_upper_bound. rewrite <- Hlen. discriminate. }
    destruct (take_nth_some _ _ Hk)
      as ([i task] & rest & Htake & Hl & Hin & Hrest & Hback).
    simpl. rewrite Htake. unfold bind.
    destruct (Hok i task Hin w) as (a & w1 & -> & Hgood).
    destruct (IH rest (tl choices) (update_nth i (fun _ => Some a) slots) w1)
      as (slots' & w' & Hrun & Hlen' & Hfinal).
    + lia.
    + intros j t Hj. apply Hok. now apply Hback.
    + intros j. destruct (Nat.eq_dec i j) as [<- | Hij].
      * rewrite update_nth_same. destruct (nth_error slots i); simpl; auto.
      * rewrite update_nth_other by assumption.
        specialize (Hinv j). destruct (nth_error slots j) as [[b|]|]; auto.
        apply in_map_iff in Hinv. destruct Hinv as ([j' t] & Hj' & Hjin).
        simpl in Hj'. subst j'.
        destruct (Hrest _ Hjin) as [Heq | Hr]; [congruence |].
        apply in_map_iff. exists (j, t). auto.
    + exists slots', w'. rewrite update_nth_length in Hlen'. auto.
Qed.

(** Slots that wait for nothing are all filled. *)
Lemma slots_all_filled (slots : list (option A)) :
  slots_wait_for (World := World) good [] slots ->
  exists l, slots = map Some l /\
            forall j a, nth_error l j = Some a -> good j a.
Proof.
  intros H.
  assert (Hall : forall j o, nth_error slots j = Some o ->
                             exists a, o = Some a /\ good j a).
  { intros j o Hj. specialize (H j). rewrite Hj in H.
    destruct o as [a|]; [eauto | contradiction]. }
  clear H. revert good Hall.
  induction slots as [|o slots IH]; intros good0 Hall.
  - exists []. split; [reflexivity |]. intros [|j] a; discriminate.
  - destruct (Hall 0 o eq_refl) as (a & -> & Ha).
    destruct (IH (fun j => good0 (S j))) as (l & -> & Hl).
    { intros j o Hj. exact (Hall (S j) o Hj). }
    exists (a :: l). split; [reflexivity |].
    intros [|j] b Hb; simpl in Hb.
    + injection Hb as <-. exact Ha.
    + exact (Hl j b Hb).
Qed.

(** [Promise.all] over the queue: the values come back in submission
    order, one per task, whatever the order of completion. *)
Lemma Promise_all_queued_in_order (tasks : list (IO World A))
    (choices : list nat) (w : World) :
  (forall i task, nth_error tasks i = Some task -> fulfils good i task) ->
  exists l w',
    Promise_all_queued tasks choices w = (Returned l, w') /\
    length l = length tasks /\
    forall j a, nth_error l j = Some a -> good j a.
Proof.
  intros Hok. unfold Promise_all_queued, bind.
  destruct (settle_fills_every_slot (length tasks) (number_from 0 tasks) choices
              (repeat None (length tasks)) w)
    as (slots & w' & -> & Hlen & Hfinal).
  - now rewrite number_from_length.
  - intros i task Hin. apply number_from_spec in Hin.
    destruct Hin as [_ Hn]. rewrite Nat.sub_0_r in Hn. now apply Hok.
  - intros j. destruct (nth_error (repeat None (length tasks)) j) as [o|] eqn:Hj;
      [|exact I].
    assert (Hlt : j < length tasks).
    { rewrite <- (repeat_length (@None A) (length tasks)).
      apply nth_error_Some. congruence. }
    apply nth_error_In, repeat_spec in Hj. subst o.
    rewrite number_from_fst. apply in_seq. lia.
  - destruct (slots_all_filled slots Hfinal) as (l & -> & Hl).
    exists l, w'. unfold ret. rewrite settled_all.
    rewrite length_map, repeat_length in Hlen. auto.
Qed.

End QueueFacts.

(* ===================================================================== *)
(** * The batch scheduler *)
(* ===================================================================== *)

Lemma filter_length_le {A} (f : A -> bool) (l : list A) :
  length (filter f l) <= length l.
Proof. induction l as [|a l IH]; simpl; [lia |]. destruct (f a); simpl; lia. Qed.

Lemma map_by_nth_error {A B} (f : A -> B) (l : list A) (l' : list B) :
  length l = length l' ->
  (forall j a, nth_error l j = Some a -> nth_error l' j = Some (f a)) ->
  map f l = l'.
Proof.
  revert l'. induction l as [|a l IH]; intros [|b l'] Hlen H; simpl in *;
    try discriminate; [reflexivity |].
  f_equal.
  - specialize (H 0 a eq_refl). simpl in H. congruence.
  - apply IH; [lia |]. intros j x Hj. exact (H (S j) x Hj).
Qed.

Section BatchFacts.

Context {World : Type} (host : Host World).
Variable applyOperationsToCommand : AudioOperations -> Cmd unit.

Abbreviation batch := (batchProcessAudio host applyOperationsToCommand).

(** The tasks of a batch, awaited together: one result per file, in the
    order of the files, whatever the order of completion. *)
Lemma batch_tasks_in_order (input : ProcessingInput) (output : ProcessingOutput)
    (ops : AudioOperations) (overwrite : bool) (files : list string)
    (choices : list nat) (w : World) :
  exists rs w',
    Promise_all_queued
      (map (batch_task host applyOperationsToCommand input output ops overwrite) files)
      choices w = (Returned rs, w') /\
    map inputFile rs = files /\
    Forall (fun r => operations r = ops) rs.
Proof.
  destruct (Promise_all_queued_in_order
              (fun j r => nth_error files j = Some (inputFile r) /\
                          operations r = ops)
              (map (batch_task host applyOperationsToCommand input output ops overwrite) files)
              choices w)
    as (rs & w' & Hrun & Hlen & Hgood).
  - intros i task Hi. rewrite nth_error_map in Hi.
    destruct (nth_error files i) as [f|] eqn:Hf; [|discriminate].
    injection Hi as <-. intros w0. unfold batch_task.
    destruct (processAudioFile_returns host applyOperationsToCommand f
                (generateBatchOutputPath host f input output) ops overwrite w0)
      as (r & w1 & Hr & Hops & Hin).
    exists r, w1. rewrite Hin. auto.
  - exists rs, w'. rewrite length_map in Hlen. repeat split; auto.
    + apply map_by_nth_error; [assumption |].
      intros j r Hj. exact (proj1 (Hgood j r Hj)).
    + apply Forall_forall. intros r Hr.
      apply In_nth_error in Hr. destruct Hr as [j Hj].
      exact (proj2 (Hgood j r Hj)).
Qed.

(** C5.  When the source resolves to no file at all, the batch throws
    "Batch processing failed: No audio files found matching the criteria";
    it returns no result, so none with [totalFiles = 0]. *)
Theorem C5_empty_batch_fails (input : ProcessingInput) (output : ProcessingOutput)
    (ops : AudioOperations) (overwrite : bool) (choices : list nat)
    (w w1 : World) :
  findInputFiles host input w = (Returned [], w1) ->
  batch input output ops overwrite choices w =
    (Threw (FFmpegError
       "Batch processing failed: No audio files found matching the criteria"),
     w1) /\
  forall r w', batch input output ops overwrite choices w <> (Returned r, w').
Proof.
  intros Hfind.
  assert (H : batch input output ops overwrite choices w =
              (Threw (FFmpegError
                 "Batch processing failed: No audio files found matching the criteria"),
               w1)).
  { unfold batchProcessAudio, bind, try_catch, now. rewrite Hfind. reflexivity. }
  split; [exact H |]. intros r w'. rewrite H. discriminate.
Qed.

(** C6.  When the source resolves to files, and there is at least one, the
    batch returns, whatever the order in which the jobs complete, a result
    with one entry per file in the order of discovery, [totalFiles] their
    number, [successfulFiles] the number of entries with [success] true,
    and [failedFiles] the rest. *)
Theorem C6_batch_result_in_discovery_order (input : ProcessingInput)
    (output : ProcessingOutput) (ops : AudioOperations) (overwrite : bool)
    (choices : list nat) (w w1 : World) (files : list string) :
  findInputFiles host input w = (Returned files, w1) ->
  files <> [] ->
  exists r w',
    batch input output ops overwrite choices w = (Returned r, w') /\
    totalFiles r = length files /\
    totalFiles r = successfulFiles r + failedFiles r /\
    successfulFiles r = length (filter success (results r)) /\
    length (results r) = length files /\
    map inputFile (results r) = files /\
    Forall (fun x => operations x = ops) (results r).
Proof.
  intros Hfind Hne.
  destruct (batch_tasks_in_order input output ops overwrite files choices w1)
    as (rs & w2 & Hrun & Hfiles & Hops).
  assert (Hlen : length rs = length files).
  { rewrite <- Hfiles. now rewrite length_map. }
  eexists. exists w2. split.
  - unfold batchProcessAudio, bind, try_catch, now. rewrite Hfind.
    destruct files as [|f files]; [congruence |].
    cbn [length Nat.eqb ret]. rewrite Hrun. reflexivity.
  - cbn [totalFiles successfulFiles failedFiles results].
    pose proof (filter_length_le success rs). repeat split; auto; lia.
Qed.

End BatchFacts.

(** C5 in a world with no file. *)
Lemma C5_empty_batch_fails_witness :
  findInputFiles Sample.host Sample.from_in Sample.empty_world =
    (Returned [], Sample.tick 1 Sample.empty_world) /\
  batchProcessAudio Sample.host (base_applyOperationsToCommand no_fraction)
    Sample.from_in Sample.to_out Sample.empty_ops false [] Sample.empty_world =
  (Threw (FFmpegError
     "Batch processing failed: No audio files found matching the criteria"),
   Sample.tick 1 Sample.empty_world).
Proof.
  split; [reflexivity |].
  exact (proj1 (C5_empty_batch_fails Sample.host
                  (base_applyOperationsToCommand no_fraction)
                  Sample.from_in Sample.to_out Sample.empty_ops false []
                  Sample.empty_world _ eq_refl)).
Defined.

(** C6 in a world with two files, the second job completing first (its
    output is the older of the two in the world the batch leaves). *)
Lemma C6_batch_result_in_discovery_order_witness :
  findInputFiles Sample.host Sample.from_in Sample.two_files =
    (Returned ["in/a.wav"; "in/b.wav"], Sample.tick 1 Sample.two_files) /\
  ["in/a.wav"; "in/b.wav"] <> [] /\
  exists r w',
    batchProcessAudio Sample.host (base_applyOperationsToCommand no_fraction)
      Sample.from_in Sample.to_out Sample.empty_ops false [1]
      Sample.two_files = (Returned r, w') /\
    totalFiles r = 2 /\
    map inputFile (results r) = ["in/a.wav"; "in/b.wav"] /\
    Sample.files w' =
      ["out/a_processed.wav"; "out/b_processed.wav"; "in/a.wav"; "in/b.wav"].
Proof.
  split; [reflexivity |]. split; [discriminate |].
  destruct (C6_batch_result_in_discovery_order Sample.host
              (base_applyOperationsToCommand no_fraction)
              Sample.from_in Sample.to_out Sample.empty_ops false [1]
              Sample.two_files _ _ eq_refl
              (fun H : ["in/a.wav"; "in/b.wav"] = [] =>
                 match H in _ = l return match l with [] => False | _ => True end
                 with eq_refl => I end))
    as (r & w' & Hrun & Htotal & _ & _ & _ & Hfiles & _).
  exists r, w'. repeat split; auto.
  vm_compute in Hrun. now injection Hrun as _ <-.
Defined.

(* ===================================================================== *)
(** * The variation generator *)
(* ===================================================================== *)

Section VariationFacts.

Context {World : Type} (host : Host World).
Variable applyOperationsToCommand : AudioOperations -> Cmd unit.

Abbreviation loop_from :=
  (variations_loop host applyOperationsToCommand).

(** The loop returns one result per round, and the operations of the
    results are the perturbations the generator draws from its state. *)
Lemma variations_loop_perturbations (input dir : string) (v : VariationOperation)
    (base : option AudioOperations) (overwrite : bool) (n : nat) :
  forall (i : nat) (state : float) (w : World),
  exists rs w',
    loop_from input dir v base overwrite n i state w = (Returned rs, w') /\
    map operations rs = map (variationOps base) (perturbations v n state).
Proof.
  induction n as [|n IH]; intros i state w.
  - exists [], w. split; reflexivity.
  - cbn [variations_loop].
    destruct (generateRandomVariation v state) as [variation state'] eqn:Hg.
    unfold bind.
    match goal with
    | |- context [processAudioFile ?h ?c ?a ?b ?o ?ov ?w0] =>
        destruct (processAudioFile_returns h c a b o ov w0)
          as (r & w1 & -> & Hops & _)
    end.
    destruct (IH (S i) state' w1) as (rs & w2 & -> & Hrs).
    exists (r :: rs), w2. split; [reflexivity |].
    cbn [perturbations]. rewrite Hg. cbn [map]. now rewrite Hops, Hrs.
Qed.

(** With a seed that is a number other than zero, the perturbations of a
    run are those the seed gives, whatever the world: [Math.random] is not
    asked. *)
Lemma seeded_variations_ignore_the_world (input dir : string)
    (v : VariationOperation) (base : option AudioOperations) (overwrite : bool)
    (s : float) (w : World) (rs : list ProcessingResult) (w' : World) :
  seed v = Some s -> JS.truthy s = true ->
  generateVariations host applyOperationsToCommand input dir v base overwrite w =
    (Returned rs, w') ->
  map operations rs =
  map (variationOps base) (perturbations v (Z.to_nat (count v)) s).
Proof.
  intros Hs Ht. unfold generateVariations, try_catch, bind, choose_seed,
    JS.truthy_value. rewrite Hs, Ht.
  destruct (validateInputFile host input w) as [[[]|t1] w1]; [|discriminate].
  destruct (ensureOutputDirectory host dir w1) as [[[]|t2] w2]; [|discriminate].
  unfold ret.
  destruct (variations_loop_perturbations input dir v base overwrite
              (Z.to_nat (count v)) 0 s w2) as (rs' & w3 & -> & Hrs).
  intros H. injection H as <- _. exact Hrs.
Qed.

End VariationFacts.

(** Two runs with the same seed, a number other than zero, give the same
    perturbations, even on two hosts in two worlds. *)
Lemma seeded_variations_reproducible {W1 W2 : Type} (h1 : Host W1) (h2 : Host W2)
    (compiler : AudioOperations -> Cmd unit) (input dir : string)
    (v : VariationOperation) (base : option AudioOperations) (overwrite : bool)
    (s : float) (w1 w1' : W1) (w2 w2' : W2) (rs1 rs2 : list ProcessingResult) :
  seed v = Some s -> JS.truthy s = true ->
  generateVariations h1 compiler input dir v base overwrite w1 = (Returned rs1, w1') ->
  generateVariations h2 compiler input dir v base overwrite w2 = (Returned rs2, w2') ->
  map operations rs1 = map operations rs2.
Proof.
  intros Hs Ht H1 H2.
  rewrite (seeded_variations_ignore_the_world h1 compiler _ _ _ _ _ s _ _ _ Hs Ht H1).
  rewrite (seeded_variations_ignore_the_world h2 compiler _ _ _ _ _ s _ _ _ Hs Ht H2).
  reflexivity.
Qed.

(** C1 (the code departs from the claim).  With the explicit seed 0 the
    generator is seeded from [Math.random()]: two runs of
    [{ count: 2, pitchRange: 2, volumeRange: 3, spectralRange: 2, seed: 0 }]
    on the same file, in worlds that differ only in what [Math.random()]
    returns (0.25 and 0.5), give different pitch shifts. *)
Theorem C1_seed_zero_is_not_reproducible :
  let run :=
    generateVariations Sample.host
      (advanced_applyOperationsToCommand no_fraction pow_exact_cases)
      "in/a.wav" "out" Sample.seed_zero None false in
  exists rs1 w1 rs2 w2,
    run Sample.random_quarter = (Returned rs1, w1) /\
    run Sample.random_half = (Returned rs2, w2) /\
    map pitch_shift_of rs1 =
      [Some (-1.5033009806647897)%float; Some 1.0373775400221348%float] /\
    map pitch_shift_of rs2 =
      [Some (-1.9508738527074456)%float; Some 1.4032874889671803%float] /\
    map operations rs1 <> map operations rs2.
Proof.
  cbv zeta.
  destruct (generateVariations Sample.host _ "in/a.wav" "out" Sample.seed_zero
              None false Sample.random_quarter) as [o1 w1] eqn:H1.
  destruct (generateVariations Sample.host _ "in/a.wav" "out" Sample.seed_zero
              None false Sample.random_half) as [o2 w2] eqn:H2.
  vm_compute in H1. vm_compute in H2.
  injection H1 as <- <-. injection H2 as <- <-.
  eexists. eexists. eexists. eexists.
  split; [reflexivity |]. split; [reflexivity |].
  split; [reflexivity |]. split; [reflexivity |].
  intros H.
  assert (E := f_equal (fun l => match map pitch_shift_of_ops l with
                                 | Some x :: _ => (x <? (-1.6))%float
                                 | _ => false
                                 end) H).
  vm_compute in E. discriminate.
Qed.

(* ===================================================================== *)
(** * The helpers of utils/ffmpeg.ts *)
(* ===================================================================== *)

Section UtilsFacts.

Context {World : Type} (host : Host World).

(** X1.  [validateInputFile] returns exactly when [fs.stat] finds a file and
    the read access passes; whatever else happens, what it throws is an
    [FFmpegError]. *)
Theorem validateInputFile_outcome (filePath : string) (w : World) :
  (forall w',
     validateInputFile host filePath w = (Returned tt, w') <->
     exists w1, fs_stat_isFile host filePath w = (Returned true, w1) /\
                fs_access_R_OK host filePath w1 = (Returned tt, w')) /\
  (forall t w',
     validateInputFile host filePath w = (Threw t, w') -> thrown_FFmpegError t).
Proof.
  unfold validateInputFile, try_catch, bind, throw, ret.
  destruct (fs_stat_isFile host filePath w) as [[[|]|t0] w1] eqn:Hs; simpl.
  - destruct (fs_access_R_OK host filePath w1) as [[[]|t1] w2] eqn:Ha; simpl.
    + split.
      * intros w'. split.
        -- intros [= <-]. now exists w1.
        -- intros (w1' & [= <-] & Ha'). rewrite Ha in Ha'. exact Ha'.
      * intros t w' H. discriminate.
    + split.
      * intros w'. split.
        -- destruct t1 as [[[|] m c]|]; discriminate.
        -- intros (w1' & [= <-] & Ha'). rewrite Ha in Ha'. discriminate.
      * intros t w' H.
        destruct t1 as [[[|] m c]|]; injection H as <- _; reflexivity.
  - split.
    + intros w'. split; [discriminate |].
      intros (w1' & Hs' & _). discriminate.
    + intros t w' [= <- _]. reflexivity.
  - split.
    + intros w'. split.
      * destruct t0 as [[[|] m c]|]; discriminate.
      * intros (w1' & Hs' & _). discriminate.
    + intros t w' H.
      destruct t0 as [[[|] m c]|]; injection H as <- _; reflexivity.
Qed.

(** X2.  [ensureOutputDirectory] returns exactly when the directory of the
    path could be made and is writable.  It throws exactly when making the
    directory throws, or making it passes and the write access throws, and
    what it throws then is the [FFmpegError] that names the directory and
    carries the message of that failure. *)
Theorem ensureOutputDirectory_outcome (filePath : string) (w : World) :
  (forall w',
     ensureOutputDirectory host filePath w = (Returned tt, w') <->
     exists w1,
       fs_mkdir_recursive host (path_dirname host filePath) w = (Returned tt, w1) /\
       fs_access_W_OK host (path_dirname host filePath) w1 = (Returned tt, w')) /\
  (forall t w',
     ensureOutputDirectory host filePath w = (Threw t, w') <->
     exists cause,
       t = FFmpegError ("Cannot create or access output directory: " ++
                        path_dirname host filePath ++ " - " ++ message_of cause) /\
       (fs_mkdir_recursive host (path_dirname host filePath) w =
          (Threw cause, w') \/
        exists w1,
          fs_mkdir_recursive host (path_dirname host filePath) w =
            (Returned tt, w1) /\
          fs_access_W_OK host (path_dirname host filePath) w1 =
            (Threw cause, w'))).
Proof.
  unfold ensureOutputDirectory, try_catch, bind, throw.
  destruct (fs_mkdir_recursive host _ w) as [[[]|t0] w1] eqn:Hm; simpl.
  - destruct (fs_access_W_OK host _ w1) as [[[]|t1] w2] eqn:Ha; simpl.
    + split.
      * intros w'. split.
        -- intros [= <-]. now exists w1.
        -- intros (w1' & [= <-] & Ha'). rewrite Ha in Ha'. exact Ha'.
      * intros t w'. split; [discriminate |].
        intros (cause & _ & [Hm' | (w1' & [= <-] & Ha')]); [discriminate |].
        rewrite Ha in Ha'. discriminate.
    + split.
      * intros w'. split; [discriminate |].
        intros (w1' & [= <-] & Ha'). rewrite Ha in Ha'. discriminate.
      * intros t w'. split.
        -- intros [= <- <-]. exists t1. split; [reflexivity |].
           right. now exists w1.
        -- intros (cause & -> & [Hm' | (w1' & [= <-] & Ha')]);
             [discriminate |].
           rewrite Ha in Ha'. now injection Ha' as <- <-.
  - split.
    + intros w'. split; [discriminate |].
      intros (w1' & Hm' & _). discriminate.
    + intros t w'. split.
      * intros [= <- <-]. exists t0. split; [reflexivity |]. now left.
      * intros (cause & -> & [Hm' | (w1' & Hm' & _)]); [|discriminate].
        now injection Hm' as <- <-.
Qed.

(** X3.  [handleExistingOutput]: an output that exists passes only with
    [overwrite], and is otherwise refused with "Output file already
    exists"; an output that is missing ([ENOENT]) always passes; any other
    failure of the access is passed on as it is. *)
Theorem handleExistingOutput_table (outputPath : string) (overwrite : bool)
    (w : World) :
  handleExistingOutput host outputPath overwrite w =
  match fs_access host outputPath w with
  | (Returned _, w') =>
      if overwrite then (Returned tt, w')
      else (Threw (FFmpegError ("Output file already exists: " ++ outputPath ++
                                ". Use overwrite option to replace.")), w')
  | (Threw t, w') =>
      if has_code t "ENOENT" then (Returned tt, w') else (Threw t, w')
  end.
Proof.
  unfold handleExistingOutput, try_catch, bind, throw, ret.
  destruct (fs_access host outputPath w) as [[[]|t] w1]; simpl.
  - destruct overwrite; reflexivity.
  - destruct (has_code t "ENOENT"); reflexivity.
Qed.

End UtilsFacts.

(* ===================================================================== *)
(** * The job runner, step by step *)
(* ===================================================================== *)

Section JobRunnerSteps.

Context {World : Type} (host : Host World).
Variable applyOperationsToCommand : AudioOperations -> Cmd unit.

(** X4.  When the input is valid and the output directory ready, an output
    that already exists makes a job without [overwrite] fail with "Output
    file already exists", and the engine is not run: the world is left as
    the access check left it. *)
Theorem existing_output_fails_the_job (input output : string)
    (ops : AudioOperations) (w w1 w2 w3 : World) :
  validateInputFile host input w = (Returned tt, w1) ->
  ensureOutputDirectory host output w1 = (Returned tt, w2) ->
  fs_access host output w2 = (Returned tt, w3) ->
  processAudioFile host applyOperationsToCommand input output ops false w =
  (Returned {| success := false; inputFile := input; outputFile := output;
               processingTime := Date_now host w3 - Date_now host w;
               operations := ops;
               error := Some ("Output file already exists: " ++ output ++
                              ". Use overwrite option to replace.") |}, w3).
Proof.
  intros Hv He Ha. rewrite processAudioFile_run.
  unfold job_steps, bind. rewrite Hv, He.
  unfold handleExistingOutput, try_catch, bind. rewrite Ha. reflexivity.
Qed.

(** X5.  When the steps before it pass, an error the engine reports fails
    the job with the engine's message behind "FFmpeg processing failed: ". *)
Theorem engine_error_fails_the_job (input output : string)
    (ops : AudioOperations) (overwrite : bool) (w w1 w2 w3 w4 : World)
    (err : string) :
  validateInputFile host input w = (Returned tt, w1) ->
  ensureOutputDirectory host output w1 = (Returned tt, w2) ->
  handleExistingOutput host output overwrite w2 = (Returned tt, w3) ->
  engine_run host input (compiled applyOperationsToCommand ops) output w3 =
    (Some err, w4) ->
  processAudioFile host applyOperationsToCommand input output ops overwrite w =
  (Returned {| success := false; inputFile := input; outputFile := output;
               processingTime := Date_now host w4 - Date_now host w;
               operations := ops;
               error := Some ("FFmpeg processing failed: " ++ err) |}, w4).
Proof.
  intros Hv He Hh Hr. rewrite processAudioFile_run.
  unfold job_steps, bind, executeFFmpegCommand. rewrite Hv, He, Hh, Hr.
  reflexivity.
Qed.

(** X6.  An input that does not validate fails the job at once: the result
    carries the message of what validation threw, and the world is the one
    validation left, so no directory was made and no engine run. *)
Theorem invalid_input_fails_the_job (input output : string)
    (ops : AudioOperations) (overwrite : bool) (w w1 : World) (t : Thrown) :
  validateInputFile host input w = (Threw t, w1) ->
  processAudioFile host applyOperationsToCommand input output ops overwrite w =
  (Returned {| success := false; inputFile := input; outputFile := output;
               processingTime := Date_now host w1 - Date_now host w;
               operations := ops;
               error := Some (error_text t) |}, w1).
Proof.
  intros Hv. rewrite processAudioFile_run.
  unfold job_steps, bind. rewrite Hv. reflexivity.
Qed.

End JobRunnerSteps.

(** X4 in a world where [out/a.wav] exists. *)
Lemma existing_output_fails_the_job_witness :
  validateInputFile Sample.host "in/a.wav" MoreSamples.output_exists =
    (Returned tt, MoreSamples.at_time 2 MoreSamples.output_exists) /\
  ensureOutputDirectory Sample.host "out/a.wav"
    (MoreSamples.at_time 2 MoreSamples.output_exists) =
    (Returned tt, MoreSamples.at_time 4 MoreSamples.output_exists) /\
  fs_access Sample.host "out/a.wav" (MoreSamples.at_time 4 MoreSamples.output_exists) =
    (Returned tt, MoreSamples.at_time 5 MoreSamples.output_exists) /\
  processAudioFile Sample.host (base_applyOperationsToCommand no_fraction)
    "in/a.wav" "out/a.wav" Sample.empty_ops false MoreSamples.output_exists =
  (Returned {| success := false; inputFile := "in/a.wav";
               outputFile := "out/a.wav"; processingTime := 5;
               operations := Sample.empty_ops;
               error := Some "Output file already exists: out/a.wav. Use overwrite option to replace." |},
   MoreSamples.at_time 5 MoreSamples.output_exists).
Proof.
  split; [reflexivity |]. split; [reflexivity |]. split; [reflexivity |].
  exact (existing_output_fails_the_job Sample.host
           (base_applyOperationsToCommand no_fraction)
           "in/a.wav" "out/a.wav" Sample.empty_ops
           MoreSamples.output_exists
           (MoreSamples.at_time 2 MoreSamples.output_exists)
           (MoreSamples.at_time 4 MoreSamples.output_exists)
           (MoreSamples.at_time 5 MoreSamples.output_exists)
           eq_refl eq_refl eq_refl).
Defined.

(** X5 on a host whose engine fails. *)
Lemma engine_error_fails_the_job_witness :
  validateInputFile MoreSamples.failing_host "in/a.wav" MoreSamples.one_file =
    (Returned tt, MoreSamples.at_time 2 MoreSamples.one_file) /\
  ensureOutputDirectory MoreSamples.failing_host "out/a.wav"
    (MoreSamples.at_time 2 MoreSamples.one_file) =
    (Returned tt, MoreSamples.at_time 4 MoreSamples.one_file) /\
  handleExistingOutput MoreSamples.failing_host "out/a.wav" false
    (MoreSamples.at_time 4 MoreSamples.one_file) =
    (Returned tt, MoreSamples.at_time 5 MoreSamples.one_file) /\
  engine_run MoreSamples.failing_host "in/a.wav"
    (compiled (base_applyOperationsToCommand no_fraction) Sample.empty_ops)
    "out/a.wav" (MoreSamples.at_time 5 MoreSamples.one_file) =
    (Some "Invalid data found", MoreSamples.at_time 15 MoreSamples.one_file) /\
  processAudioFile MoreSamples.failing_host
    (base_applyOperationsToCommand no_fraction)
    "in/a.wav" "out/a.wav" Sample.empty_ops false MoreSamples.one_file =
  (Returned {| success := false; inputFile := "in/a.wav";
               outputFile := "out/a.wav"; processingTime := 15;
               operations := Sample.empty_ops;
               error := Some "FFmpeg processing failed: Invalid data found" |},
   MoreSamples.at_time 15 MoreSamples.one_file).
Proof.
  split; [reflexivity |]. split; [reflexivity |]. split; [reflexivity |].
  split; [reflexivity |].
  exact (engine_error_fails_the_job MoreSamples.failing_host
           (base_applyOperationsToCommand no_fraction)
           "in/a.wav" "out/a.wav" Sample.empty_ops false
           MoreSamples.one_file
           (MoreSamples.at_time 2 MoreSamples.one_file)
           (MoreSamples.at_time 4 MoreSamples.one_file)
           (MoreSamples.at_time 5 MoreSamples.one_file)
           (MoreSamples.at_time 15 MoreSamples.one_file)
           "Invalid data found" eq_refl eq_refl eq_refl eq_refl).
Defined.

(** X6 in a world with no file. *)
Lemma invalid_input_fails_the_job_witness :
  validateInputFile Sample.host "in/a.wav" Sample.empty_world =
    (Threw (FFmpegError "Cannot access input file: in/a.wav - ENOENT: no such file or directory, in/a.wav"),
     MoreSamples.at_time 1 Sample.empty_world) /\
  processAudioFile Sample.host (base_applyOperationsToCommand no_fraction)
    "in/a.wav" "out/a.wav" Sample.empty_ops false Sample.empty_world =
  (Returned {| success := false; inputFile := "in/a.wav";
               outputFile := "out/a.wav"; processingTime := 1;
               operations := Sample.empty_ops;
               error := Some "Cannot access input file: in/a.wav - ENOENT: no such file or directory, in/a.wav" |},
   MoreSamples.at_time 1 Sample.empty_world).
Proof.
  split; [reflexivity |].
  exact (invalid_input_fails_the_job Sample.host
           (base_applyOperationsToCommand no_fraction)
           "in/a.wav" "out/a.wav" Sample.empty_ops false
           Sample.empty_world (MoreSamples.at_time 1 Sample.empty_world)
           (FFmpegError "Cannot access input file: in/a.wav - ENOENT: no such file or directory, in/a.wav")
           eq_refl).
Defined.

(* ===================================================================== *)
(** * Signs in binary64 arithmetic *)
(* ===================================================================== *)

Lemma SFeqb_refl_finite (s : bool) (m : positive) (e : Z) :
  SFeqb (S754_finite s m e) (S754_finite s m e) = true.
Proof.
  unfold SFeqb, SFcompare.
  destruct s; rewrite Z.compare_refl, Pos.compare_cont_refl; reflexivity.
Qed.

(** What the test [0 < x] tells about [x] and about [-x]. *)
Lemma above_zero (x : float) :
  (0 <? x)%float = true ->
  is_nan x = false /\ is_zero x = false /\ (x <? 0)%float = false /\
  is_nan (- x) = false /\ (0 <? - x)%float = false /\ (- x <? 0)%float = true.
Proof.
  unfold is_nan, is_zero.
  rewrite !FloatAxioms.ltb_spec, !FloatAxioms.eqb_spec, !FloatAxioms.opp_spec.
  change (Prim2SF 0%float) with (S754_zero false).
  change (Prim2SF zero) with (S754_zero false).
  destruct (Prim2SF x) as [s| s | | s m e]; simpl; try discriminate;
    destruct s; simpl; try discriminate; intros _;
    rewrite ?SFeqb_refl_finite; repeat split; reflexivity.
Qed.

(** What the test [x < 0] tells about [x] and about [-x]. *)
Lemma below_zero (x : float) :
  (x <? 0)%float = true ->
  is_nan x = false /\ is_zero x = false /\ (0 <? x)%float = false /\
  is_nan (- x) = false /\ (0 <? - x)%float = true /\ (- x <? 0)%float = false.
Proof.
  unfold is_nan, is_zero.
  rewrite !FloatAxioms.ltb_spec, !FloatAxioms.eqb_spec, !FloatAxioms.opp_spec.
  change (Prim2SF 0%float) with (S754_zero false).
  change (Prim2SF zero) with (S754_zero false).
  destruct (Prim2SF x) as [s| s | | s m e]; simpl; try discriminate;
    destruct s; simpl; try discriminate; intros _;
    rewrite ?SFeqb_refl_finite; repeat split; reflexivity.
Qed.

Lemma truthy_above_zero (x : float) :
  (0 <? x)%float = true -> JS.truthy x = true.
Proof.
  intros H. destruct (above_zero x H) as (Hn & Hz & _).
  unfold JS.truthy. now rewrite Hn, Hz.
Qed.

Lemma truthy_below_zero (x : float) :
  (x <? 0)%float = true -> JS.truthy x = true.
Proof.
  intros H. destruct (below_zero x H) as (Hn & Hz & _).
  unfold JS.truthy. now rewrite Hn, Hz.
Qed.

(* ===================================================================== *)
(** * The base compiler: settings and order *)
(* ===================================================================== *)

Section BaseCompilerOrder.

Variable show_fraction : float -> string.

Abbreviation show := (show show_fraction).
Abbreviation base := (base_applyOperationsToCommand show_fraction).

Lemma volume_calls_are_filters (v : VolumeOperation) (c : Call) :
  In c (volume_calls show_fraction v) -> is_filter_call c.
Proof.
  unfold volume_calls. intros H. apply in_app_or in H. destruct H as [H | H].
  - destruct (adjust v); [|destruct H]. destruct H as [<- | []]. exact I.
  - destruct (JS.is_true (normalize v)); [|destruct H].
    destruct H as [<- | []]. exact I.
Qed.

Lemma format_calls_are_settings (f : FormatOperation) (c : Call) :
  In c (format_calls show_fraction f) -> is_format_call c.
Proof.
  unfold format_calls. intros H.
  repeat (apply in_app_or in H; destruct H as [H | H]).
  - destruct (JS.truthy_value (sampleRate f)); [|destruct H].
    destruct H as [<- | []]. exact I.
  - destruct (JS.truthy_value (channels f)); [|destruct H].
    destruct H as [<- | []]. exact I.
  - destruct (JS.truthy_string (codec f)); [|destruct H].
    destruct H as [<- | []]. exact I.
  - destruct (JS.truthy_value (bitrate f)); [|destruct H].
    destruct H as [<- | []]. exact I.
Qed.

Lemma hand_over_is_filter (r : ArrayRef) (items : list string) (c : Call) :
  In c (hand_over r items) -> is_filter_call c.
Proof.
  destruct items; simpl; [intros [] |]. intros [<- | []]. exact I.
Qed.

(** The calls of the base compiler that are neither filters nor format
    settings are those of the [trim] block. *)
Lemma other_calls_are_trim (ops : AudioOperations) (c : Call) :
  ~ is_filter_call c -> ~ is_format_call c ->
  (In c (calls (compiled base ops)) <->
   exists e, effects ops = Some e /\ In c (trim_calls e)).
Proof.
  intros Hf Hs. rewrite base_compiled. cbn [calls]. split.
  - intros H. apply in_app_or in H. destruct H as [H | H].
    { destruct (volume ops); [|destruct H].
      apply volume_calls_are_filters in H. contradiction. }
    apply in_app_or in H. destruct H as [H | H].
    { destruct (format ops); [|destruct H].
      apply format_calls_are_settings in H. contradiction. }
    destruct (effects ops) as [e|]; [|destruct H].
    unfold opt_calls, effects_calls in H. apply in_app_or in H.
    destruct H as [H | H]; [now exists e |].
    apply hand_over_is_filter in H. contradiction.
  - intros (e & He & H). rewrite He. apply in_or_app. right.
    apply in_or_app. right. unfold opt_calls, effects_calls.
    apply in_or_app. now left.
Qed.

(** X7.  With [trim] present the command is told to seek to [start], and to
    nothing else; it is given a duration exactly when [start < end], and
    that duration is [end - start]. *)
Theorem trim_seeks_and_caps (ops : AudioOperations) (e : EffectsOperation)
    (t : Trim) :
  effects ops = Some e -> trim e = Some t ->
  let cs := calls (compiled base ops) in
  (forall x, In (seekInput x) cs <-> x = trim_start t) /\
  (forall d, In (duration d) cs <->
     (trim_start t <? trim_end t)%float = true /\
     d = (trim_end t - trim_start t)%float).
Proof.
  intros He Ht. cbv zeta. split.
  - intros x. rewrite other_calls_are_trim by (simpl; tauto). split.
    + intros (e' & He' & H). assert (e' = e) by congruence. subst e'.
      unfold trim_calls in H. rewrite Ht in H.
      destruct H as [H | H]; [congruence |].
      destruct (trim_start t <? trim_end t)%float; [|destruct H].
      destruct H as [H | []]. discriminate.
    + intros ->. exists e. split; [assumption |].
      unfold trim_calls. rewrite Ht. now left.
  - intros d. rewrite other_calls_are_trim by (simpl; tauto). split.
    + intros (e' & He' & H). assert (e' = e) by congruence. subst e'.
      unfold trim_calls in H. rewrite Ht in H.
      destruct H as [H | H]; [discriminate |].
      destruct (trim_start t <? trim_end t)%float; [|destruct H].
      destruct H as [H | []]. split; [reflexivity | congruence].
    + intros [Hlt ->]. exists e. split; [assumption |].
      unfold trim_calls. rewrite Ht, Hlt. right. now left.
Qed.

(** X8.  The filter list of the base compiler is, in this order: the gain,
    the loudness normalization, the fade-in, the fade-out, each if
    requested.  The format settings, the trim and the loop add nothing
    to it. *)
Theorem base_filter_order (ops : AudioOperations) :
  command_filters (compiled base ops) =
  (match volume ops with
   | Some v =>
       match adjust v with
       | Some a => [("volume=" ++ show a ++ "dB")%string]
       | None => []
       end ++
       match normalize v with
       | Some true =>
           [("loudnorm=I=" ++ show (JS.or_default (targetLUFS v) (-23)%float) ++
             ":LRA=7:tp=-2")%string]
       | _ => []
       end
   | None => []
   end ++
   match effects ops with
   | Some e =>
       match fadeIn e with
       | Some d => [("afade=t=in:ss=0:d=" ++ show d)%string]
       | None => []
       end ++
       match fadeOut e with
       | Some t => [("afade=t=out:st=" ++ show t ++ ":d=1")%string]
       | None => []
       end
   | None => []
   end)%list.
Proof.
  rewrite base_command_filters.
  unfold volume_filters, volume_calls, fades, fade_in_directive,
    fade_out_directive, loudnorm_directive.
  f_equal. destruct (volume ops) as [v|]; [|reflexivity].
  rewrite flat_map_app. f_equal.
  - destruct (adjust v); reflexivity.
  - destruct (normalize v) as [[|]|]; reflexivity.
Qed.

(** The format calls of the base compiler are those of the [format]
    block. *)
Lemma format_calls_of_command (ops : AudioOperations) (c : Call) :
  is_format_call c ->
  (In c (calls (compiled base ops)) <->
   exists f, format ops = Some f /\ In c (format_calls show_fraction f)).
Proof.
  intros Hc. rewrite base_compiled. cbn [calls]. split.
  - intros H. apply in_app_or in H. destruct H as [H | H].
    { destruct (volume ops); [|destruct H].
      apply volume_calls_are_filters in H. destruct c; contradiction. }
    apply in_app_or in H. destruct H as [H | H].
    { destruct (format ops) as [f|]; [|destruct H]. now exists f. }
    destruct (effects ops) as [e|]; [|destruct H].
    unfold opt_calls, effects_calls in H. apply in_app_or in H.
    destruct H as [H | H].
    + unfold trim_calls in H. destruct (trim e); [|destruct H].
      destruct H as [<- | H]; [contradiction |].
      destruct (_ <? _)%float; [|destruct H].
      destruct H as [<- | []]. contradiction.
    + apply hand_over_is_filter in H. destruct c; contradiction.
  - intros (f & Hf & H). rewrite Hf. apply in_or_app. right.
    apply in_or_app. now left.
Qed.

(** X30.  The command is given a sample rate, a channel count or a bitrate
    exactly when [format] holds one that is neither zero nor not a number,
    and it is given that one; the bitrate is followed by "k". *)
Theorem format_settings (ops : AudioOperations) :
  (forall x, In (audioFrequency x) (calls (compiled base ops)) <->
     exists f, format ops = Some f /\ sampleRate f = Some x /\
               JS.truthy x = true) /\
  (forall x, In (audioChannels x) (calls (compiled base ops)) <->
     exists f, format ops = Some f /\ channels f = Some x /\
               JS.truthy x = true) /\
  (forall s, In (audioBitrate s) (calls (compiled base ops)) <->
     exists f b, format ops = Some f /\ bitrate f = Some b /\
                 JS.truthy b = true /\ s = show b ++ "k").
Proof.
  assert (Htv : forall (o : option float) (x : float),
            JS.truthy_value o = Some x <-> o = Some x /\ JS.truthy x = true).
  { intros o x. unfold JS.truthy_value. split.
    - destruct o as [v|]; [|discriminate].
      destruct (JS.truthy v) eqn:Hv; [|discriminate].
      intros [= <-]. now split.
    - intros [-> ->]. reflexivity. }
  split; [|split]; intros x;
    rewrite format_calls_of_command by exact I; unfold format_calls.
  - split.
    + intros (f & Hf & H). exists f. split; [assumption |]. apply Htv.
      repeat (apply in_app_or in H; destruct H as [H | H]);
        match type of H with
        | In _ (match ?o with Some _ => _ | None => _ end) =>
            destruct o; [|destruct H]
        end; destruct H as [H | []]; congruence.
    + intros (f & Hf & Hx). exists f. split; [assumption |].
      apply Htv in Hx. rewrite Hx. now left.
  - split.
    + intros (f & Hf & H). exists f. split; [assumption |]. apply Htv.
      repeat (apply in_app_or in H; destruct H as [H | H]);
        match type of H with
        | In _ (match ?o with Some _ => _ | None => _ end) =>
            destruct o; [|destruct H]
        end; destruct H as [H | []]; congruence.
    + intros (f & Hf & Hx). exists f. split; [assumption |].
      apply Htv in Hx. rewrite Hx. apply in_or_app. right. now left.
  - split.
    + intros (f & Hf & H).
      repeat (apply in_app_or in H; destruct H as [H | H]);
        match type of H with
        | In _ (match ?o with Some _ => _ | None => _ end) =>
            destruct o eqn:Ho; [|destruct H]
        end; destruct H as [H | []]; try discriminate.
      injection H as <-. apply Htv in Ho. destruct Ho as [Hb Ht].
      now exists f, f0.
    + intros (f & b & Hf & Hb & Ht & ->). exists f. split; [assumption |].
      rewrite (proj2 (Htv _ _) (conj Hb Ht)).
      apply in_or_app. right. apply in_or_app. right. apply in_or_app. right.
      now left.
Qed.

End BaseCompilerOrder.

(** X7 at [{ effects: { trim: { start: 5, end: 15 } } }]: the duration is 10. *)
Lemma trim_seeks_and_caps_witness :
  effects MoreSamples.trimmed =
    Some {| fadeIn := None; fadeOut := None;
            trim := Some {| trim_start := 5; trim_end := 15 |}; loop := None |} /\
  In (duration 10)
     (calls (compiled (base_applyOperationsToCommand no_fraction) MoreSamples.trimmed)).
Proof.
  split; [reflexivity |].
  exact (proj2 (proj2 (trim_seeks_and_caps no_fraction MoreSamples.trimmed _
                         {| trim_start := 5; trim_end := 15 |} eq_refl eq_refl)
                      10%float)
               (conj eq_refl eq_refl)).
Defined.

(* ===================================================================== *)
(** * The advanced compiler: order, ignored fields, directives *)
(* ===================================================================== *)

Section AdvancedCompilerFacts.

Variable show_fraction : float -> string.
Variable Math_pow : float -> float -> float.

Abbreviation show := (show show_fraction).
Abbreviation base := (base_applyOperationsToCommand show_fraction).
Abbreviation advanced_compiler :=
  (advanced_applyOperationsToCommand show_fraction Math_pow).

(** X9.  The filters of the advanced compiler are those of the base compiler
    followed by, in this order: the pitch filter, the tempo filter, the
    spectral filter unless it is empty, the dynamics filters, the spatial
    filters and the modulation filters. *)
Theorem advanced_filter_order (ops : AudioOperations) :
  command_filters (compiled advanced_compiler ops) =
  (command_filters (compiled base ops) ++
   match advanced ops with
   | None => []
   | Some a =>
       match pitch a with
       | Some p => [buildPitchFilter show_fraction Math_pow p]
       | None => []
       end ++
       match tempo a with
       | Some t => [buildTempoFilter show_fraction t]
       | None => []
       end ++
       match spectral a with
       | Some s =>
           match buildSpectralFilter show_fraction s with
           | EmptyString => []
           | filter => [filter]
           end
       | None => []
       end ++
       match dynamics a with
       | Some d => buildDynamicsFilters show_fraction d
       | None => []
       end ++
       match spatial a with
       | Some s => buildSpatialFilters show_fraction s
       | None => []
       end ++
       match modulation a with
       | Some m => buildModulationFilters show_fraction m
       | None => []
       end
   end)%list.
Proof.
  rewrite advanced_command_filters. f_equal.
  destruct (advanced ops) as [a|]; [|reflexivity].
  unfold advanced_filters. do 2 f_equal.
  destruct (spectral a) as [s|]; [|reflexivity].
  destruct (buildSpectralFilter show_fraction s); reflexivity.
Qed.

(** X10.  The compiler reads nothing of [harmonics], [envelope],
    [variations] and [layering]: whatever they hold, the command is the
    same. *)
Theorem uncompiled_fields_are_ignored (ops : AudioOperations)
    (a : AdvancedEffectsOperation)
    (h : option HarmonicsOperation) (e : option EnvelopeOperation)
    (v : option VariationOperation) (l : option LayeringOperation) :
  compiled advanced_compiler
    (with_advanced ops (Some (with_uncompiled_fields a h e v l))) =
  compiled advanced_compiler (with_advanced ops (Some a)).
Proof.
  unfold compiled, advanced_applyOperationsToCommand, cbind.
  rewrite !base_run. cbn [with_advanced volume format effects advanced
    when_some snd fst]. rewrite !applyAdvancedOperations_run. reflexivity.
Qed.

(** X11.  The spectral filter is the empty string exactly when the operation
    has none of its five fields. *)
Theorem spectral_filter_empty_iff (s : SpectralOperation) :
  buildSpectralFilter show_fraction s = "" <-> no_band s.
Proof.
  unfold no_band, buildSpectralFilter, eqBands, mid_band_directive. split.
  - destruct (bassBoost s), (trebleBoost s), (midCut s), (warmth s),
      (brightness s); simpl; try discriminate. intros _. repeat split.
  - intros (-> & -> & -> & -> & ->). reflexivity.
Qed.

(** What the spatial compiler emits besides the feedback is no feedback
    directive. *)
Lemma pan_is_not_feedback (p : float) :
  is_feedback_directive (pan_directive show_fraction p) = false.
Proof. reflexivity. Qed.

(** X12.  The feedback of a delay.  An absent feedback and one that is zero or
    not a number both give the directive with 0.3; a feedback above zero gives
    the directive with that feedback; one below zero gives no feedback
    directive at all. *)
Theorem delay_feedback_directive (s : SpatialOperation) (t : float) :
  delayTime s = Some t ->
  let filters := buildSpatialFilters show_fraction s in
  let said (f : float) := In ("afeedback=feedback=" ++ show f) filters in
  match delayFeedback s with
  | None => said 0.3%float
  | Some f =>
      (JS.truthy f = false -> said 0.3%float) /\
      ((0 <? f)%float = true -> said f) /\
      ((f <? 0)%float = true ->
       forall d, In d filters -> is_feedback_directive d = false)
  end.
Proof.
  intros Ht. cbv zeta. unfold buildSpatialFilters. rewrite Ht.
  cbn [List.concat].
  assert (Hsaid : forall (A B C : list string) (f : float),
    (0 <? JS.or_default (delayFeedback s) 0.3)%float = true ->
    JS.or_default (delayFeedback s) 0.3%float = f ->
    In ("afeedback=feedback=" ++ show f)
       (A ++ B ++
        (("adelay=" ++ show t ++ "|" ++ show t)%string
         :: (if (0 <? JS.or_default (delayFeedback s) 0.3)%float
             then [("afeedback=feedback=" ++
                    show (JS.or_default (delayFeedback s) 0.3%float))%string]
             else [])) ++ C)%list).
  { intros A B C f Hpos Hf. rewrite Hpos, Hf.
    apply in_or_app. right. apply in_or_app. right.
    apply in_or_app. left. right. now left. }
  destruct (delayFeedback s) as [f|] eqn:Hfb.
  - split; [|split].
    + intros Hfalsy. apply Hsaid; unfold JS.or_default; rewrite Hfalsy;
        reflexivity.
    + intros Hpos. pose proof (truthy_above_zero f Hpos) as Htr.
      apply Hsaid; unfold JS.or_default; rewrite Htr; [exact Hpos | reflexivity].
    + intros Hneg d Hd. pose proof (truthy_below_zero f Hneg) as Htr.
      destruct (below_zero f Hneg) as (_ & _ & Hnot & _).
      unfold JS.or_default in Hd. rewrite Htr, Hnot in Hd.
      apply in_app_or in Hd. destruct Hd as [Hd | Hd].
      { destruct (stereoWidth s); [|destruct Hd].
        destruct Hd as [<- | []]. reflexivity. }
      apply in_app_or in Hd. destruct Hd as [Hd | Hd].
      { destruct (panPosition s); [|destruct Hd].
        destruct Hd as [<- | []]. reflexivity. }
      apply in_app_or in Hd. destruct Hd as [Hd | Hd].
      { destruct Hd as [<- | []]. reflexivity. }
      apply in_app_or in Hd. destruct Hd as [Hd | []].
      destruct (reverbSend s); [|destruct Hd].
      destruct Hd as [<- | []]. reflexivity.
  - apply Hsaid; reflexivity.
Qed.

(** X13.  The pan directive.  For a position to the right of the centre the
    left channel is kept as it is and the right channel is attenuated and
    given a share of the left; for one to the left it is the other way
    round. *)
Theorem pan_directive_sides (p : float) :
  ((0 <? p)%float = true ->
   pan_directive show_fraction p =
   "pan=stereo|c0=1*c0+0*c1|c1=" ++ show (1 - abs p)%float ++ "*c1+" ++
   show p ++ "*c0") /\
  ((p <? 0)%float = true ->
   pan_directive show_fraction p =
   "pan=stereo|c0=" ++ show (1 - abs p)%float ++ "*c0+" ++
   show (- p)%float ++ "*c1|c1=1*c1+0*c0").
Proof.
  unfold pan_directive, JS.Math_min, JS.Math_max, JS.Math_abs. split.
  - intros H. destruct (above_zero p H) as (Hn & _ & Hlt & Hn' & Hlt' & Hgt').
    change (is_nan 0) with false. cbn [orb].
    rewrite Hn, Hn', H, Hlt', Hgt'. reflexivity.
  - intros H. destruct (below_zero p H) as (Hn & _ & Hlt & Hn' & Hlt' & Hgt').
    change (is_nan 0) with false. cbn [orb].
    rewrite Hn, Hn', H, Hlt, Hlt'. reflexivity.
Qed.

(** The labels of the graph, spelled out. *)
Lemma label_processed (i : nat) :
  label "processed" i = "[processed" ++ JS.string_of_nat i ++ "]" /\
  label "processed" i ++ ";" = "[processed" ++ JS.string_of_nat i ++ "];".
Proof.
  unfold label. split; [reflexivity |].
  cbn [append]. now rewrite append_assoc.
Qed.

Lemma join_concat (sep : string) (l : list string) :
  join sep l = String.concat sep l.
Proof.
  induction l as [|x [|y l] IH]; [reflexivity | reflexivity |].
  change (join sep (x :: y :: l)) with (x ++ sep ++ join sep (y :: l)).
  now rewrite IH.
Qed.

(** The rounds of the loop whose index is within the input files all
    append a section. *)
Lemma layer_sections_within (inputs : nat) (ls : list Layer) (i : nat) :
  i + length ls <= inputs ->
  layer_sections show_fraction Math_pow inputs i ls =
  map (fun il => layerFilter show_fraction Math_pow (fst il) (snd il) ++
                 "[processed" ++ JS.string_of_nat (fst il) ++ "];")
      (combine (seq i (length ls)) ls).
Proof.
  revert i. induction ls as [|layer ls IH]; intros i Hle; [reflexivity |].
  cbn [layer_sections length seq combine map fst snd]. cbn [length] in Hle.
  rewrite IH by lia. unfold layer_section.
  assert (Hb : (i <? inputs)%nat = true) by (apply Nat.ltb_lt; lia).
  rewrite Hb. now rewrite (proj2 (label_processed i)).
Qed.

(** X14.  With no more layers than input files, the graph is the sections
    of all the layers, the section of layer [i] being its chain followed by
    [[processed<i>];], then the labels [[processed0]] ... [[processed<n-1>]]
    and the directive [amix=inputs=<n>:duration=longest:
    dropout_transition=2[final]]: the streams the mix-down takes are exactly
    the streams the sections produce. *)
Theorem layers_within_inputs_are_all_produced (inputFiles : list string)
    (l : LayeringOperation) :
  length (layers l) <= length inputFiles ->
  let n := length (layers l) in
  buildLayeringFilter show_fraction Math_pow inputFiles l =
    String.concat ""
      (map (fun il => layerFilter show_fraction Math_pow (fst il) (snd il) ++
                      "[processed" ++ JS.string_of_nat (fst il) ++ "];")
           (combine (seq 0 n) (layers l))) ++
    String.concat ""
      (map (fun i => "[processed" ++ JS.string_of_nat i ++ "]") (seq 0 n)) ++
    "amix=inputs=" ++ JS.string_of_nat n ++
    ":duration=longest:dropout_transition=2[final]" /\
  produced inputFiles l = mixed l /\
  forall i layer, nth_error (layers l) i = Some layer ->
    nth_error (layer_sections show_fraction Math_pow (length inputFiles) 0
                 (layers l)) i =
    Some (layerFilter show_fraction Math_pow i layer ++
          "[processed" ++ JS.string_of_nat i ++ "];").
Proof.
  intros Hle. cbv zeta. split; [|split].
  - unfold buildLayeringFilter, mix_down, mixInputs, mix_labels. cbv zeta.
    rewrite layer_sections_within by (cbn [Nat.add]; exact Hle).
    rewrite (join_concat ""
               (map (label "processed") (seq 0 (length (layers l))))).
    rewrite (map_ext (label "processed")
               (fun i => "[processed" ++ JS.string_of_nat i ++ "]")
               (fun i => proj1 (label_processed i))).
    reflexivity.
  - unfold produced, mixed. apply forallb_filter_id.
    apply forallb_forall. intros i Hi. apply in_seq in Hi.
    apply Nat.ltb_lt. lia.
  - intros i layer Hi. rewrite (layer_sections_nth _ _ _ 0 i _ layer Hi).
    unfold layer_section. cbn [Nat.add].
    assert (Hlt : i < length (layers l)).
    { apply nth_error_Some. congruence. }
    assert (Hb : (i <? length inputFiles)%nat = true) by (apply Nat.ltb_lt; lia).
    rewrite Hb. now rewrite (proj2 (label_processed i)).
Qed.

(** X20.  The command of the job [createHarmonicVariations] runs for an
    interval has one filter, the pitch shift by the interval's semitones:
    the two layers and the mix are not in it, so the command is the same
    for every mix. *)
Theorem harmonic_job_is_a_pitch_shift (st m : float) :
  command_filters (compiled advanced_compiler (harmonic_ops st m)) =
    [buildPitchFilter show_fraction Math_pow
       {| semitones := st; cents := None; preserveFormants := None |}] /\
  forall m', compiled advanced_compiler (harmonic_ops st m') =
             compiled advanced_compiler (harmonic_ops st m).
Proof. split; [reflexivity | intros m'; reflexivity]. Qed.

End AdvancedCompilerFacts.

(** X12 at [{ delayTime: 150, delayFeedback: 0 }]: the feedback is 0.3. *)
Lemma delay_feedback_directive_witness :
  delayTime MoreSamples.delay_without_feedback = Some 150%float /\
  In ("afeedback=feedback=" ++ show no_fraction 0.3%float)
     (buildSpatialFilters no_fraction MoreSamples.delay_without_feedback).
Proof.
  split; [reflexivity |].
  exact (proj1 (delay_feedback_directive no_fraction
                  MoreSamples.delay_without_feedback 150%float eq_refl)
               eq_refl).
Defined.

(** X13 at the position 1, hard right: the right channel is silenced. *)
Lemma pan_directive_sides_witness :
  (0 <? 1)%float = true /\
  pan_directive no_fraction 1 = "pan=stereo|c0=1*c0+0*c1|c1=0*c1+1*c0".
Proof.
  split; [reflexivity |].
  exact (proj1 (pan_directive_sides no_fraction 1%float) eq_refl).
Defined.

(** X14 at two layers over two input files. *)
Lemma layers_within_inputs_are_all_produced_witness :
  length (layers Sample.two_layers) <= length ["a.wav"; "b.wav"] /\
  buildLayeringFilter no_fraction (fun _ x => x) ["a.wav"; "b.wav"]
    Sample.two_layers =
  "[0:a][processed0];[1:a][processed1];[processed0][processed1]amix=inputs=2:duration=longest:dropout_transition=2[final]".
Proof.
  split; [simpl; lia |].
  refine (proj1 (layers_within_inputs_are_all_produced no_fraction
                   (fun _ x => x) ["a.wav"; "b.wav"] Sample.two_layers _)).
  simpl; lia.
Defined.

(* ===================================================================== *)
(** * Layering and harmonics as jobs *)
(* ===================================================================== *)

Section LayeringAndHarmonics.

Context {World : Type} (host : Host World).
Variable show_fraction : float -> string.
Variable Math_pow : float -> float -> float.

(** A job returns a result that echoes its input, its output and its
    operations. *)
Lemma processAudioFile_echo (compiler : AudioOperations -> Cmd unit)
    (input output : string) (ops : AudioOperations) (overwrite : bool)
    (w : World) :
  exists r w',
    processAudioFile host compiler input output ops overwrite w =
      (Returned r, w') /\
    inputFile r = input /\ outputFile r = output /\ operations r = ops.
Proof.
  rewrite processAudioFile_run.
  destruct (job_steps host compiler input output ops overwrite w)
    as [[[]|t] w1]; eexists; eexists; (split; [reflexivity |]); simpl; auto.
Qed.

(** With no file to validate nothing happens. *)
Lemma validate_each_nonempty (inputFiles : list string) (w w1 : World)
    (t : Thrown) :
  validate_each host inputFiles w = (Threw t, w1) ->
  (length inputFiles =? 0)%nat = false.
Proof.
  destruct inputFiles; [discriminate | reflexivity].
Qed.

Section Layering.

Variable engine_run_layers : LayerCommand -> string -> World -> option string * World.

Abbreviation layerSounds' :=
  (layerSounds host show_fraction Math_pow engine_run_layers).

(** X15.  [layerSounds] never throws: it returns a result that names the
    input files joined by ", ", the output and the layering it was given,
    that carries an error message exactly when it is not a success, and
    whose time is what the clock advanced by. *)
Theorem layerSounds_always_returns (inputFiles : list string)
    (output : string) (layering : LayeringOperation) (overwrite : bool)
    (w : World) :
  exists r w',
    layerSounds' inputFiles output layering overwrite w = (Returned r, w') /\
    inputFile r = String.concat ", " inputFiles /\
    outputFile r = output /\
    operations r =
      {| volume := None; format := None; effects := None;
         advanced :=
           Some {| pitch := None; tempo := None; harmonics := None;
                   spectral := None; dynamics := None; spatial := None;
                   envelope := None; modulation := None; variations := None;
                   layering := Some layering |} |} /\
    processingTime r = (Date_now host w' - Date_now host w)%Z /\
    (success r = true <-> error r = None).
Proof.
  unfold layerSounds. unfold bind at 1. unfold now at 1. cbv beta iota.
  unfold try_catch.
  match goal with
  | |- context [match ?body w with _ => _ end] =>
      destruct (body w) as [[r|t] w1] eqn:Hbody
  end.
  - unfold bind, now, ret in Hbody.
    repeat match type of Hbody with
    | context [match ?m ?x with _ => _ end] =>
        destruct (m x) as [[[]|?] ?]; try discriminate
    | context [if ?b then _ else _] => destruct b; try discriminate
    end.
    injection Hbody as <- <-. eexists. eexists.
    split; [reflexivity |]. cbn [inputFile outputFile operations
      processingTime success error]. rewrite join_concat.
    repeat split; auto; discriminate.
  - unfold bind, now, ret. eexists. eexists.
    split; [reflexivity |]. cbn [inputFile outputFile operations
      processingTime success error]. rewrite join_concat.
    repeat split; auto; discriminate.
Qed.

(** X16.  With no input file [layerSounds] fails at once, with the message
    "No input files provided for layering"; nothing is looked up or made,
    and the engine is not run. *)
Theorem layerSounds_without_inputs (output : string)
    (layering : LayeringOperation) (overwrite : bool) (w : World) :
  layerSounds' [] output layering overwrite w =
  (Returned {| success := false; inputFile := ""; outputFile := output;
               processingTime := Date_now host w - Date_now host w;
               operations := layering_ops layering;
               error := Some "No input files provided for layering" |}, w).
Proof. reflexivity. Qed.

(** X17.  When one of the input files does not validate, [layerSounds] fails
    with the message of what validation threw, in the world validation
    left: no directory is made and the engine is not run. *)
Theorem layerSounds_invalid_input (inputFiles : list string)
    (output : string) (layering : LayeringOperation) (overwrite : bool)
    (w w1 : World) (t : Thrown) :
  validate_each host inputFiles w = (Threw t, w1) ->
  layerSounds' inputFiles output layering overwrite w =
  (Returned {| success := false; inputFile := join ", " inputFiles;
               outputFile := output;
               processingTime := Date_now host w1 - Date_now host w;
               operations := layering_ops layering;
               error := Some (error_text t) |}, w1).
Proof.
  intros Hv. unfold layerSounds, bind, try_catch, now, ret, throw.
  rewrite (validate_each_nonempty _ _ _ _ Hv), Hv. reflexivity.
Qed.

(** X18.  When every step before it passes, the engine is run on a command
    with the input files in the order given and the graph
    [buildLayeringFilter] builds; when the engine ends well the result is
    a success. *)
Theorem layerSounds_runs_the_graph (inputFiles : list string)
    (output : string) (layering : LayeringOperation) (overwrite : bool)
    (w w1 w2 w3 w4 : World) :
  inputFiles <> [] ->
  validate_each host inputFiles w = (Returned tt, w1) ->
  ensureOutputDirectory host output w1 = (Returned tt, w2) ->
  handleExistingOutput host output overwrite w2 = (Returned tt, w3) ->
  engine_run_layers
    {| layer_inputs := inputFiles;
       layer_graph := buildLayeringFilter show_fraction Math_pow inputFiles
                        layering |} output w3 = (None, w4) ->
  layerSounds' inputFiles output layering overwrite w =
  (Returned {| success := true; inputFile := join ", " inputFiles;
               outputFile := output;
               processingTime := Date_now host w4 - Date_now host w;
               operations := layering_ops layering;
               error := None |}, w4).
Proof.
  intros Hne Hv He Hh Hr.
  unfold layerSounds, bind, try_catch, now, ret, throw, executeLayerCommand.
  destruct inputFiles as [|file rest]; [contradiction |].
  cbn [length Nat.eqb]. rewrite Hv, He, Hh, Hr. reflexivity.
Qed.

End Layering.

Section Harmonics.

Abbreviation harmonics_loop' := (harmonics_loop host show_fraction Math_pow).

Lemma harmonics_loop_results (input directory : string) (overwrite : bool)
    (intervals : list Interval) (w : World) :
  exists rs w',
    harmonics_loop' input directory overwrite intervals w = (Returned rs, w') /\
    map outputFile rs =
      map (fun im => harmonic_path host input directory (fst im))
          (audible intervals) /\
    map operations rs =
      map (fun im => harmonic_ops (interval_semitones (fst im)) (snd im))
          (audible intervals) /\
    Forall (fun r => inputFile r = input) rs.
Proof.
  revert w. induction intervals as [|interval rest IH]; intros w.
  - exists [], w. repeat split; constructor.
  - cbn [harmonics_loop audible].
    destruct (positive_mix (interval_mix interval)) as [m|]; [|apply IH].
    unfold bind at 1.
    match goal with
    | |- context [processAudioFile host ?c ?i ?o ?ops ?ow w] =>
        destruct (processAudioFile_echo c i o ops ow w)
          as (r & w1 & -> & Hin & Hout & Hops)
    end.
    unfold bind at 1.
    destruct (IH w1) as (rs & w2 & -> & Houts & Hopss & Hins).
    exists (r :: rs), w2. split; [reflexivity |].
    cbn [map fst snd]. rewrite Hout, Hops, Houts, Hopss.
    repeat split. now constructor.
Qed.

Lemma map_pair {A B C D : Type} (f : A -> B) (g : A -> C)
    (f' : D -> B) (g' : D -> C) (rs : list A) (l : list D) :
  map f rs = map f' l -> map g rs = map g' l ->
  map (fun r => (f r, g r)) rs = map (fun x => (f' x, g' x)) l.
Proof.
  revert l. induction rs as [|r rs IH]; intros [|x l] Hf Hg;
    try discriminate; [reflexivity |].
  cbn [map] in *. injection Hf as Hf1 Hf2. injection Hg as Hg1 Hg2.
  now rewrite Hf1, Hg1, (IH l Hf2 Hg2).
Qed.

(** X19.  [createHarmonicVariations] never throws.  It returns one result for
    each of the four intervals whose mix is above zero, in the order octave
    up (12 semitones), octave down (-12), fifth up (7), third up (4); the
    result of an interval is that of the job that reads the input file,
    writes [<name>_<interval><ext>] in the output directory, and has the
    operations [{ advanced: { pitch: { semitones }, layering: { layers:
    [{ blend: mix, volume: 1 - mix }, { blend: add, volume: mix, pitch:
    semitones }] } } }]. *)
Theorem createHarmonicVariations_results (input directory : string)
    (harmonics : HarmonicsOperation) (overwrite : bool) (w : World) :
  let job (name : string) (st : float) (level : option float)
      : list (string * AudioOperations) :=
    match level with
    | Some m =>
        if JS.truthy m && (0 <? m)%float
        then
          [(path_join host directory
              (path_parse_name host input ++ "_" ++ name ++
               path_extname host input),
            {| volume := None; format := None; effects := None;
               advanced :=
                 Some {| pitch := Some {| semitones := st; cents := None;
                                          preserveFormants := None |};
                         tempo := None; harmonics := None; spectral := None;
                         dynamics := None; spatial := None; envelope := None;
                         modulation := None; variations := None;
                         layering :=
                           Some {| layers :=
                             [{| blend := mix; layer_delay := None;
                                 layer_pitch := None;
                                 layer_volume := Some (1 - m)%float;
                                 layer_pan := None |};
                              {| blend := add; layer_delay := None;
                                 layer_pitch := Some st;
                                 layer_volume := Some m;
                                 layer_pan := None |}] |} |} |})]
        else []
    | None => []
    end in
  exists rs w',
    createHarmonicVariations host show_fraction Math_pow input directory
      harmonics overwrite w = (Returned rs, w') /\
    map (fun r => (outputFile r, operations r)) rs =
      (job "octave_up" 12%float (octaveUp harmonics) ++
       job "octave_down" (-12)%float (octaveDown harmonics) ++
       job "fifth_up" 7%float (fifthUp harmonics) ++
       job "third_up" 4%float (thirdUp harmonics))%list /\
    Forall (fun r => inputFile r = input) rs.
Proof.
  cbv zeta. unfold createHarmonicVariations.
  destruct (harmonics_loop_results input directory overwrite
              (harmonicIntervals harmonics) w)
    as (rs & w' & Hrun & Houts & Hops & Hins).
  exists rs, w'. split; [exact Hrun |]. split; [|exact Hins].
  rewrite (map_pair _ _ _ _ _ _ Houts Hops).
  unfold harmonicIntervals. cbn [audible interval_mix]. unfold positive_mix.
  destruct (octaveUp harmonics) as [x1|];
    [destruct (JS.truthy x1 && (0 <? x1)%float) |];
    (destruct (octaveDown harmonics) as [x2|];
       [destruct (JS.truthy x2 && (0 <? x2)%float) |]);
    (destruct (fifthUp harmonics) as [x3|];
       [destruct (JS.truthy x3 && (0 <? x3)%float) |]);
    (destruct (thirdUp harmonics) as [x4|];
       [destruct (JS.truthy x4 && (0 <? x4)%float) |]);
    reflexivity.
Qed.

(** A mix counts when it is above zero, and only then: an absent mix, a
    zero, a negative one and one that is not a number all leave the interval
    out. *)
Lemma positive_mix_iff (x : option float) (m : float) :
  positive_mix x = Some m <-> x = Some m /\ (0 <? m)%float = true.
Proof.
  unfold positive_mix. split.
  - destruct x as [v|]; [|discriminate].
    destruct (JS.truthy v); [|discriminate]. cbn [andb].
    destruct (0 <? v)%float eqn:Hv; [|discriminate].
    intros [= <-]. now split.
  - intros [-> Hm]. now rewrite (truthy_above_zero m Hm), Hm.
Qed.

(** X21.  When no mix is above zero [createHarmonicVariations] returns the
    empty list and does nothing: no file is looked up, no job is run. *)
Theorem createHarmonicVariations_silent (input directory : string)
    (harmonics : HarmonicsOperation) (overwrite : bool) (w : World) :
  positive_mix (octaveUp harmonics) = None ->
  positive_mix (octaveDown harmonics) = None ->
  positive_mix (fifthUp harmonics) = None ->
  positive_mix (thirdUp harmonics) = None ->
  createHarmonicVariations host show_fraction Math_pow input directory
    harmonics overwrite w = (Returned [], w).
Proof.
  intros H1 H2 H3 H4. unfold createHarmonicVariations, harmonicIntervals.
  cbn [harmonics_loop interval_mix]. rewrite H1, H2, H3, H4. reflexivity.
Qed.

End Harmonics.

End LayeringAndHarmonics.

(** X15 with two input files, the second of which is missing: the result
    still names both files and the layering. *)
Lemma layerSounds_always_returns_witness :
  exists r w',
    layerSounds Sample.host no_fraction (fun _ x => x) MoreSamples.run_layers
      ["in/a.wav"; "in/b.wav"] "out/mix.wav" Sample.two_layers false
      MoreSamples.one_file = (Returned r, w') /\
    inputFile r = "in/a.wav, in/b.wav" /\
    outputFile r = "out/mix.wav" /\
    operations r =
      {| volume := None; format := None; effects := None;
         advanced :=
           Some {| pitch := None; tempo := None; harmonics := None;
                   spectral := None; dynamics := None; spatial := None;
                   envelope := None; modulation := None; variations := None;
                   layering :=
                     Some {| layers :=
                       [{| blend := mix; layer_delay := None;
                           layer_pitch := None; layer_volume := None;
                           layer_pan := None |};
                        {| blend := add; layer_delay := None;
                           layer_pitch := None; layer_volume := None;
                           layer_pan := None |}] |} |} |}.
Proof.
  destruct (layerSounds_always_returns Sample.host no_fraction (fun _ x => x)
              MoreSamples.run_layers ["in/a.wav"; "in/b.wav"] "out/mix.wav"
              Sample.two_layers false MoreSamples.one_file)
    as (r & w' & Hrun & Hin & Hout & Hops & _).
  exists r, w'. split; [exact Hrun |]. split; [exact Hin |].
  split; [exact Hout | exact Hops].
Defined.

(** X19 at [{ octaveUp: 0.5, octaveDown: 0, thirdUp: 0.25 }]: two jobs, the
    octave up and the third up. *)
Lemma createHarmonicVariations_results_witness :
  let ops (st lower upper : float) : AudioOperations :=
    {| volume := None; format := None; effects := None;
       advanced :=
         Some {| pitch := Some {| semitones := st; cents := None;
                                  preserveFormants := None |};
                 tempo := None; harmonics := None; spectral := None;
                 dynamics := None; spatial := None; envelope := None;
                 modulation := None; variations := None;
                 layering :=
                   Some {| layers :=
                     [{| blend := mix; layer_delay := None;
                         layer_pitch := None; layer_volume := Some lower;
                         layer_pan := None |};
                      {| blend := add; layer_delay := None;
                         layer_pitch := Some st; layer_volume := Some upper;
                         layer_pan := None |}] |} |} |} in
  exists rs w',
    createHarmonicVariations Sample.host no_fraction pow_exact_cases
      "in/a.wav" "out" MoreSamples.some_harmonics false MoreSamples.one_file =
      (Returned rs, w') /\
    map (fun r => (outputFile r, operations r)) rs =
      [("out/a_octave_up.wav", ops 12%float 0.5%float 0.5%float);
       ("out/a_third_up.wav", ops 4%float 0.75%float 0.25%float)].
Proof.
  cbv zeta.
  destruct (createHarmonicVariations_results Sample.host no_fraction
              pow_exact_cases "in/a.wav" "out" MoreSamples.some_harmonics
              false MoreSamples.one_file)
    as (rs & w' & Hrun & Hjobs & _).
  exists rs, w'. split; [exact Hrun | exact Hjobs].
Defined.

(** X17 with a second input file that is missing. *)
Lemma layerSounds_invalid_input_witness :
  validate_each Sample.host ["in/a.wav"; "in/b.wav"] MoreSamples.one_file =
    (Threw (FFmpegError "Cannot access input file: in/b.wav - ENOENT: no such file or directory, in/b.wav"),
     MoreSamples.at_time 3 MoreSamples.one_file) /\
  layerSounds Sample.host no_fraction (fun _ x => x) MoreSamples.run_layers
    ["in/a.wav"; "in/b.wav"] "out/mix.wav" Sample.two_layers false
    MoreSamples.one_file =
  (Returned {| success := false; inputFile := "in/a.wav, in/b.wav";
               outputFile := "out/mix.wav"; processingTime := 3;
               operations := layering_ops Sample.two_layers;
               error := Some "Cannot access input file: in/b.wav - ENOENT: no such file or directory, in/b.wav" |},
   MoreSamples.at_time 3 MoreSamples.one_file).
Proof.
  split; [reflexivity |].
  exact (layerSounds_invalid_input Sample.host no_fraction (fun _ x => x)
           MoreSamples.run_layers ["in/a.wav"; "in/b.wav"] "out/mix.wav"
           Sample.two_layers false MoreSamples.one_file
           (MoreSamples.at_time 3 MoreSamples.one_file)
           (FFmpegError "Cannot access input file: in/b.wav - ENOENT: no such file or directory, in/b.wav")
           eq_refl).
Defined.

(** X18 with one input file that exists. *)
Lemma layerSounds_runs_the_graph_witness :
  ["in/a.wav"] <> [] /\
  validate_each Sample.host ["in/a.wav"] MoreSamples.one_file =
    (Returned tt, MoreSamples.at_time 2 MoreSamples.one_file) /\
  ensureOutputDirectory Sample.host "out/mix.wav"
    (MoreSamples.at_time 2 MoreSamples.one_file) =
    (Returned tt, MoreSamples.at_time 4 MoreSamples.one_file) /\
  handleExistingOutput Sample.host "out/mix.wav" false
    (MoreSamples.at_time 4 MoreSamples.one_file) =
    (Returned tt, MoreSamples.at_time 5 MoreSamples.one_file) /\
  layerSounds Sample.host no_fraction (fun _ x => x) MoreSamples.run_layers
    ["in/a.wav"] "out/mix.wav" {| layers := [Sample.plain_layer mix] |} false
    MoreSamples.one_file =
  (Returned {| success := true; inputFile := "in/a.wav";
               outputFile := "out/mix.wav"; processingTime := 15;
               operations := layering_ops {| layers := [Sample.plain_layer mix] |};
               error := None |},
   {| Sample.clock := 15; Sample.randoms := [];
      Sample.files := ["out/mix.wav"; "in/a.wav"] |}).
Proof.
  split; [discriminate |]. split; [reflexivity |]. split; [reflexivity |].
  split; [reflexivity |].
  refine (layerSounds_runs_the_graph Sample.host no_fraction (fun _ x => x)
            MoreSamples.run_layers ["in/a.wav"] "out/mix.wav"
            {| layers := [Sample.plain_layer mix] |} false
            MoreSamples.one_file
            (MoreSamples.at_time 2 MoreSamples.one_file)
            (MoreSamples.at_time 4 MoreSamples.one_file)
            (MoreSamples.at_time 5 MoreSamples.one_file)
            {| Sample.clock := 15; Sample.randoms := [];
               Sample.files := ["out/mix.wav"; "in/a.wav"] |}
            _ eq_refl eq_refl eq_refl eq_refl).
  discriminate.
Defined.

(** X21 at [{ octaveUp: 0 }]. *)
Lemma createHarmonicVariations_silent_witness :
  positive_mix (Some 0%float) = None /\
  createHarmonicVariations Sample.host no_fraction (fun _ x => x)
    "in/a.wav" "out"
    {| octaveUp := Some 0%float; octaveDown := None; fifthUp := None;
       thirdUp := None |} false Sample.empty_world =
  (Returned [], Sample.empty_world).
Proof.
  split; [reflexivity |].
  exact (createHarmonicVariations_silent Sample.host no_fraction
           (fun _ x => x) "in/a.wav" "out"
           {| octaveUp := Some 0%float; octaveDown := None; fifthUp := None;
              thirdUp := None |} false Sample.empty_world
           eq_refl eq_refl eq_refl eq_refl).
Defined.

(* ===================================================================== *)
(** * The variation generator: names, failures, what the ranges do *)
(* ===================================================================== *)

Section VariationNames.

Context {World : Type} (host : Host World).
Variable applyOperationsToCommand : AudioOperations -> Cmd unit.

Abbreviation variations_loop' := (variations_loop host applyOperationsToCommand).
Abbreviation generateVariations' :=
  (generateVariations host applyOperationsToCommand).

Lemma variations_loop_names (input dir : string) (v : VariationOperation)
    (base : option AudioOperations) (overwrite : bool) (n : nat) :
  forall (i : nat) (state : float) (w : World),
  exists rs w',
    variations_loop' input dir v base overwrite n i state w = (Returned rs, w') /\
    map outputFile rs = map (variation_path host input dir) (seq (i + 1) n) /\
    map operations rs = map (variationOps base) (perturbations v n state) /\
    Forall (fun r => inputFile r = input) rs.
Proof.
  induction n as [|n IH]; intros i state w.
  - exists [], w. repeat split; constructor.
  - cbn [variations_loop perturbations seq].
    destruct (generateRandomVariation v state) as [variation state'].
    unfold bind at 1.
    match goal with
    | |- context [processAudioFile host ?c ?inp ?o ?ops ?ow w] =>
        destruct (processAudioFile_echo host c inp o ops ow w)
          as (r & w1 & -> & Hin & Hout & Hops)
    end.
    unfold bind at 1.
    destruct (IH (S i) state' w1) as (rs & w2 & -> & Houts & Hopss & Hins).
    exists (r :: rs), w2. split; [reflexivity |].
    cbn [map]. rewrite Hout, Hops, Houts, Hopss.
    replace (S i + 1) with (S (i + 1)) by lia.
    repeat split. now constructor.
Qed.

(** X22.  When the input validates and the output directory is ready,
    [generateVariations] returns [count] results, numbered from 1: the
    [k]-th is the result of the job that reads the input and writes
    [<name>_var<k><ext>] in the output directory.  A [count] of zero or
    less gives the empty list. *)
Theorem generateVariations_names (input dir : string) (v : VariationOperation)
    (base : option AudioOperations) (overwrite : bool) (w w1 w2 : World) :
  validateInputFile host input w = (Returned tt, w1) ->
  ensureOutputDirectory host dir w1 = (Returned tt, w2) ->
  exists rs w',
    generateVariations' input dir v base overwrite w = (Returned rs, w') /\
    length rs = Z.to_nat (count v) /\
    map outputFile rs =
      map (variation_path host input dir) (seq 1 (Z.to_nat (count v))) /\
    Forall (fun r => inputFile r = input) rs.
Proof.
  intros Hv He. unfold generateVariations, try_catch.
  unfold bind at 1. rewrite Hv. unfold bind at 1. rewrite He.
  unfold bind at 1.
  destruct (choose_seed host v w2) as [[s|t] w3] eqn:Hs.
  - destruct (variations_loop_names input dir v base overwrite
                (Z.to_nat (count v)) 0 s w3)
      as (rs & w4 & -> & Houts & _ & Hins).
    exists rs, w4. split; [reflexivity |]. repeat split; auto.
    rewrite <- (length_map outputFile), Houts, length_map, length_seq.
    reflexivity.
  - exfalso. unfold choose_seed, bind, random, ret in Hs.
    destruct (JS.truthy_value (seed v)); [discriminate |].
    destruct (Math_random host w2); discriminate.
Qed.

(** X23.  [generateVariations] throws only when the input does not validate
    or the output directory cannot be prepared, and what it throws then is
    an [FFmpegError] whose message is that of the failure behind "Variation
    generation failed: "; a job that fails does not make it throw. *)
Theorem generateVariations_failure (input dir : string) (v : VariationOperation)
    (base : option AudioOperations) (overwrite : bool) (w w' : World)
    (t : Thrown) :
  generateVariations' input dir v base overwrite w = (Threw t, w') <->
  exists t0,
    t = FFmpegError ("Variation generation failed: " ++ message_of t0) /\
    (validateInputFile host input w = (Threw t0, w') \/
     exists w1, validateInputFile host input w = (Returned tt, w1) /\
                ensureOutputDirectory host dir w1 = (Threw t0, w')).
Proof.
  split.
  - intros H.
    destruct (validateInputFile host input w) as [[[]|t1] w1] eqn:Hv.
    + destruct (ensureOutputDirectory host dir w1) as [[[]|t2] w2] eqn:He.
      * exfalso. unfold generateVariations, try_catch in H.
        unfold bind at 1 in H. rewrite Hv in H.
        unfold bind at 1 in H. rewrite He in H.
        unfold bind at 1 in H.
        destruct (choose_seed host v w2) as [[s|t3] w3] eqn:Hs.
        -- destruct (variations_loop_names input dir v base overwrite
                       (Z.to_nat (count v)) 0 s w3) as (rs & w4 & Hrun & _).
           rewrite Hrun in H. discriminate.
        -- unfold choose_seed, bind, random, ret in Hs.
           destruct (JS.truthy_value (seed v)); [discriminate |].
           destruct (Math_random host w2); discriminate.
      * unfold generateVariations, try_catch, bind, throw in H.
        rewrite Hv, He in H. injection H as <- <-.
        exists t2. split; [reflexivity |]. right. now exists w1.
    + unfold generateVariations, try_catch, bind, throw in H.
      rewrite Hv in H. injection H as <- <-.
      exists t1. split; [reflexivity |]. now left.
  - intros (t0 & -> & [Hv | (w1 & Hv & He)]);
      unfold generateVariations, try_catch, bind, throw.
    + now rewrite Hv.
    + now rewrite Hv, He.
Qed.

(** X26.  Without a seed (or with one that is zero or not a number) the
    generator is seeded with [Math.floor(Math.random() * 1000000)] from one
    call of [Math.random], made after the checks, and the perturbations are
    those of that seed. *)
Theorem unseeded_variations_draw_one_seed (input dir : string)
    (v : VariationOperation) (base : option AudioOperations) (overwrite : bool)
    (w w1 w2 w3 : World) (r : float) :
  JS.truthy_value (seed v) = None ->
  validateInputFile host input w = (Returned tt, w1) ->
  ensureOutputDirectory host dir w1 = (Returned tt, w2) ->
  Math_random host w2 = (r, w3) ->
  generateVariations' input dir v base overwrite w =
    variations_loop' input dir v base overwrite (Z.to_nat (count v)) 0
      (random_seed r) w3 /\
  exists rs w',
    generateVariations' input dir v base overwrite w = (Returned rs, w') /\
    map operations rs =
      map (variationOps base)
          (perturbations v (Z.to_nat (count v)) (random_seed r)).
Proof.
  intros Hseed Hv He Hr.
  assert (Hrun : generateVariations' input dir v base overwrite w =
                 variations_loop' input dir v base overwrite
                   (Z.to_nat (count v)) 0 (random_seed r) w3).
  { unfold generateVariations, try_catch.
    unfold bind at 1. rewrite Hv. unfold bind at 1. rewrite He.
    unfold bind at 1. unfold choose_seed. rewrite Hseed.
    unfold bind at 1, random. rewrite Hr. unfold ret at 1. cbv beta iota.
    destruct (variations_loop_names input dir v base overwrite
                (Z.to_nat (count v)) 0 (random_seed r) w3)
      as (rs & w4 & -> & _). reflexivity. }
  split; [exact Hrun |]. rewrite Hrun.
  destruct (variations_loop_names input dir v base overwrite
              (Z.to_nat (count v)) 0 (random_seed r) w3)
    as (rs & w4 & Hloop & _ & Hops & _).
  now exists rs, w4.
Qed.

End VariationNames.

(** X24.  A perturbation reads nothing of [volumeRange], and of [timingRange]
    only whether it is there and not zero: its size does not change the
    tempo factor. *)
Theorem ranges_that_are_not_read (v : VariationOperation)
    (volumeRange1 volumeRange2 : option float) (timing1 timing2 : float)
    (state : float) :
  JS.truthy timing1 = JS.truthy timing2 ->
  generateRandomVariation (with_ranges v volumeRange1 (Some timing1)) state =
  generateRandomVariation (with_ranges v volumeRange2 (Some timing2)) state.
Proof.
  intros H. unfold generateRandomVariation.
  cbn [with_ranges pitchRange spectralRange timingRange JS.truthy_value].
  rewrite H. destruct (JS.truthy timing2); reflexivity.
Qed.

(** X25.  A variation keeps the base operations: [volume], [format] and
    [effects] are those of the base, and so is every field of [advanced] the
    perturbation did not set, among them [dynamics], [spatial] and
    [modulation], and [pitch] when there is no pitch range. *)
Theorem variation_keeps_the_base (v : VariationOperation) (state : float)
    (b : AudioOperations) (a : AdvancedEffectsOperation) :
  advanced b = Some a ->
  let ops := variationOps (Some b) (fst (generateRandomVariation v state)) in
  volume ops = volume b /\ format ops = format b /\ effects ops = effects b /\
  exists a',
    advanced ops = Some a' /\
    harmonics a' = harmonics a /\ dynamics a' = dynamics a /\
    spatial a' = spatial a /\ envelope a' = envelope a /\
    modulation a' = modulation a /\ variations a' = variations a /\
    layering a' = layering a /\
    (JS.truthy_value (pitchRange v) = None -> pitch a' = pitch a) /\
    (JS.truthy_value (spectralRange v) = None -> spectral a' = spectral a) /\
    (JS.truthy_value (timingRange v) = None -> tempo a' = tempo a).
Proof.
  intros Ha. cbv zeta. unfold variationOps. cbn [volume format effects advanced].
  repeat split. eexists. split; [reflexivity |]. rewrite Ha.
  unfold generateRandomVariation, spread_advanced.
  destruct (JS.truthy_value (pitchRange v));
    destruct (JS.truthy_value (spectralRange v));
    destruct (JS.truthy_value (timingRange v));
    repeat match goal with
    | |- context [rng_next ?s] => destruct (rng_next s)
    end; cbn; repeat split; try reflexivity; intros; discriminate.
Qed.

(** X22 at [{ count: 3, pitchRange: 2, seed: 42 }] on one file. *)
Lemma generateVariations_names_witness :
  validateInputFile Sample.host "in/a.wav" MoreSamples.one_file =
    (Returned tt, MoreSamples.at_time 2 MoreSamples.one_file) /\
  ensureOutputDirectory Sample.host "out" (MoreSamples.at_time 2 MoreSamples.one_file) =
    (Returned tt, MoreSamples.at_time 4 MoreSamples.one_file) /\
  exists rs w',
    generateVariations Sample.host (base_applyOperationsToCommand no_fraction)
      "in/a.wav" "out" MoreSamples.three_variations None false
      MoreSamples.one_file = (Returned rs, w') /\
    map outputFile rs = ["out/a_var1.wav"; "out/a_var2.wav"; "out/a_var3.wav"].
Proof.
  split; [reflexivity |]. split; [reflexivity |].
  destruct (generateVariations_names Sample.host
              (base_applyOperationsToCommand no_fraction)
              "in/a.wav" "out" MoreSamples.three_variations None false
              MoreSamples.one_file
              (MoreSamples.at_time 2 MoreSamples.one_file)
              (MoreSamples.at_time 4 MoreSamples.one_file)
              eq_refl eq_refl) as (rs & w' & Hrun & _ & Hnames & _).
  exists rs, w'. split; [exact Hrun | exact Hnames].
Defined.

(** X26 with no seed, where [Math.random()] returns 0.25: the seed is
    250000. *)
Lemma unseeded_variations_draw_one_seed_witness :
  JS.truthy_value (seed (with_seed MoreSamples.three_variations None)) = None /\
  random_seed 0.25 = 250000%float /\
  generateVariations Sample.host (base_applyOperationsToCommand no_fraction)
    "in/a.wav" "out" (with_seed MoreSamples.three_variations None) None false
    Sample.random_quarter =
  variations_loop Sample.host (base_applyOperationsToCommand no_fraction)
    "in/a.wav" "out" (with_seed MoreSamples.three_variations None) None false
    3 0 (random_seed 0.25)
    {| Sample.clock := 4; Sample.randoms := []; Sample.files := ["in/a.wav"] |}.
Proof.
  split; [reflexivity |]. split; [reflexivity |].
  exact (proj1 (unseeded_variations_draw_one_seed Sample.host
           (base_applyOperationsToCommand no_fraction)
           "in/a.wav" "out" (with_seed MoreSamples.three_variations None)
           None false Sample.random_quarter
           (MoreSamples.at_time 2 Sample.random_quarter)
           (MoreSamples.at_time 4 Sample.random_quarter)
           {| Sample.clock := 4; Sample.randoms := [];
              Sample.files := ["in/a.wav"] |}
           0.25%float eq_refl eq_refl eq_refl eq_refl)).
Defined.

(** X24 at the timing ranges 0.1 and 50. *)
Lemma ranges_that_are_not_read_witness :
  JS.truthy 0.1 = JS.truthy 50 /\
  generateRandomVariation
    (with_ranges MoreSamples.three_variations (Some 3%float) (Some 0.1%float)) 42 =
  generateRandomVariation
    (with_ranges MoreSamples.three_variations None (Some 50%float)) 42.
Proof.
  split; [reflexivity |].
  exact (ranges_that_are_not_read MoreSamples.three_variations
           (Some 3%float) None 0.1%float 50%float 42%float eq_refl).
Defined.

(** X25 at a base with a gain and an advanced block. *)
Lemma variation_keeps_the_base_witness :
  advanced (with_advanced Sample.volume_of_the_test (Some no_advanced)) =
    Some no_advanced /\
  volume (variationOps
            (Some (with_advanced Sample.volume_of_the_test (Some no_advanced)))
            (fst (generateRandomVariation MoreSamples.three_variations 42))) =
  volume Sample.volume_of_the_test.
Proof.
  split; [reflexivity |].
  exact (proj1 (variation_keeps_the_base MoreSamples.three_variations 42%float
                  (with_advanced Sample.volume_of_the_test (Some no_advanced))
                  no_advanced eq_refl)).
Defined.

(* ===================================================================== *)
(** * The batch scheduler: outputs, time, failures, one file *)
(* ===================================================================== *)

Section BatchOutputs.

Context {World : Type} (host : Host World).
Variable applyOperationsToCommand : AudioOperations -> Cmd unit.

Abbreviation batch := (batchProcessAudio host applyOperationsToCommand).
Abbreviation run_job := (processAudioFile host applyOperationsToCommand).

(** The tasks of a batch settle with the results of their files, whatever
    the order they finish in. *)
Lemma batch_tasks_outputs (input : ProcessingInput) (output : ProcessingOutput)
    (ops : AudioOperations) (overwrite : bool) (files : list string)
    (choices : list nat) (w : World) :
  exists rs w',
    Promise_all_queued
      (map (batch_task host applyOperationsToCommand input output ops overwrite)
           files)
      choices w = (Returned rs, w') /\
    map inputFile rs = files /\
    map outputFile rs =
      map (fun f => generateBatchOutputPath host f input output) files.
Proof.
  destruct (Promise_all_queued_in_order
              (fun j r => nth_error files j = Some (inputFile r) /\
                          outputFile r =
                          generateBatchOutputPath host (inputFile r) input output)
              (map (batch_task host applyOperationsToCommand input output ops
                      overwrite) files)
              choices w)
    as (rs & w' & Hrun & Hlen & Hgood).
  - intros i task Hi. rewrite nth_error_map in Hi.
    destruct (nth_error files i) as [f|] eqn:Hf; [|discriminate].
    injection Hi as <-. intros w0. unfold batch_task.
    destruct (processAudioFile_echo host applyOperationsToCommand f
                (generateBatchOutputPath host f input output) ops overwrite w0)
      as (r & w1 & Hr & Hin & Hout & _).
    exists r, w1. rewrite Hin, Hout. auto.
  - exists rs, w'. rewrite length_map in Hlen.
    assert (Hfiles : map inputFile rs = files).
    { apply map_by_nth_error; [assumption |].
      intros j r Hj. exact (proj1 (Hgood j r Hj)). }
    repeat split; auto.
    transitivity
      (map (fun r => generateBatchOutputPath host (inputFile r) input output) rs).
    + apply map_ext_in.
      intros r Hr. apply In_nth_error in Hr. destruct Hr as [j Hj].
      exact (proj2 (Hgood j r Hj)).
    + rewrite <- Hfiles, map_map. reflexivity.
Qed.

(** X27.  A batch that finds files writes the output of each file where
    [generateBatchOutputPath] says, in the order of the files, and its total
    time is what the clock advanced by from its start to the end of the
    last job. *)
Theorem batch_outputs_and_time (input : ProcessingInput)
    (output : ProcessingOutput) (ops : AudioOperations) (overwrite : bool)
    (choices : list nat) (w w1 : World) (files : list string) :
  findInputFiles host input w = (Returned files, w1) ->
  files <> [] ->
  exists r w',
    batch input output ops overwrite choices w = (Returned r, w') /\
    map outputFile (results r) =
      map (fun f => generateBatchOutputPath host f input output) files /\
    totalProcessingTime r = (Date_now host w' - Date_now host w)%Z.
Proof.
  intros Hfind Hne.
  destruct (batch_tasks_outputs input output ops overwrite files choices w1)
    as (rs & w2 & Hrun & _ & Houts).
  eexists. exists w2. split.
  - unfold batchProcessAudio, bind, try_catch, now. rewrite Hfind.
    destruct files as [|f files]; [congruence |].
    cbn [length Nat.eqb ret]. rewrite Hrun. reflexivity.
  - cbn [results totalProcessingTime]. now split.
Qed.

(** X28.  A batch throws only when the search for its files throws or finds
    nothing, and what it throws then is an [FFmpegError] whose message
    starts with "Batch processing failed: "; a job that fails does not make
    the batch throw. *)
Theorem batch_failure (input : ProcessingInput) (output : ProcessingOutput)
    (ops : AudioOperations) (overwrite : bool) (choices : list nat)
    (w w' : World) (t : Thrown) :
  batch input output ops overwrite choices w = (Threw t, w') <->
  (exists t0, findInputFiles host input w = (Threw t0, w') /\
              t = FFmpegError ("Batch processing failed: " ++ message_of t0)) \/
  (findInputFiles host input w = (Returned [], w') /\
   t = FFmpegError
         "Batch processing failed: No audio files found matching the criteria").
Proof.
  split.
  - intros H.
    destruct (findInputFiles host input w) as [[files|t0] w1] eqn:Hfind.
    + destruct files as [|f files].
      * unfold batchProcessAudio, bind, try_catch, now, throw in H.
        rewrite Hfind in H. cbn in H. injection H as <- <-. now right.
      * destruct (batch_tasks_outputs input output ops overwrite (f :: files)
                    choices w1) as (rs & w2 & Hrun & _).
        unfold batchProcessAudio, bind, try_catch, now in H.
        rewrite Hfind in H. cbn [length Nat.eqb ret] in H.
        rewrite Hrun in H. discriminate.
    + unfold batchProcessAudio, bind, try_catch, now, throw in H.
      rewrite Hfind in H. injection H as <- <-. left. now exists t0.
  - intros [(t0 & Hfind & ->) | (Hfind & ->)];
      unfold batchProcessAudio, bind, try_catch, now, throw;
      rewrite Hfind; reflexivity.
Qed.

(** X29.  When the input names a file the batch is the job of that file: the
    directory and the pattern are not looked at, nothing is searched for,
    and the result counts the one file. *)
Theorem single_file_batch (input : ProcessingInput) (output : ProcessingOutput)
    (ops : AudioOperations) (overwrite : bool) (choices : list nat)
    (w : World) (file : string) :
  JS.truthy_string (in_file input) = Some file ->
  exists r w',
    run_job file (generateBatchOutputPath host file input output) ops
      overwrite w = (Returned r, w') /\
    batch input output ops overwrite choices w =
    (Returned {| totalFiles := 1;
                 successfulFiles := if success r then 1 else 0;
                 failedFiles := if success r then 0 else 1;
                 results := [r];
                 totalProcessingTime := Date_now host w' - Date_now host w |},
     w').
Proof.
  intros Hfile.
  destruct (processAudioFile_echo host applyOperationsToCommand file
              (generateBatchOutputPath host file input output) ops overwrite w)
    as (r & w1 & Hr & _).
  exists r, w1. split; [exact Hr |].
  unfold batchProcessAudio, findInputFiles. rewrite Hfile.
  unfold bind, try_catch, now, ret, Promise_all_queued, bind.
  cbn [map length Nat.eqb number_from repeat settle].
  rewrite Nat.mod_1_r. cbn [take_nth]. unfold bind, batch_task. rewrite Hr.
  cbn [settle ret update_nth settled filter].
  destruct (success r); reflexivity.
Qed.

End BatchOutputs.

(** X27 on the two files of the directory [in]. *)
Lemma batch_outputs_and_time_witness :
  findInputFiles Sample.host Sample.from_in Sample.two_files =
    (Returned ["in/a.wav"; "in/b.wav"], MoreSamples.at_time 1 Sample.two_files) /\
  exists r w',
    batchProcessAudio Sample.host (base_applyOperationsToCommand no_fraction)
      Sample.from_in Sample.to_out Sample.empty_ops false [1] Sample.two_files =
      (Returned r, w') /\
    map outputFile (results r) = ["out/a_processed.wav"; "out/b_processed.wav"].
Proof.
  split; [reflexivity |].
  destruct (batch_outputs_and_time Sample.host
              (base_applyOperationsToCommand no_fraction)
              Sample.from_in Sample.to_out Sample.empty_ops false [1]
              Sample.two_files (MoreSamples.at_time 1 Sample.two_files)
              ["in/a.wav"; "in/b.wav"] eq_refl ltac:(discriminate))
    as (r & w' & Hrun & Houts & _).
  exists r, w'. split; [exact Hrun | exact Houts].
Defined.

(** X29 when the input names [in/a.wav]. *)
Lemma single_file_batch_witness :
  JS.truthy_string (in_file MoreSamples.just_a) = Some "in/a.wav" /\
  exists r w',
    batchProcessAudio Sample.host (base_applyOperationsToCommand no_fraction)
      MoreSamples.just_a Sample.to_out Sample.empty_ops false []
      Sample.two_files =
    (Returned {| totalFiles := 1;
                 successfulFiles := if success r then 1 else 0;
                 failedFiles := if success r then 0 else 1;
                 results := [r];
                 totalProcessingTime := Sample.clock w' - 0 |}, w').
Proof.
  split; [reflexivity |].
  destruct (single_file_batch Sample.host
              (base_applyOperationsToCommand no_fraction)
              MoreSamples.just_a Sample.to_out Sample.empty_ops false []
              Sample.two_files "in/a.wav" eq_refl)
    as (r & w' & _ & Hrun).
  exists r, w'. exact Hrun.
Defined.
